(** * martin-ai: ingestion and retrieval pipeline

    A shallow embedding of the chunkers ([src/ingestion/chunker.py]), the
    validators ([src/utils/validators.py]), the embedding client
    ([src/models/embeddings.py]), the vector store client
    ([src/knowledge/vector_store.py]), the ingestion orchestrator
    ([src/knowledge/knowledge_base.py]), the processor factory
    ([src/ingestion/document_processor.py]) and the loop of the batch
    script ([scripts/ingest/batch_ingest.py]), with the properties the
    specification states about them and further properties of the code. *)

From Stdlib Require Import ZArith NArith Lia Bool.
From Stdlib Require Import DecimalString DecimalZ.
From stdpp Require Import base list strings gmap finite.

(** ** The Python values the code works on *)

Module Py.

(** A Python [str] is a sequence of Unicode code points. *)
Definition char := N.
Definition str := list char.

(** A string literal of the source (ASCII), as a [str]. *)
Definition lit (s : string) : str :=
  List.map Ascii.N_of_ascii (String.list_ascii_of_string s).

(** The exceptions the modelled code raises or lets through. *)
Inductive exn :=
| TypeError
| ValueError (msg : string)
| UnicodeEncodeError
| Exception (msg : string).

(** The outcome of a call: a value or a raised exception. *)
Inductive result (A : Type) :=
| Ok (a : A)
| Raise (e : exn).
Arguments Ok {A} a.
Arguments Raise {A} e.

Definition bind {A B} (r : result A) (k : A -> result B) : result B :=
  match r with
  | Ok a => k a
  | Raise e => Raise e
  end.

(** [str.isspace] on one code point, which is also what [\s] matches in
    a [str] pattern: U+0009..000D, U+001C..001F, U+0020, U+0085, U+00A0,
    U+1680, U+2000..200A, U+2028, U+2029, U+202F, U+205F, U+3000. *)
Definition is_space (c : char) : bool :=
  ((9 <=? c) && (c <=? 13) || (28 <=? c) && (c <=? 32)
   || (c =? 133) || (c =? 160) || (c =? 5760)
   || (8192 <=? c) && (c <=? 8202)
   || (c =? 8232) || (c =? 8233) || (c =? 8239) || (c =? 8287)
   || (c =? 12288))%N.

(** [[A-Z]] in a pattern compiled without flags. *)
Definition is_upper_AZ (c : char) : bool := ((65 <=? c) && (c <=? 90))%N.

(** [\d], on ASCII text: the digits 0 to 9.  (In a [str] pattern [\d]
    also matches the decimal digits of other scripts; the filenames the
    rule is stated on are ASCII.) *)
Definition is_digit (c : char) : bool := ((48 <=? c) && (c <=? 57))%N.

(** [s.lstrip()], [s.rstrip()], [s.strip()]. *)
Fixpoint lstrip (s : str) : str :=
  match s with
  | [] => []
  | c :: s' => if is_space c then lstrip s' else s
  end.

Definition rstrip (s : str) : str := rev (lstrip (rev s)).

Definition strip (s : str) : str := rstrip (lstrip s).

(** Truthiness of a [str]: non-empty. *)
Definition truthy (s : str) : bool :=
  match s with [] => false | _ => true end.

(** [s.startswith(p)]. *)
Fixpoint startswith (p s : str) : bool :=
  match p, s with
  | [], _ => true
  | _ :: _, [] => false
  | a :: p', c :: s' => (a =? c)%N && startswith p' s'
  end.

(** [s.split(sep)] for a non-empty [sep]: the text is scanned from the
    left, each occurrence of [sep] closes the current piece and the scan
    resumes after it.  [skip] counts the characters of the occurrence
    still to pass over; [cur] is the current piece, reversed. *)
Fixpoint split_go (sep : str) (skip : nat) (cur : str) (s : str) : list str :=
  match s with
  | [] => [rev cur]
  | c :: s' =>
      match skip with
      | S n => split_go sep n cur s'
      | O =>
          if startswith sep s
          then rev cur :: split_go sep (length sep - 1) [] s'
          else split_go sep 0 (c :: cur) s'
      end
  end.

Definition split (sep : str) (s : str) : list str := split_go sep 0 [] s.

(** [sep.join(xs)]. *)
Fixpoint join (sep : str) (xs : list str) : str :=
  match xs with
  | [] => []
  | [x] => x
  | x :: xs' => x ++ sep ++ join sep xs'
  end.

(** The bounds of a slice [s[a:b]] on a sequence of length [n]: a
    negative bound counts from the end, and both are clamped to
    [0..n]. *)
Definition clamp (n : Z) (i : Z) : Z :=
  if (i <? 0)%Z then Z.max (i + n) 0 else Z.min i n.

(** [s[a:b]]. *)
Definition slice {A} (s : list A) (a b : Z) : list A :=
  let n := Z.of_nat (length s) in
  let a' := clamp n a in
  let b' := clamp n b in
  take (Z.to_nat (b' - a')) (drop (Z.to_nat a') s).

(** The length of the longest prefix of [s] made of characters of the
    class [cls]: what a greedy [[cls]+] consumes. *)
Fixpoint run_length (cls : char -> bool) (s : str) : nat :=
  match s with
  | [] => 0
  | c :: s' => if cls c then S (run_length cls s') else 0
  end.

(** [re.sub("[cls]{k,}", repl, s)] for [k >= 1]: every maximal run of at
    least [k] characters of the class is replaced by [repl]; the scan is
    leftmost, greedy and non-overlapping.  [skip] counts the characters
    of the current match still to pass over. *)
Fixpoint sub_runs (cls : char -> bool) (k : nat) (repl : str)
    (skip : nat) (s : str) : str :=
  match s with
  | [] => []
  | c :: s' =>
      match skip with
      | S n => sub_runs cls k repl n s'
      | O =>
          let r := run_length cls s in
          if (0 <? r)%nat && (k <=? r)%nat
          then repl ++ sub_runs cls k repl (r - 1) s'
          else c :: sub_runs cls k repl 0 s'
      end
  end.

(** Consecutive groups of [n] elements of [l] ([n > 0]), the last one
    possibly shorter; [fuel] bounds their number, and [length l] is
    enough. *)
Fixpoint groups {A} (fuel n : nat) (l : list A) : list (list A) :=
  match fuel, l with
  | O, _ | _, [] => []
  | S fuel', _ :: _ => take n l :: groups fuel' n (drop n l)
  end.

(** ASCII lower-casing of one code point. *)
Definition ascii_lower (c : char) : char :=
  if is_upper_AZ c then (c + 32)%N else c.

(** Whether the text character [d] matches the lower-case ASCII letter
    [p] of a pattern compiled with [re.IGNORECASE]: both cases of the
    letter, and the four non-ASCII letters that fold to [i], [s], [k]. *)
Definition ci_char (p d : char) : bool :=
  ((ascii_lower d =? p)
   || (p =? 105) && ((d =? 304) || (d =? 305))
   || (p =? 115) && (d =? 383)
   || (p =? 107) && (d =? 8490))%N.

Fixpoint ci_startswith (p s : str) : bool :=
  match p, s with
  | [], _ => true
  | _ :: _, [] => false
  | a :: p', c :: s' => ci_char a c && ci_startswith p' s'
  end.

(** [re.search("(w1|...|wn)", s, re.IGNORECASE)] as a truth value, for
    lower-case ASCII words: some position of [s] starts one of them. *)
Fixpoint ci_search (words : list str) (s : str) : bool :=
  existsb (fun w => ci_startswith w s) words
  || match s with
     | [] => false
     | _ :: s' => ci_search words s'
     end.

End Py.

(** ** src/utils/validators.py *)

Module Validators.
Import Py.

(** The dictionary [extract_metadata_from_filename] returns: it always
    has the three keys, each bound to a string or to [None]. *)
Record filename_metadata := {
  document_type : option str;
  sector : option str;
  date : option str;
}.

(** A pattern made of fixed-width pieces, matched at the start of [s]:
    [\d{n}] and a literal character. *)
Inductive piece :=
| Digits (n : nat)
| Char (c : char).

Fixpoint match_pieces (ps : list piece) (s : str) : option nat :=
  match ps with
  | [] => Some 0
  | Digits n :: ps' =>
      if (length (take n s) =? n)%nat && forallb is_digit (take n s)
      then option_map (fun k => n + k) (match_pieces ps' (drop n s))
      else None
  | Char c :: ps' =>
      match s with
      | d :: s' =>
          if (c =? d)%N then option_map S (match_pieces ps' s') else None
      | [] => None
      end
  end.

(** [re.search(pattern, s)] followed by [.group(0)]: the text of the
    leftmost match, if any. *)
Fixpoint search_group0 (ps : list piece) (s : str) : option str :=
  match match_pieces ps s with
  | Some k => Some (take k s)
  | None =>
      match s with
      | [] => None
      | _ :: s' => search_group0 ps s'
      end
  end.

Definition hyphen : char := 45%N.

Definition extract_metadata_from_filename (filename : str) : filename_metadata :=
  let document_type :=
    if ci_search [lit "treaty"; lit "agreement"; lit "convention"] filename
    then Some (lit "treaty")
    else if ci_search [lit "policy"; lit "strategy"; lit "framework"] filename
    then Some (lit "policy")
    else if ci_search [lit "feasibility"; lit "study"; lit "analysis"] filename
    then Some (lit "study")
    else None in
  let sector :=
    if ci_search [lit "mineral"; lit "mining"; lit "extractive"] filename
    then Some (lit "minerals")
    else if ci_search [lit "energy"; lit "power"; lit "electricity";
                       lit "renewable"] filename
    then Some (lit "energy")
    else if ci_search [lit "agriculture"; lit "agri"; lit "farming"] filename
    then Some (lit "agriculture")
    else None in
  let date :=
    match search_group0
            [Digits 4; Char hyphen; Digits 2; Char hyphen; Digits 2] filename with
    | Some d => Some d
    | None => search_group0 [Digits 4] filename
    end in
  {| document_type := document_type; sector := sector; date := date |}.

(** The class [[\x00-\x08\x0B-\x0C\x0E-\x1F\x7F]]. *)
Definition is_stripped_control (c : char) : bool :=
  ((c <=? 8) || (11 <=? c) && (c <=? 12) || (14 <=? c) && (c <=? 31)
   || (c =? 127))%N.

(** The class [[ \t]]. *)
Definition is_space_or_tab (c : char) : bool := ((c =? 32) || (c =? 9))%N.

Definition newline : char := 10%N.
Definition is_newline (c : char) : bool := (c =? newline)%N.

Definition sanitize_text (text : str) : str :=
  (* re.sub(r"[\x00-\x08\x0B-\x0C\x0E-\x1F\x7F]", "", text) *)
  let text := List.filter (fun c => negb (is_stripped_control c)) text in
  (* re.sub(r"[ \t]+", " ", text) *)
  let text := sub_runs is_space_or_tab 1 (lit " ") 0 text in
  (* re.sub(r"\n{3,}", "\n\n", text) *)
  let text := sub_runs is_newline 3 [newline; newline] 0 text in
  let lines := List.map strip (split [newline] text) in
  let text := join [newline] lines in
  strip text.

(** [str.lower()], as far as the membership of its result in a list of
    ASCII words goes: the ASCII capitals and the Kelvin sign U+212A, the
    only other character whose lower case is ASCII, are mapped; a
    character whose lower case is not ASCII is left as it is. *)
Definition lower_char (c : char) : char :=
  if (c =? 8490)%N then 107%N else ascii_lower c.

Definition lower (s : str) : str := List.map lower_char s.

(** [x in words] for a list of strings. *)
Definition member (x : str) (words : list str) : bool :=
  existsb (fun w => bool_decide (x = w)) words.

(** [DocumentMetadata.validate_file_type]. *)
Definition file_types : list str := [lit "pdf"; lit "docx"; lit "txt"; lit "md"].

Definition validate_file_type (v : str) : result str :=
  if negb (member (lower v) file_types)
  then Raise (ValueError "File type must be one of ['pdf', 'docx', 'txt', 'md']")
  else Ok (lower v).

(** [DocumentMetadata.validate_sector]. *)
Definition sectors : list str :=
  [lit "minerals"; lit "energy"; lit "agriculture"; lit "investment"; lit "general"].

Definition validate_sector (v : option str) : result (option str) :=
  match v with
  | None => Ok None
  | Some v =>
      if negb (member (lower v) sectors)
      then Raise (ValueError
                    "Sector must be one of ['minerals', 'energy', 'agriculture', 'investment', 'general']")
      else Ok (Some (lower v))
  end.

(** [ChunkData.validate_content]. *)
Definition validate_content (v : str) : result str :=
  if negb (truthy (strip v))
  then Raise (ValueError "Content cannot be empty or whitespace only")
  else Ok v.

(** [ChunkData.validate_embedding], on the length of the vector. *)
Definition validate_embedding {A} (v : option (list A)) : result (option (list A)) :=
  match v with
  | Some l =>
      if negb (Z.of_nat (length l) =? 768)%Z
      then Raise (ValueError
                    (String.append "Embedding must have 768 dimensions, got "
                       (NilEmpty.string_of_int (Z.to_int (Z.of_nat (length l))))))
      else Ok v
  | None => Ok v
  end.

End Validators.

(** ** src/ingestion/chunker.py *)

Module FixedSizeChunker.
Import Py.

Record t := {
  chunk_size : Z;
  chunk_overlap : Z;
}.

(** [FixedSizeChunker()] with the default arguments. *)
Definition default : t := {| chunk_size := 1000; chunk_overlap := 200 |}.

(** [int(chunk_size * 0.2)]: the product is a float and [int] truncates
    towards zero; for an integer below 3 * 2^51 = 6755399441055744 in
    absolute value that is the quotient by 5.  (From there on the rounded
    product can be one more, and for a size beyond the range of a float
    the product raises [OverflowError]; neither is modelled.) *)
Definition int_of_fifth (n : Z) : Z := Z.quot n 5.

(** [[m.end() for m in re.finditer(pat, s)]] for a literal, non-empty
    [pat]: the end offsets of its non-overlapping occurrences, from the
    left.  [pos] is the offset of the head of [s]. *)
Fixpoint finditer_go (pat : str) (skip pos : nat) (s : str) : list nat :=
  match s with
  | [] => []
  | _ :: s' =>
      match skip with
      | S n => finditer_go pat n (S pos) s'
      | O =>
          if startswith pat s
          then (pos + length pat)%nat
               :: finditer_go pat (length pat - 1) (S pos) s'
          else finditer_go pat 0 (S pos) s'
      end
  end.

Definition finditer_ends (pat s : str) : list nat := finditer_go pat 0 0 s.

(** The six literal patterns, in the order the loop tries them. *)
Definition sentence_endings : list str :=
  [[46; 32]; [46; 10]; [33; 32]; [33; 10]; [63; 32]; [63; 10]]%N.

(** The [for pattern in ...] loop: the first pattern that occurs in
    [search_text] decides, and its last occurrence is taken. *)
Fixpoint last_sentence_end (patterns : list str) (search_text : str) : option nat :=
  match patterns with
  | [] => None
  | pattern :: rest =>
      match last (finditer_ends pattern search_text) with
      | Some e => Some e
      | None => last_sentence_end rest search_text
      end
  end.

(** [start <= chunks[-1]]: an [int] compared with a [str], which Python 3
    refuses. *)
Definition int_le_str (a : Z) (b : str) : result bool := Raise TypeError.

(** The condition of [if start <= chunks[-1] if chunks else 0:], which
    Python parses as [(start <= chunks[-1]) if chunks else 0]. *)
Definition progress_condition (start : Z) (chunks : list str) : result bool :=
  match last chunks with
  | Some c => int_le_str start c
  | None => Ok false
  end.

(** The variables the [while] loop updates. *)
Definition state : Type := Z * list str.

(** One pass through the body of the [while] loop. *)
Definition iteration (self : t) (text : str) (st : state) : result state :=
  let '(start, chunks) := st in
  let text_length := Z.of_nat (length text) in
  let end_ := (start + chunk_size self)%Z in
  let end_ :=
    if (end_ <? text_length)%Z then
      let search_start := (end_ - int_of_fifth (chunk_size self))%Z in
      let search_text := slice text search_start (end_ + 50) in
      match last_sentence_end sentence_endings search_text with
      | Some e => (search_start + Z.of_nat e)%Z
      | None => end_
      end
    else end_ in
  let chunk := strip (slice text start end_) in
  let chunks := if truthy chunk then chunks ++ [chunk] else chunks in
  let start := (end_ - chunk_overlap self)%Z in
  bind (progress_condition start chunks) (fun c =>
  Ok (if c then end_ else start, chunks)).

(** The [while start < text_length] loop; [None] when [fuel] passes do
    not finish it. *)
Fixpoint loop (fuel : nat) (self : t) (text : str) (st : state)
    : option (result (list str)) :=
  if (fst st <? Z.of_nat (length text))%Z then
    match fuel with
    | O => None
    | S fuel' =>
        match iteration self text st with
        | Ok st' => loop fuel' self text st'
        | Raise e => Some (Raise e)
        end
    end
  else Some (Ok (snd st)).

Definition chunk (fuel : nat) (self : t) (text : str) : option (result (list str)) :=
  if negb (truthy (strip text)) then Some (Ok [])
  else loop fuel self text (0%Z, []).

End FixedSizeChunker.

Module SemanticChunker.
Import Py.

Record t := {
  max_chunk_size : Z;
  min_chunk_size : Z;
}.

(** [SemanticChunker()] with the default arguments. *)
Definition default : t := {| max_chunk_size := 1500; min_chunk_size := 500 |}.

(** The class [[.!?]]. *)
Definition is_terminal (c : char) : bool :=
  ((c =? 46) || (c =? 33) || (c =? 63))%N.

(** The pattern [(?<=[.!?])\s+(?=[A-Z])] tried at one position: [prev]
    is the character before it and [s] the text from it on.  The
    look-behind needs a terminal before; [\s+] takes the whole run of
    whitespace, and since the look-ahead needs a capital letter next, no
    shorter run can match.  The result is the length of the match. *)
Definition boundary (prev : option char) (s : str) : option nat :=
  match prev with
  | Some p =>
      if is_terminal p then
        let r := run_length is_space s in
        match drop r s with
        | c :: _ => if (0 <? r)%nat && is_upper_AZ c then Some r else None
        | [] => None
        end
      else None
  | None => None
  end.

(** [re.split(pattern, text)] for that pattern. *)
Fixpoint re_split_go (skip : nat) (prev : option char) (cur : str) (s : str)
    : list str :=
  match s with
  | [] => [rev cur]
  | c :: s' =>
      match skip with
      | S n => re_split_go n (Some c) cur s'
      | O =>
          match boundary prev s with
          | Some r => rev cur :: re_split_go (r - 1) (Some c) [] s'
          | None => re_split_go 0 (Some c) (c :: cur) s'
          end
      end
  end.

Definition re_split (text : str) : list str := re_split_go 0 None [] text.

Definition _split_sentences (text : str) : list str :=
  let sentences := re_split text in
  List.map strip (List.filter (fun s => truthy (strip s)) sentences).

Definition space : str := [32%N].

(** The variables the [for sentence in sentences] loop updates. *)
Record acc := {
  chunks : list str;
  current_chunk : list str;
  current_size : Z;
}.

Definition step (self : t) (a : acc) (sentence : str) : acc :=
  let sentence_size := Z.of_nat (length sentence) in
  let a :=
    if (max_chunk_size self <? current_size a + sentence_size)%Z
       && negb (bool_decide (current_chunk a = []))
    then
      let chunk_text := strip (join space (current_chunk a)) in
      if (min_chunk_size self <=? Z.of_nat (length chunk_text))%Z
      then {| chunks := chunks a ++ [chunk_text];
              current_chunk := [];
              current_size := 0 |}
      else a
    else a in
  {| chunks := chunks a;
     current_chunk := current_chunk a ++ [sentence];
     current_size := (current_size a + sentence_size)%Z |}.

Definition chunk (self : t) (text : str) : list str :=
  if negb (truthy (strip text)) then []
  else
    let sentences := _split_sentences text in
    let a := fold_left (step self) sentences
               {| chunks := []; current_chunk := []; current_size := 0 |} in
    match current_chunk a with
    | [] => chunks a
    | _ :: _ =>
        let chunk_text := strip (join space (current_chunk a)) in
        if truthy chunk_text then chunks a ++ [chunk_text] else chunks a
    end.

End SemanticChunker.

Module RecursiveChunker.
Import Py.

Record t := {
  chunk_size : Z;
  chunk_overlap : Z;
  separators : list str;
}.

Definition default_separators : list str :=
  [[10; 10]; [10]; [46; 32]; [32]; []]%N.

(** [__init__]: [separators or ["\n\n", "\n", ". ", " ", ""]]. *)
Definition init (chunk_size chunk_overlap : Z) (separators : option (list str)) : t :=
  {| chunk_size := chunk_size;
     chunk_overlap := chunk_overlap;
     separators :=
       match separators with
       | Some ((_ :: _) as l) => l
       | _ => default_separators
       end |}.

(** The variables the [for split in splits] loop updates. *)
Record acc := {
  chunks : list str;
  current_chunk : list str;
  current_size : Z;
}.

(** Saving the current chunk: [recurse] is [_recursive_split] on the
    remaining separators, [more] whether there are any. *)
Definition save (self : t) (separator : str) (more : bool)
    (recurse : str -> list str) (current : list str) : list str :=
  match current with
  | [] => []
  | _ :: _ =>
      let chunk_text := join separator current in
      if (chunk_size self <? Z.of_nat (length chunk_text))%Z && more
      then recurse chunk_text
      else [chunk_text]
  end.

Definition step (self : t) (separator : str) (more : bool)
    (recurse : str -> list str) (a : acc) (split : str) : acc :=
  let split_size := Z.of_nat (length split) in
  if (current_size a + split_size <=? chunk_size self)%Z then
    {| chunks := chunks a;
       current_chunk := current_chunk a ++ [split];
       current_size := (current_size a + split_size
                        + Z.of_nat (length separator))%Z |}
  else
    {| chunks := chunks a ++ save self separator more recurse (current_chunk a);
       current_chunk := [split];
       current_size := split_size |}.

Fixpoint _recursive_split (self : t) (separators : list str) (text : str)
    : list str :=
  match separators with
  | [] => if truthy (strip text) then [text] else []
  | separator :: remaining_separators =>
      let splits :=
        if truthy separator then split separator text
        else List.map (fun c => [c]) text in
      let more := negb (bool_decide (remaining_separators = [])) in
      let recurse := _recursive_split self remaining_separators in
      let a := fold_left (step self separator more recurse) splits
                 {| chunks := []; current_chunk := []; current_size := 0 |} in
      let chunks := chunks a ++ save self separator more recurse (current_chunk a) in
      List.map strip (List.filter (fun c => truthy (strip c)) chunks)
  end.

Definition chunk (self : t) (text : str) : list str :=
  if negb (truthy (strip text)) then []
  else _recursive_split self (separators self) text.

End RecursiveChunker.

(** ** hashlib.md5 and str.encode, as the id generation uses them *)

Module Hashlib.
Import Py.
Local Open Scope Z_scope.

(** One code point in UTF-8; lone surrogates cannot be encoded. *)
Definition utf8_char (c : char) : option (list Z) :=
  let c := Z.of_N c in
  if c <? 0x80 then Some [c]
  else if c <? 0x800 then Some [0xC0 + c / 64; 0x80 + c mod 64]
  else if c <? 0x10000 then
    if (0xD800 <=? c) && (c <=? 0xDFFF) then None
    else Some [0xE0 + c / 4096; 0x80 + (c / 64) mod 64; 0x80 + c mod 64]
  else if c <? 0x110000 then
    Some [0xF0 + c / 262144; 0x80 + (c / 4096) mod 64;
          0x80 + (c / 64) mod 64; 0x80 + c mod 64]
  else None.

(** [s.encode()]: the UTF-8 bytes, or [None] for [UnicodeEncodeError]. *)
Fixpoint encode (s : str) : option (list Z) :=
  match s with
  | [] => Some []
  | c :: s' =>
      match utf8_char c, encode s' with
      | Some b, Some bs => Some (b ++ bs)
      | _, _ => None
      end
  end.

(** MD5 (RFC 1321) on 32-bit words held in [Z]. *)
Definition add32 (x y : Z) : Z := (x + y) mod 2 ^ 32.
Definition not32 (x : Z) : Z := Z.lxor x 0xFFFFFFFF.
Definition rotl32 (x n : Z) : Z :=
  Z.lor (Z.shiftl x n mod 2 ^ 32) (Z.shiftr x (32 - n)).

Definition K : list Z :=
  [0xd76aa478; 0xe8c7b756; 0x242070db; 0xc1bdceee;
   0xf57c0faf; 0x4787c62a; 0xa8304613; 0xfd469501;
   0x698098d8; 0x8b44f7af; 0xffff5bb1; 0x895cd7be;
   0x6b901122; 0xfd987193; 0xa679438e; 0x49b40821;
   0xf61e2562; 0xc040b340; 0x265e5a51; 0xe9b6c7aa;
   0xd62f105d; 0x02441453; 0xd8a1e681; 0xe7d3fbc8;
   0x21e1cde6; 0xc33707d6; 0xf4d50d87; 0x455a14ed;
   0xa9e3e905; 0xfcefa3f8; 0x676f02d9; 0x8d2a4c8a;
   0xfffa3942; 0x8771f681; 0x6d9d6122; 0xfde5380c;
   0xa4beea44; 0x4bdecfa9; 0xf6bb4b60; 0xbebfbc70;
   0x289b7ec6; 0xeaa127fa; 0xd4ef3085; 0x04881d05;
   0xd9d4d039; 0xe6db99e5; 0x1fa27cf8; 0xc4ac5665;
   0xf4292244; 0x432aff97; 0xab9423a7; 0xfc93a039;
   0x655b59c3; 0x8f0ccc92; 0xffeff47d; 0x85845dd1;
   0x6fa87e4f; 0xfe2ce6e0; 0xa3014314; 0x4e0811a1;
   0xf7537e82; 0xbd3af235; 0x2ad7d2bb; 0xeb86d391].

Definition shifts : list Z :=
  [7; 12; 17; 22; 7; 12; 17; 22; 7; 12; 17; 22; 7; 12; 17; 22;
   5; 9; 14; 20; 5; 9; 14; 20; 5; 9; 14; 20; 5; 9; 14; 20;
   4; 11; 16; 23; 4; 11; 16; 23; 4; 11; 16; 23; 4; 11; 16; 23;
   6; 10; 15; 21; 6; 10; 15; 21; 6; 10; 15; 21; 6; 10; 15; 21].

Definition words : Type := Z * Z * Z * Z.

Definition initial : words :=
  (0x67452301, 0xefcdab89, 0x98badcfe, 0x10325476).

(** Operation [i] of the 64 on the working variables, for the block
    [M] of sixteen words. *)
Definition round (M : list Z) (w : words) (i : nat) : words :=
  let '(A, B, C, D) := w in
  let '(F, g) :=
    if (i <? 16)%nat then
      (Z.lor (Z.land B C) (Z.land (not32 B) D), i)
    else if (i <? 32)%nat then
      (Z.lor (Z.land D B) (Z.land (not32 D) C), ((5 * i + 1) mod 16)%nat)
    else if (i <? 48)%nat then
      (Z.lxor (Z.lxor B C) D, ((3 * i + 5) mod 16)%nat)
    else
      (Z.lxor C (Z.lor B (not32 D)), ((7 * i) mod 16)%nat) in
  let F := add32 (add32 (add32 F A) (nth i K 0)) (nth g M 0) in
  (D, add32 B (rotl32 F (nth i shifts 0)), B, C).

Definition process_block (w : words) (M : list Z) : words :=
  let '(A, B, C, D) := fold_left (round M) (seq 0 64) w in
  let '(a0, b0, c0, d0) := w in
  (add32 a0 A, add32 b0 B, add32 c0 C, add32 d0 D).

(** [n] bytes of [x], least significant first. *)
Fixpoint le_bytes (n : nat) (x : Z) : list Z :=
  match n with
  | O => []
  | S n' => x mod 256 :: le_bytes n' (x / 256)
  end.

Fixpoint of_le_bytes (bs : list Z) : Z :=
  match bs with
  | [] => 0
  | b :: bs' => b + 256 * of_le_bytes bs'
  end.

(** The message followed by the bit 1, zero bits up to 56 modulo 64
    bytes, and its length in bits on 8 bytes. *)
Definition pad (msg : list Z) : list Z :=
  let len := Z.of_nat (length msg) in
  msg ++ [0x80] ++ repeat 0 (Z.to_nat ((55 - len) mod 64))
      ++ le_bytes 8 ((8 * len) mod 2 ^ 64).

Definition blocks (bytes : list Z) : list (list Z) :=
  List.map (fun b => List.map of_le_bytes (groups 16 4 b))
           (groups (length bytes) 64 bytes).

(** The state after the last block. *)
Definition md5_words (msg : list Z) : words :=
  fold_left process_block (blocks (pad msg)) initial.

(** The 16-byte digest. *)
Definition md5 (msg : list Z) : list Z :=
  let '(a, b, c, d) := md5_words msg in
  le_bytes 4 a ++ le_bytes 4 b ++ le_bytes 4 c ++ le_bytes 4 d.

Definition hex_digit (x : Z) : char :=
  Z.to_N (if x <? 10 then 48 + x else 87 + x).

(** [.hexdigest()]: two lower-case hexadecimal digits per byte. *)
Definition hexdigest (digest : list Z) : str :=
  concat (List.map (fun b => [hex_digit (b / 16); hex_digit (b mod 16)]) digest).

End Hashlib.

(** ** Built-ins shared by the batch loops *)

Module Builtins.
Import Py.
Local Open Scope Z_scope.

Fixpoint range_up (fuel : nat) (i stop step : Z) : list Z :=
  match fuel with
  | O => []
  | S fuel' =>
      if i <? stop then i :: range_up fuel' (i + step) stop step else []
  end.

Fixpoint range_down (fuel : nat) (i stop step : Z) : list Z :=
  match fuel with
  | O => []
  | S fuel' =>
      if stop <? i then i :: range_down fuel' (i + step) stop step else []
  end.

(** [range(start, stop, step)], as the list of its values. *)
Definition range (start stop step : Z) : result (list Z) :=
  if step =? 0 then Raise (ValueError "range() arg 3 must not be zero")
  else if 0 <? step then Ok (range_up (Z.to_nat (stop - start)) start stop step)
  else Ok (range_down (Z.to_nat (start - stop)) start stop step).

(** [len(l)]. *)
Definition len {A} (l : list A) : Z := Z.of_nat (length l).

End Builtins.

(** ** src/models/embeddings.py *)

Module OllamaEmbeddings.
Import Py Builtins.

Section Client.
(** The numbers of a vector, with [0.0]. *)
Variable float : Type.
Variable zero : float.

(** The embedding service: its state, and the answer to one request
    for the embedding of a text (the POST to [/api/embeddings], the
    status check and the [embedding] field of the reply), which is a
    vector or an exception. *)
Variable Service : Type.
Variable request_embedding : Service -> str -> Service * result (list float).

(** [self.dimension]. *)
Definition dimension : Z := 768.

(** [embed_text]: the reply is returned whatever its length (a length
    other than [dimension] is only logged), and an exception is logged
    and raised again. *)
Definition embed_text (sv : Service) (text : str) : Service * result (list float) :=
  match request_embedding sv text with
  | (sv', Ok embedding) => (sv', Ok embedding)
  | (sv', Raise e) => (sv', Raise e)
  end.

(** [[0.0] * self.dimension]. *)
Definition zero_vector : list float := repeat zero (Z.to_nat dimension).

(** The inner loop, [for text in batch]. *)
Fixpoint embed_each (sv : Service) (batch : list str)
    (embeddings : list (list float)) : Service * list (list float) :=
  match batch with
  | [] => (sv, embeddings)
  | text :: rest =>
      match embed_text sv text with
      | (sv', Ok embedding) => embed_each sv' rest (embeddings ++ [embedding])
      | (sv', Raise _) => embed_each sv' rest (embeddings ++ [zero_vector])
      end
  end.

(** The outer loop, [for i in iterator]. *)
Fixpoint embed_from (sv : Service) (texts : list str) (batch_size : Z)
    (iterator : list Z) (embeddings : list (list float))
    : Service * list (list float) :=
  match iterator with
  | [] => (sv, embeddings)
  | i :: iterator' =>
      let batch := slice texts i (i + batch_size) in
      let '(sv', embeddings') := embed_each sv batch embeddings in
      embed_from sv' texts batch_size iterator' embeddings'
  end.

(** [embed_batch]; the progress bar only wraps the same range. *)
Definition embed_batch (sv : Service) (texts : list str) (batch_size : Z)
    : Service * result (list (list float)) :=
  let total := len texts in
  match range 0 total batch_size with
  | Raise e => (sv, Raise e)
  | Ok iterator =>
      let '(sv', embeddings) := embed_from sv texts batch_size iterator [] in
      (sv', Ok embeddings)
  end.

End Client.

End OllamaEmbeddings.

(** ** src/knowledge/vector_store.py *)

Module PineconeVectorStore.
Import Py Builtins.

Section Client.
Variables vector metadata : Type.

(** One element of the [vectors] argument of the index's upsert. *)
Record item := {
  id : str;
  values : vector;
  item_metadata : metadata;
}.

(** The external index: its state, and its answer to one upsert
    request, which is the acknowledged count ([upserted_count]) or an
    exception. *)
Variable Index : Type.
Variable index_upsert : Index -> list item -> str -> Index * result Z.

(** One request sent to the index, with the answer it got. *)
Record request := {
  data : list item;
  namespace : str;
  response : result Z;
}.

(** The client: [self.index] is [None] until [create_index] connects
    it; [sent] lists the upsert requests sent so far, oldest first. *)
Record t := {
  index : option Index;
  sent : list request;
}.

Fixpoint zip3 (ids : list str) (vectors : list vector) (metas : list metadata)
    : list item :=
  match ids, vectors, metas with
  | id_ :: ids', v :: vectors', m :: metas' =>
      {| id := id_; values := v; item_metadata := m |} :: zip3 ids' vectors' metas'
  | _, _, _ => []
  end.

Definition upsert (self : t) (vectors : list vector) (ids : list str)
    (metas : list metadata) (ns : str) : t * result Z :=
  match index self with
  | None =>
      (self, Raise (ValueError "Index not initialized. Call create_index() first."))
  | Some ix =>
      if negb (len vectors =? len ids)%Z || negb (len vectors =? len metas)%Z
      then (self, Raise (ValueError "vectors, ids, and metadata must have same length"))
      else
        let data := zip3 ids vectors metas in
        let '(ix', r) := index_upsert ix data ns in
        ({| index := Some ix';
            sent := sent self ++ [{| data := data; namespace := ns; response := r |}] |},
         r)
  end.

(** The [for i in range(0, total, batch_size)] loop. *)
Fixpoint upsert_from (self : t) (vectors : list vector) (ids : list str)
    (metas : list metadata) (batch_size : Z) (ns : str)
    (iterator : list Z) (total_upserted : Z) : t * result Z :=
  match iterator with
  | [] => (self, Ok total_upserted)
  | i :: iterator' =>
      let batch_vectors := slice vectors i (i + batch_size) in
      let batch_ids := slice ids i (i + batch_size) in
      let batch_metadata := slice metas i (i + batch_size) in
      match upsert self batch_vectors batch_ids batch_metadata ns with
      | (self', Ok upserted_count) =>
          upsert_from self' vectors ids metas batch_size ns iterator'
                      (total_upserted + upserted_count)
      | (self', Raise e) => (self', Raise e)
      end
  end.

Definition upsert_batch (self : t) (vectors : list vector) (ids : list str)
    (metas : list metadata) (batch_size : Z) (ns : str) : t * result Z :=
  let total := len vectors in
  match range 0 total batch_size with
  | Raise e => (self, Raise e)
  | Ok iterator =>
      upsert_from self vectors ids metas batch_size ns iterator 0
  end.

End Client.

Arguments id {vector metadata} _.
Arguments values {vector metadata} _.
Arguments item_metadata {vector metadata} _.
Arguments data {vector metadata} _.
Arguments namespace {vector metadata} _.
Arguments response {vector metadata} _.
Arguments index {vector metadata Index} _.
Arguments sent {vector metadata Index} _.

Section Operations.
Variables vector metadata Index : Type.

(** The values of a metadata filter. *)
Variable filter_value : Type.

(** The three requests [delete] can send to the index. *)
Inductive deletion :=
| DeleteAll (ns : str)
| DeleteIds (ids : list str) (ns : str)
| DeleteFilter (filter : gmap str filter_value) (ns : str).

(** The answer of the index to a delete request. *)
Variable index_delete : Index -> deletion -> Index * result unit.

(** [delete]: its result comes with the requests it sent to the index. *)
Definition delete (self : t vector metadata Index) (ids : option (list str))
    (filter : option (gmap str filter_value)) (ns : str) (delete_all : bool)
    : t vector metadata Index * list deletion * result unit :=
  match index self with
  | None =>
      (self, [], Raise (ValueError "Index not initialized. Call create_index() first."))
  | Some ix =>
      let send := fun d =>
        let '(ix', r) := index_delete ix d in
        ({| index := Some ix'; sent := sent self |}, [d], r) in
      if delete_all then send (DeleteAll ns)
      else
        match ids with
        | Some ((_ :: _) as l) => send (DeleteIds l ns)
        | _ =>
            match filter with
            | Some f =>
                if bool_decide (f = ∅) then (self, [], Ok tt)
                else send (DeleteFilter f ns)
            | None => (self, [], Ok tt)
            end
        end
  end.

(** One match of a query, as the index returns it and as [query] returns
    it: the metadata may be missing in the first, and is [{}] then in the
    second. *)
Variables score metadata_value : Type.

Record index_match := {
  index_match_id : str;
  index_match_score : score;
  index_match_metadata : option (gmap str metadata_value);
}.

Record query_match := {
  match_id : str;
  match_score : score;
  match_metadata : gmap str metadata_value;
}.

(** The answer of the index to a query: its [matches]. *)
Variable index_query :
  Index -> vector -> Z -> option (gmap str filter_value) -> str -> bool
  -> Index * result (list index_match).

Definition query (self : t vector metadata Index) (query_vector : vector)
    (top_k : Z) (filter : option (gmap str filter_value)) (ns : str)
    (include_metadata : bool)
    : t vector metadata Index * result (list query_match) :=
  match index self with
  | None =>
      (self, Raise (ValueError "Index not initialized. Call create_index() first."))
  | Some ix =>
      let '(ix', r) := index_query ix query_vector top_k filter ns include_metadata in
      ({| index := Some ix'; sent := sent self |},
       bind r (fun matches =>
       Ok (List.map (fun m =>
                       {| match_id := index_match_id m;
                          match_score := index_match_score m;
                          match_metadata := default ∅ (index_match_metadata m) |})
                    matches)))
  end.

End Operations.

Arguments DeleteAll {filter_value} ns.
Arguments DeleteIds {filter_value} ids ns.
Arguments DeleteFilter {filter_value} filter ns.
Arguments index_match_id {score metadata_value} _.
Arguments index_match_score {score metadata_value} _.
Arguments index_match_metadata {score metadata_value} _.
Arguments match_id {score metadata_value} _.
Arguments match_score {score metadata_value} _.
Arguments match_metadata {score metadata_value} _.

End PineconeVectorStore.

(** ** src/knowledge/knowledge_base.py *)

Module KnowledgeBase.
Import Py Builtins Validators.

(** The values a metadata dictionary holds. *)
Inductive value :=
| VNone
| VStr (s : str)
| VInt (n : Z).

#[global] Instance value_eq_dec : EqDecision value.
Proof. solve_decision. Defined.

(** [str(n)] for an [int]. *)
Definition str_of_int (n : Z) : str :=
  List.map Ascii.N_of_ascii
    (String.list_ascii_of_string (NilEmpty.string_of_int (Z.to_int n))).

(** The text that is hashed, [f"{file_path}_{chunk_index}"]. *)
Definition chunk_id_content (file_path : str) (chunk_index : Z) : str :=
  file_path ++ lit "_" ++ str_of_int chunk_index.

Definition _generate_chunk_id (file_path : str) (chunk_index : Z) : result str :=
  let content := chunk_id_content file_path chunk_index in
  match Hashlib.encode content with
  | Some bytes => Ok (Hashlib.hexdigest (Hashlib.md5 bytes))
  | None => Raise UnicodeEncodeError
  end.

(** The dictionary [extract_metadata_from_filename] returns. *)
Definition dict_of_filename_metadata (m : filename_metadata) : gmap str value :=
  let v := fun o => match o with Some s => VStr s | None => VNone end in
  <[lit "document_type" := v (document_type m)]>
    (<[lit "sector" := v (sector m)]>
       (<[lit "date" := v (date m)]> ∅)).

(** [ingest_document], "Merge metadata": [d.update(e)] keeps the
    bindings of [e] where both have one. *)
Definition merge_metadata (file_path file_type : str) (file_size : Z)
    (processed_at : str) (doc_metadata : gmap str value) (file_name : str)
    (metadata_override : option (gmap str value)) : gmap str value :=
  let base_metadata : gmap str value :=
    <[lit "source" := VStr file_path]>
      (<[lit "file_type" := VStr file_type]>
         (<[lit "file_size" := VInt file_size]>
            (<[lit "processed_at" := VStr processed_at]> ∅))) in
  let base_metadata := doc_metadata ∪ base_metadata in
  let base_metadata :=
    dict_of_filename_metadata (extract_metadata_from_filename file_name)
    ∪ base_metadata in
  match metadata_override with
  | Some o => if bool_decide (o = ∅) then base_metadata else o ∪ base_metadata
  | None => base_metadata
  end.

(** The dictionary display of one chunk: the four entries written out,
    then [**base_metadata], whose bindings replace them. *)
Definition chunk_meta (file_path : str) (base_metadata : gmap str value)
    (total : nat) (i : nat) (chunk : str) : gmap str value :=
  let meta : gmap str value :=
    base_metadata ∪
    (<[lit "source" := VStr file_path]>
       (<[lit "chunk_index" := VInt (Z.of_nat i)]>
          (<[lit "total_chunks" := VInt (Z.of_nat total)]>
             (<[lit "content" := VStr (slice chunk 0 500)]> ∅)))) in
  (* {k: v for k, v in meta.items() if v is not None} *)
  filter (fun kv => kv.2 ≠ VNone) meta.

(** [ingest_document], "Prepare metadata for each chunk": the loop over
    [enumerate(chunks)], from index [i] on; it returns [chunk_ids] and
    [chunk_metadata]. *)
Fixpoint chunk_records_from (file_path : str) (base_metadata : gmap str value)
    (total : nat) (i : nat) (chunks : list str)
    (chunk_ids : list str) (chunk_metadata : list (gmap str value))
    : result (list str * list (gmap str value)) :=
  match chunks with
  | [] => Ok (chunk_ids, chunk_metadata)
  | chunk :: rest =>
      bind (_generate_chunk_id file_path (Z.of_nat i)) (fun chunk_id =>
      chunk_records_from file_path base_metadata total (S i) rest
        (chunk_ids ++ [chunk_id])
        (chunk_metadata ++ [chunk_meta file_path base_metadata total i chunk]))
  end.

Definition chunk_records (file_path : str) (base_metadata : gmap str value)
    (chunks : list str) : result (list str * list (gmap str value)) :=
  chunk_records_from file_path base_metadata (length chunks) 0 chunks [] [].

(** [s.lstrip('.')]. *)
Fixpoint lstrip_dots (s : str) : str :=
  match s with
  | c :: s' => if (c =? 46)%N then lstrip_dots s' else s
  | [] => []
  end.

Section Pipeline.
(** The collaborators: the embedding service and the vector index. *)
Variable float : Type.
Variable zero : float.
Variable Service : Type.
Variable request_embedding : Service -> str -> Service * result (list float).
Variables Index score : Type.
Variable index_upsert :
  Index -> list (PineconeVectorStore.item (list float) (gmap str value)) -> str
  -> Index * result Z.
Variable index_delete : Index -> PineconeVectorStore.deletion value
                        -> Index * result unit.
Variable index_query :
  Index -> list float -> Z -> option (gmap str value) -> str -> bool
  -> Index * result (list (PineconeVectorStore.index_match score value)).

(** The knowledge base: its vector store client and the state of the
    embedding service it talks to. *)
Record t := {
  vector_store : PineconeVectorStore.t (list float) (gmap str value) Index;
  service : Service;
}.

(** What [ingest_document] returns: [{"success": False, "error": ...}] or
    [{"success": True, "file": ..., "chunks": ..., "upserted": ...}]. *)
Inductive ingestion :=
| Failure (error : string)
| Success (file : str) (chunks : Z) (upserted : Z).

(** [ingest_document].  The attributes of the file ([file_path.name], the
    suffix without its dots, the size) and the time come from the file
    system and the clock, and [processed] is what
    [processor_factory.process_document] returned for the file; the
    chunker is [get_chunker(strategy="semantic")], the batch sizes are the
    defaults of [embed_batch] and [upsert_batch]. *)
Definition ingest_document (self : t) (file_path file_name file_type : str)
    (file_size : Z) (processed_at : str)
    (processed : option (str * gmap str value))
    (metadata_override : option (gmap str value)) (ns : str)
    : t * result ingestion :=
  match processed with
  | None => (self, Ok (Failure "Processing failed"))
  | Some (content, doc_metadata) =>
      let base_metadata :=
        merge_metadata file_path file_type file_size processed_at doc_metadata
          file_name metadata_override in
      let chunks := SemanticChunker.chunk SemanticChunker.default content in
      match chunks with
      | [] => (self, Ok (Failure "No chunks created"))
      | _ :: _ =>
          let '(sv, r) :=
            OllamaEmbeddings.embed_batch float zero Service request_embedding
              (service self) chunks 32 in
          let self := {| vector_store := vector_store self; service := sv |} in
          match r with
          | Raise e => (self, Raise e)
          | Ok embeddings =>
              match chunk_records file_path base_metadata chunks with
              | Raise e => (self, Raise e)
              | Ok (chunk_ids, chunk_metadata) =>
                  let '(vs, r) :=
                    PineconeVectorStore.upsert_batch (list float) (gmap str value)
                      Index index_upsert (vector_store self)
                      embeddings chunk_ids chunk_metadata 100 ns in
                  let self := {| vector_store := vs; service := service self |} in
                  match r with
                  | Raise e => (self, Raise e)
                  | Ok upserted_count =>
                      (self, Ok (Success file_path (len chunks) upserted_count))
                  end
              end
          end
      end
  end.

(** [delete_document], with the delete requests it sent. *)
Definition delete_document (self : t) (file_path : str) (ns : str)
    : t * list (PineconeVectorStore.deletion value) * result unit :=
  let filter : gmap str value := {[ lit "source" := VStr file_path ]} in
  let '(vs, ds, r) :=
    PineconeVectorStore.delete (list float) (gmap str value) Index value index_delete
      (vector_store self) None (Some filter) ns false in
  ({| vector_store := vs; service := service self |}, ds, r).

(** One result of [search]. *)
Record search_result := {
  result_id : str;
  result_score : score;
  result_content : value;
  result_metadata : gmap str value;
}.

(** [d.get(key, default)]. *)
Definition get (d : gmap str value) (key : str) (default_ : value) : value :=
  default default_ (d !! key).

Definition format_result
    (m : PineconeVectorStore.query_match score value)
    : search_result :=
  let md := PineconeVectorStore.match_metadata m in
  {| result_id := PineconeVectorStore.match_id m;
     result_score := PineconeVectorStore.match_score m;
     result_content := get md (lit "content") (VStr []);
     result_metadata :=
       <[lit "source" := get md (lit "source") (VStr [])]>
         (<[lit "file_type" := get md (lit "file_type") (VStr [])]>
            (<[lit "document_type" := get md (lit "document_type") (VStr [])]>
               (<[lit "sector" := get md (lit "sector") (VStr [])]>
                  (<[lit "chunk_index" := get md (lit "chunk_index") (VInt 0)]>
                     (<[lit "total_chunks" := get md (lit "total_chunks") (VInt 0)]>
                        ∅))))) |}.

Definition search (self : t) (query : str) (top_k : Z)
    (filter : option (gmap str value)) (ns : str)
    : t * result (list search_result) :=
  let '(sv, r) :=
    OllamaEmbeddings.embed_text float Service request_embedding (service self) query in
  let self := {| vector_store := vector_store self; service := sv |} in
  match r with
  | Raise e => (self, Raise e)
  | Ok query_embedding =>
      let '(vs, r) :=
        PineconeVectorStore.query (list float) (gmap str value) Index value
          score value index_query (vector_store self) query_embedding top_k filter
          ns true in
      ({| vector_store := vs; service := service self |},
       bind r (fun matches => Ok (List.map format_result matches)))
  end.

End Pipeline.

End KnowledgeBase.

(** ** src/ingestion/document_processor.py *)

Module DocumentProcessorFactory.
Import Py Validators.

(** The three processors of the factory, in the order of its list. *)
Inductive processor :=
| PDFProcessor
| DOCXProcessor
| TXTProcessor.

Definition supported_formats (p : processor) : list str :=
  match p with
  | PDFProcessor => [lit "pdf"]
  | DOCXProcessor => [lit "docx"]
  | TXTProcessor => [lit "txt"; lit "md"; lit "markdown"]
  end.

(** [can_process], on [file_path.suffix]. *)
Definition can_process (p : processor) (suffix : str) : bool :=
  member (KnowledgeBase.lstrip_dots (lower suffix)) (supported_formats p).

Definition processors : list processor := [PDFProcessor; DOCXProcessor; TXTProcessor].

(** [get_processor], on [file_path.suffix]. *)
Definition get_processor (suffix : str) : option processor :=
  List.find (fun p => can_process p suffix) processors.

End DocumentProcessorFactory.

(** ** scripts/ingest/batch_ingest.py *)

Module BatchIngest.
Import Py Builtins.

(** The counters of [results] and the list [failed_files]. *)
Record summary := {
  success : Z;
  failed : Z;
  total_chunks : Z;
  failed_files : list (str * string);
}.

Section Main.
(** The knowledge base with its surroundings, a document, and
    [kb.ingest_document(doc_path)]. *)
Variables World document : Type.
Variable ingest_document : World -> document -> World * result KnowledgeBase.ingestion.
Variable name : document -> str.
(** [str(e)] for an exception. *)
Variable str_of_exception : exn -> string.

(** One pass of [for doc_path in documents]. *)
Definition ingest_one (st : World * summary) (doc_path : document) : World * summary :=
  let '(w, results) := st in
  match ingest_document w doc_path with
  | (w', Ok (KnowledgeBase.Success _ chunks _)) =>
      (w', {| success := success results + 1;
              failed := failed results;
              total_chunks := total_chunks results + chunks;
              failed_files := failed_files results |})
  | (w', Ok (KnowledgeBase.Failure error)) =>
      (w', {| success := success results;
              failed := failed results + 1;
              total_chunks := total_chunks results;
              failed_files := failed_files results ++ [(name doc_path, error)] |})
  | (w', Raise e) =>
      (w', {| success := success results;
              failed := failed results + 1;
              total_chunks := total_chunks results;
              failed_files := failed_files results
                              ++ [(name doc_path, str_of_exception e)] |})
  end.

(** The loop of [main] over the documents. *)
Definition ingest_all (w : World) (documents : list document) : World * summary :=
  fold_left ingest_one documents
    (w, {| success := 0; failed := 0; total_chunks := 0; failed_files := [] |}).

End Main.

End BatchIngest.


(** * What the specification compares the code with *)

Module Spec.
Import Py Builtins.

Section Text.

(** The text without its whitespace. *)
Definition non_space (s : str) : str := List.filter (fun c => negb (is_space c)) s.

(** The chunks cover the text: every character of the text that is not
    whitespace occurs in their concatenation. *)
Definition covers (text : str) (chunks : list str) : Prop :=
  forall c, c ∈ text -> is_space c = false -> c ∈ concat chunks.

(** The characters a recursive split cannot lose: those that are neither
    whitespace nor part of a separator. *)
Definition kept (separators : list str) (c : char) : bool :=
  negb (is_space c) && negb (bool_decide (c ∈ concat separators)).

(** A text that does not begin with whitespace. *)
Definition starts_clean (s : str) : Prop :=
  match s with
  | [] => True
  | c :: _ => is_space c = false
  end.

(** A text with no whitespace at either end: what [strip] leaves. *)
Definition trimmed (s : str) : Prop := starts_clean s /\ starts_clean (rev s).

(** No space follows a space; [after_space] tells whether the character
    before the text is one. *)
Fixpoint single_spaced (after_space : bool) (s : str) : Prop :=
  match s with
  | [] => True
  | c :: s' =>
      if (c =? 32)%N then after_space = false /\ single_spaced true s'
      else single_spaced false s'
  end.

(** The text the loop of the semantic chunker holds: the chunks it has
    emitted and the sentences it is accumulating. *)
Definition gathered (a : SemanticChunker.acc) : str :=
  concat (SemanticChunker.chunks a) ++ concat (SemanticChunker.current_chunk a).

(** The same for the merging loop of the recursive chunker. *)
Definition merged (a : RecursiveChunker.acc) : str :=
  concat (RecursiveChunker.chunks a) ++ concat (RecursiveChunker.current_chunk a).

(** A control character: the code points of the Unicode category Cc. *)
Definition is_control (c : char) : bool :=
  ((c <? 32) || (127 <=? c) && (c <=? 159))%N.

(** The only control characters of the text are newlines and tabs. *)
Definition only_newline_tab_controls (s : str) : Prop :=
  Forall (fun c => is_control c = true -> c = 10%N \/ c = 9%N) s.

(** The text has no three newlines in a row. *)
Definition no_three_newlines (s : str) : Prop :=
  forall a b : str, s <> a ++ [10; 10; 10]%N ++ b.

(** The lines of a text: the pieces between its newlines. *)
Fixpoint lines (s : str) : list str :=
  match s with
  | [] => [[]]
  | c :: s' =>
      if (c =? 10)%N then [] :: lines s'
      else match lines s' with
           | l :: ls => (c :: l) :: ls
           | [] => [[c]]
           end
  end.

End Text.

Section Embeddings.
Variable float : Type.
Variable zero : float.
Variable Service : Type.
Variable request_embedding : Service -> str -> Service * result (list float).

(** The answers of the service to the texts, embedded one after the
    other from the state [sv]. *)
Fixpoint replies (sv : Service) (texts : list str) : list (result (list float)) :=
  match texts with
  | [] => []
  | text :: rest =>
      let '(sv', r) := OllamaEmbeddings.embed_text float Service request_embedding sv text in
      r :: replies sv' rest
  end.

(** The vector a position of the batch result holds for an answer: the
    embedding, or the zero vector of the configured dimension. *)
Definition vector_of (r : result (list float)) : list float :=
  match r with
  | Ok embedding => embedding
  | Raise _ => repeat zero 768
  end.

End Embeddings.

Section VectorStore.
Variables vector metadata Index : Type.

(** The sum of the counts the index acknowledged in a list of requests. *)
Definition acknowledged (rs : list (PineconeVectorStore.request vector metadata)) : Z :=
  foldr (fun r acc =>
           match PineconeVectorStore.response r with
           | Ok n => (n + acc)%Z
           | Raise _ => acc
           end) 0%Z rs.

(** [ceil(n / batch_size)] for positive [batch_size]. *)
Definition ceil_div (n batch_size : Z) : Z := ((n + batch_size - 1) / batch_size)%Z.

End VectorStore.

Section SendAll.
Variables vector metadata Index : Type.
Variable index_upsert :
  Index -> list (PineconeVectorStore.item vector metadata) -> str -> Index * result Z.

(** The batches sent to the index one after the other, stopping at the
    first one the index refuses: the state of the index, the requests
    sent, and the total of the counts or the exception. *)
Fixpoint send_all (ix : Index) (ns : str)
    (batches : list (list (PineconeVectorStore.item vector metadata)))
    (log : list (PineconeVectorStore.request vector metadata)) (total : Z)
    : Index * list (PineconeVectorStore.request vector metadata) * result Z :=
  match batches with
  | [] => (ix, log, Ok total)
  | b :: rest =>
      let '(ix', r) := index_upsert ix b ns in
      let log' := log ++ [PineconeVectorStore.Build_request vector metadata b ns r] in
      match r with
      | Ok n => send_all ix' ns rest log' (total + n)%Z
      | Raise e => (ix', log', Raise e)
      end
  end.

End SendAll.

Section Ingestion.
Import KnowledgeBase.


(** The ids of the chunks [i], [i + 1], ..., [i + n - 1] of a document,
    generated in that order. *)
Fixpoint ids_from (file_path : str) (i n : nat) : result (list str) :=
  match n with
  | O => Ok []
  | S n' =>
      bind (_generate_chunk_id file_path (Z.of_nat i)) (fun chunk_id =>
      bind (ids_from file_path (S i) n') (fun rest => Ok (chunk_id :: rest)))
  end.

(** The four words of an MD5 state are 32-bit numbers. *)
Definition word_ok (w : Hashlib.words) : Prop :=
  let '(a, b, c, d) := w in
  (0 <= a < 2 ^ 32 /\ 0 <= b < 2 ^ 32 /\ 0 <= c < 2 ^ 32 /\ 0 <= d < 2 ^ 32)%Z.

(** The final state of MD5 as one number below [2 ^ 128]. *)
Definition number_of_words (w : Hashlib.words) : Z :=
  let '(a, b, c, d) := w in (a + 2 ^ 32 * b + 2 ^ 64 * c + 2 ^ 96 * d)%Z.

(** A number that tells the outcome of the id generation for the chunk
    [i] of a document: the number of the MD5 state, or [2 ^ 128] when the
    text cannot be encoded. *)
Definition id_code (file_path : str) (i : nat) : nat :=
  match Hashlib.encode (chunk_id_content file_path (Z.of_nat i)) with
  | Some bytes => Z.to_nat (number_of_words (Hashlib.md5_words bytes))
  | None => Z.to_nat (2 ^ 128)
  end.

End Ingestion.

Section Dates.
Import Validators.

(** The texts a fixed-width pattern matches: [n] digits for [Digits n],
    the character itself for [Char c], one after the other. *)
Fixpoint shaped_as (ps : list piece) (d : str) : Prop :=
  match ps with
  | [] => d = []
  | Digits n :: ps' =>
      exists a b, d = a ++ b /\ length a = n
                  /\ Forall (fun c => is_digit c = true) a /\ shaped_as ps' b
  | Char c :: ps' => exists b, d = c :: b /\ shaped_as ps' b
  end.

(** Four digits. *)
Definition is_year (d : str) : Prop :=
  length d = 4 /\ Forall (fun c => is_digit c = true) d.

(** Four digits, a hyphen, two digits, a hyphen, two digits. *)
Definition is_iso_date (d : str) : Prop :=
  exists y m dd : str,
    d = y ++ [45%N] ++ m ++ [45%N] ++ dd
    /\ length y = 4 /\ length m = 2 /\ length dd = 2
    /\ Forall (fun c => is_digit c = true) (y ++ m ++ dd).

(** Some part of the text has the property. *)
Definition occurs (P : str -> Prop) (s : str) : Prop :=
  exists pre d post, s = pre ++ d ++ post /\ P d.

End Dates.

End Spec.

(** * Concrete collaborators and inputs for the examples *)

Module Demo.
Import Py Builtins.

(** An embedding service that counts the requests it got and fails on
    its third one. *)
Definition flaky (sv : nat) (text : str) : nat * result (list Z) :=
  (S sv,
   if (sv =? 2)%nat then Raise (Exception "connection refused")
   else Ok [Z.of_nat (length text); 1%Z]).

Definition five_texts : list str :=
  [lit "one"; lit "two"; lit "three"; lit "four"; lit "five"].

(** An index that counts the items it stores and acknowledges them all. *)
Definition counting_index (ix : nat) (items : list (PineconeVectorStore.item nat nat))
    (ns : str) : nat * result Z :=
  (ix + length items, Ok (len items)).

Definition connected : PineconeVectorStore.t nat nat nat :=
  PineconeVectorStore.Build_t nat nat nat (Some 0) [].

Definition some_ids (n : nat) : list str :=
  List.map (fun i => KnowledgeBase.str_of_int (Z.of_nat i)) (seq 0 n).

(** A recursive chunker with the default separators and chunks of at
    most three characters. *)
Definition recursive_3 : RecursiveChunker.t := RecursiveChunker.init 3 0 None.

(** A fixed-size chunker whose overlap equals its size. *)
Definition tight : FixedSizeChunker.t :=
  {| FixedSizeChunker.chunk_size := 2; FixedSizeChunker.chunk_overlap := 2 |}.

(** The semantic chunker of the scenario: [max = 1000], [min = 500]. *)
Definition semantic_1000_500 : SemanticChunker.t :=
  {| SemanticChunker.max_chunk_size := 1000; SemanticChunker.min_chunk_size := 500 |}.

(** Three sentences, forty characters. *)
Definition three_sentences : str := lit "Gold is mined. Prices rose! Who profits?".

Definition path : str := lit "data/raw/ECOWAS_Mining_Vision_2025.txt".

Definition two_chunks : list str := [lit "First sentence."; lit "Second sentence."].

(** The merged metadata of an ingestion without override, and of one
    whose caller overrides [total_chunks]. *)
Definition base_metadata (metadata_override : option (gmap str KnowledgeBase.value))
    : gmap str KnowledgeBase.value :=
  KnowledgeBase.merge_metadata path (lit "txt") 2048 (lit "2025-03-01T10:00:00")
    ∅ (lit "ECOWAS_Mining_Vision_2025.txt") metadata_override.

Definition override_total : gmap str KnowledgeBase.value :=
  {[ lit "total_chunks" := KnowledgeBase.VInt 99 ]}.

(** A fixed-size chunker that leaves a gap of one character between its
    windows of one character. *)
Definition skipping : FixedSizeChunker.t :=
  {| FixedSizeChunker.chunk_size := 1; FixedSizeChunker.chunk_overlap := -1 |}.

(** An embedding service that fails at its third call and returns a
    vector of 768 numbers at every other call. *)
Definition nomic (sv : nat) (text : str) : nat * result (list Z) :=
  (S sv,
   if (sv =? 2)%nat then Raise (Exception "connection refused")
   else Ok (repeat (Z.of_nat (length text)) 768)).

(** A client that never connected to an index. *)
Definition unconnected : PineconeVectorStore.t nat nat nat :=
  PineconeVectorStore.Build_t nat nat nat None [].


Definition record_delete (ix : nat)
    (d : PineconeVectorStore.deletion KnowledgeBase.value) : nat * result unit :=
  (0, Ok tt).

(** A knowledge base connected to that index, with the service [flaky]. *)
Definition knowledge_base : KnowledgeBase.t Z nat nat :=
  KnowledgeBase.Build_t Z nat nat
    (PineconeVectorStore.Build_t (list Z) (gmap str KnowledgeBase.value) nat (Some 0) [])
    0.

(** A match of a query on the first chunk of the document of [path]. *)
Definition first_match : PineconeVectorStore.query_match Z KnowledgeBase.value :=
  PineconeVectorStore.Build_query_match Z KnowledgeBase.value
    (lit "0cc175b9c0f1b6a831c399e269772661") 1%Z
    (KnowledgeBase.chunk_meta path (base_metadata None) 2 0 (lit "First sentence.")).

End Demo.

(** ** The records of a document *)

Module Records.
Import Py KnowledgeBase.

(** The keys that [ingest_document] binds itself, in the base metadata or
    in a chunk record, and that the filename rule does not bind. *)
Definition own_keys : list str :=
  [lit "source"; lit "file_type"; lit "chunk_index"; lit "total_chunks"; lit "content"].

(** Document metadata that binds none of them, as the metadata of the
    three processors ([title], [author], [subject], [creator],
    [created]). *)
Definition keeps_own_keys (doc_metadata : gmap str value) : Prop :=
  Forall (fun k => doc_metadata !! k = None) own_keys.

(** The value the merged metadata of a document binds [source] to: the
    caller's, else the processor's, else the path. *)
Definition declared_source (file_path : str) (doc_metadata : gmap str value)
    (metadata_override : option (gmap str value)) : value :=
  match metadata_override ≫= (fun o => o !! lit "source") with
  | Some v => v
  | None => default (VStr file_path) (doc_metadata !! lit "source")
  end.

(** [v or ''] for an optional string of the filename rule, as a record
    shows it once [None] values are dropped and [search] supplies its
    default. *)
Definition shown (o : option str) : value := VStr (default [] o).

End Records.


(** ** The pieces of a text between cuts *)

Module Pieces.
Import Py.

(** The text made of a first piece and of further pieces, each of them
    after the separator that was cut out before it. *)
Definition woven (first : str) (rest : list (str * str)) : str :=
  first ++ concat (List.map (fun p => p.1 ++ p.2) rest).

(** The text falls into the pieces when one occurrence of a separator is
    taken out between each piece and the next. *)
Definition cut_at (separators : list str) (text : str) (pieces : list str) : Prop :=
  exists first rest,
    text = woven first rest
    /\ Forall (fun p => p.1 ∈ separators) rest
    /\ pieces = first :: List.map snd rest.

(** A piece with a character that is not whitespace. *)
Definition has_content (piece : str) : bool := truthy (strip piece).

(** The pieces that have content, each without the whitespace at its
    ends. *)
Definition content (pieces : list str) : list str :=
  List.map strip (List.filter has_content pieces).

(** The chunks are the pieces of the text between cuts, up to blank
    pieces and to whitespace at the ends of a piece. *)
Definition falls_into (separators : list str) (text : str) (chunks : list str) : Prop :=
  exists pieces, cut_at separators text pieces /\ content chunks = content pieces.

End Pieces.

(** ** A run of the batch script *)

Module BatchRun.
Import Py.

Section Run.
Variables World document : Type.
Variable ingest_document : World -> document -> World * result KnowledgeBase.ingestion.
Variable name : document -> str.
Variable str_of_exception : exn -> string.

(** What [ingest_document] did with each document of the run, in order:
    it is called on the world the call before left. *)
Fixpoint outcomes (w : World) (documents : list document)
    : list (document * result KnowledgeBase.ingestion) :=
  match documents with
  | [] => []
  | doc_path :: rest =>
      let '(w', r) := ingest_document w doc_path in
      (doc_path, r) :: outcomes w' rest
  end.

(** The entry of [failed_files] for a document that failed: its name with
    the reported error, or with the text of the exception. *)
Definition failure (o : document * result KnowledgeBase.ingestion)
    : option (str * string) :=
  match o.2 with
  | Ok (KnowledgeBase.Success _ _ _) => None
  | Ok (KnowledgeBase.Failure error) => Some (name o.1, error)
  | Raise e => Some (name o.1, str_of_exception e)
  end.

(** The chunks a document added to [total_chunks]. *)
Definition chunks_of (o : document * result KnowledgeBase.ingestion) : Z :=
  match o.2 with
  | Ok (KnowledgeBase.Success _ chunks _) => chunks
  | _ => 0
  end.

End Run.

End BatchRun.


(** * Properties *)

Import Py Builtins.

(** ** Lists, slices and ranges *)

Section ListFacts.
Context {A : Type}.
Implicit Types l : list A.

Lemma slice_window l (i n : Z) :
  (0 <= i)%Z -> (0 < n)%Z ->
  slice l i (i + n) = take (Z.to_nat n) (drop (Z.to_nat i) l).
Proof.
  intros Hi Hn. unfold slice, clamp.
  assert (Hlen := length_drop l (Z.to_nat i)).
  destruct (Z.ltb_spec i 0); [lia|].
  destruct (Z.ltb_spec (i + n) 0); [lia|].
  destruct (Z.le_gt_cases i (Z.of_nat (length l))) as [Hin|Hout].
  - rewrite (Z.min_l i) by lia.
    destruct (Z.le_gt_cases (i + n) (Z.of_nat (length l))).
    + rewrite Z.min_l by lia. f_equal. lia.
    + rewrite Z.min_r by lia.
      rewrite !take_ge; [done| |]; lia.
  - rewrite !(drop_ge l); [by rewrite !take_nil| |]; lia.
Qed.

Lemma range_up_windows l (n : Z) fuel (i : Z) :
  (0 <= i)%Z -> (0 < n)%Z ->
  List.map (fun j => slice l j (j + n)) (range_up fuel i (len l) n)
  = groups fuel (Z.to_nat n) (drop (Z.to_nat i) l).
Proof.
  intros Hi Hn. revert i Hi. induction fuel as [|fuel IH]; intros i Hi; [done|].
  simpl. unfold len. destruct (Z.ltb_spec i (Z.of_nat (length l))) as [Hlt|Hge].
  - destruct (drop (Z.to_nat i) l) as [|x d] eqn:Hd.
    { apply (f_equal length) in Hd. rewrite length_drop in Hd. simpl in Hd. lia. }
    rewrite <- Hd. simpl. rewrite slice_window by lia. f_equal.
    fold (len l). rewrite IH by lia. f_equal.
    rewrite drop_drop. f_equal. lia.
  - rewrite drop_ge by lia. done.
Qed.

Lemma groups_concat fuel n l :
  0 < n -> length l <= fuel -> concat (groups fuel n l) = l.
Proof.
  intros Hn. revert l. induction fuel as [|fuel IH]; intros l Hl.
  - destruct l; [done|simpl in Hl; lia].
  - destruct l as [|x l]; [done|].
    change (groups (S fuel) n (x :: l))
      with (take n (x :: l) :: groups fuel n (drop n (x :: l))).
    rewrite concat_cons, IH, take_drop; [done|].
    rewrite length_drop. simpl in *. lia.
Qed.

Lemma groups_bounded fuel n l :
  Forall (fun g => length g <= n) (groups fuel n l).
Proof.
  revert l. induction fuel as [|fuel IH]; intros l; [constructor|].
  destruct l as [|x l]; [constructor|].
  change (groups (S fuel) n (x :: l))
    with (take n (x :: l) :: groups fuel n (drop n (x :: l))).
  constructor; [|apply IH]. rewrite length_take. lia.
Qed.

Lemma groups_nonempty fuel n l :
  0 < n -> Forall (fun g => 0 < length g) (groups fuel n l).
Proof.
  intros Hn. revert l. induction fuel as [|fuel IH]; intros l; [constructor|].
  destruct l as [|x l]; [constructor|].
  change (groups (S fuel) n (x :: l))
    with (take n (x :: l) :: groups fuel n (drop n (x :: l))).
  constructor; [|apply IH]. rewrite length_take. simpl. lia.
Qed.

Lemma groups_length fuel n l :
  0 < n -> length l <= fuel ->
  length (groups fuel n l) = (length l + n - 1) / n.
Proof.
  intros Hn. revert l. induction fuel as [|fuel IH]; intros l Hl.
  - destruct l; simpl in *; [|lia].
    symmetry. apply Nat.div_small. lia.
  - destruct l as [|x l].
    { simpl. symmetry. apply Nat.div_small. lia. }
    change (groups (S fuel) n (x :: l))
      with (take n (x :: l) :: groups fuel n (drop n (x :: l))).
    simpl length at 1. rewrite IH by (rewrite length_drop; simpl in *; lia).
    rewrite length_drop.
    set (m := length (x :: l)). assert (0 < m) by (subst m; simpl; lia).
    destruct (Nat.le_gt_cases n m) as [Hle|Hgt].
    + replace (m + n - 1) with ((m - n + n - 1) + 1 * n) by lia.
      rewrite Nat.div_add by lia. lia.
    + replace (m - n + n - 1) with (n - 1) by lia.
      rewrite (Nat.div_small (n - 1)) by lia.
      apply (Nat.div_unique _ _ _ (m - 1)); lia.
Qed.

End ListFacts.

(** ** Whitespace and [strip] *)

Section Strip.
Import Spec.

Lemma lstrip_split s :
  exists ws, s = ws ++ lstrip s /\ Forall (fun c => is_space c = true) ws.
Proof.
  induction s as [|c s IH].
  - by exists [].
  - simpl. destruct (is_space c) eqn:Hc.
    + destruct IH as (ws & Hs & Hws). exists (c :: ws). split.
      * simpl. by f_equal.
      * by constructor.
    + by exists [].
Qed.

Lemma lstrip_clean s : starts_clean (lstrip s).
Proof.
  induction s as [|c s IH]; simpl; [done|].
  destruct (is_space c) eqn:Hc; [done|]. simpl. done.
Qed.

Lemma lstrip_id s : starts_clean s -> lstrip s = s.
Proof. destruct s as [|c s]; simpl; [done|]. by intros ->. Qed.

Lemma lstrip_all_space ws s :
  Forall (fun c => is_space c = true) ws -> lstrip (ws ++ s) = lstrip s.
Proof. induction 1 as [|c ws Hc _ IH]; simpl; [done|]. by rewrite Hc. Qed.

Lemma rstrip_split s :
  exists ws, s = rstrip s ++ ws /\ Forall (fun c => is_space c = true) ws.
Proof.
  unfold rstrip. destruct (lstrip_split (rev s)) as (ws & Hs & Hws).
  exists (rev ws). split.
  - rewrite <- rev_app_distr, <- Hs. by rewrite rev_involutive.
  - by apply Forall_rev.
Qed.

Lemma rstrip_snoc s c :
  rstrip (s ++ [c]) = if is_space c then rstrip s else s ++ [c].
Proof.
  unfold rstrip. rewrite rev_app_distr. simpl.
  destruct (is_space c); [done|]. simpl. by rewrite rev_involutive.
Qed.

Lemma rstrip_nil : rstrip [] = [].
Proof. done. Qed.

Lemma rstrip_clean_end s : starts_clean (rev (rstrip s)).
Proof. unfold rstrip. rewrite rev_involutive. apply lstrip_clean. Qed.

Lemma rstrip_id s : starts_clean (rev s) -> rstrip s = s.
Proof. intros H. unfold rstrip. rewrite lstrip_id by done. apply rev_involutive. Qed.

Lemma rstrip_clean_start s : starts_clean s -> starts_clean (rstrip s).
Proof.
  induction s as [|c s IH] using rev_ind; [done|].
  rewrite rstrip_snoc. destruct (is_space c) eqn:Hc; [|done].
  intros H. apply IH. destruct s; [done|]. exact H.
Qed.

Lemma strip_split s :
  exists ws1 ws2,
    s = ws1 ++ strip s ++ ws2
    /\ Forall (fun c => is_space c = true) ws1
    /\ Forall (fun c => is_space c = true) ws2.
Proof.
  destruct (lstrip_split s) as (ws1 & H1 & Hws1).
  destruct (rstrip_split (lstrip s)) as (ws2 & H2 & Hws2).
  exists ws1, ws2. unfold strip. by rewrite <- H2, <- H1.
Qed.

Lemma strip_trimmed s : trimmed (strip s).
Proof.
  split.
  - apply rstrip_clean_start, lstrip_clean.
  - apply rstrip_clean_end.
Qed.

Lemma trimmed_strip s : trimmed s -> strip s = s.
Proof. intros [H1 H2]. unfold strip. rewrite lstrip_id by done. by apply rstrip_id. Qed.

Lemma trimmed_nil : trimmed [].
Proof. done. Qed.

Lemma non_space_app a b : non_space (a ++ b) = non_space a ++ non_space b.
Proof. apply List.filter_app. Qed.

Lemma non_space_all_space ws :
  Forall (fun c => is_space c = true) ws -> non_space ws = [].
Proof. induction 1 as [|c ws Hc _ IH]; simpl; [done|]. by rewrite Hc. Qed.

Lemma non_space_nil_all_space s :
  non_space s = [] -> Forall (fun c => is_space c = true) s.
Proof.
  induction s as [|c s IH]; simpl; [constructor|].
  destruct (is_space c) eqn:Hc; simpl; [|done]. intros H. constructor; auto.
Qed.

Lemma non_space_strip s : non_space (strip s) = non_space s.
Proof.
  destruct (strip_split s) as (ws1 & ws2 & Hs & H1 & H2).
  rewrite Hs at 2. rewrite !non_space_app.
  rewrite (non_space_all_space ws1 H1), (non_space_all_space ws2 H2).
  by rewrite app_nil_r.
Qed.

Lemma strip_nil_all_space s :
  strip s = [] -> Forall (fun c => is_space c = true) s.
Proof.
  intros H. apply non_space_nil_all_space. by rewrite <- non_space_strip, H.
Qed.

Lemma strip_all_space s :
  Forall (fun c => is_space c = true) s -> strip s = [].
Proof.
  intros H. unfold strip.
  replace (lstrip s) with (@nil char); [done|].
  rewrite <- (app_nil_r s), lstrip_all_space by done. done.
Qed.

Lemma strip_length s : length (strip s) <= length s.
Proof.
  destruct (strip_split s) as (ws1 & ws2 & Hs & _). rewrite Hs at 2.
  rewrite !length_app. lia.
Qed.

Lemma Forall_strip (P : char -> Prop) s : Forall P s -> Forall P (strip s).
Proof.
  destruct (strip_split s) as (ws1 & ws2 & Hs & _). rewrite Hs at 1.
  rewrite !Forall_app. tauto.
Qed.

Lemma truthy_true (s : str) : truthy s = true <-> s <> [].
Proof. by destruct s. Qed.

Lemma truthy_false (s : str) : truthy s = false <-> s = [].
Proof. by destruct s. Qed.

End Strip.

(** ** Fixed-size chunking *)

Section FixedSize.
Import FixedSizeChunker.
Local Arguments iteration : simpl never.

(** A pass that starts with no chunk either appends none or raises. *)
Lemma iteration_keeps_empty self text start st' :
  iteration self text (start, []) = Ok st' -> st'.2 = [].
Proof.
  unfold iteration.
  set (end_ := if (_ <? _)%Z then _ else _).
  destruct (truthy (strip (slice text start end_))) eqn:Ht; simpl.
  - unfold progress_condition. simpl. discriminate.
  - intros [= <-]. done.
Qed.

Lemma loop_keeps_empty fuel self text start cs :
  loop fuel self text (start, []) = Some (Ok cs) -> cs = [].
Proof.
  revert start. induction fuel as [|fuel IH]; intros start; simpl.
  - destruct (start <? _)%Z; [done|]. by intros [= <-].
  - destruct (start <? _)%Z; [|by intros [= <-]].
    destruct (iteration self text (start, [])) as [[start' chunks']|e] eqn:Hit; [|done].
    apply iteration_keeps_empty in Hit. simpl in Hit. subst chunks'. apply IH.
Qed.

(** Whatever the configuration and the text, [chunk] never returns a
    chunk: the pass that appends the first one raises [TypeError] in the
    progress check. *)
Lemma chunk_never_returns_a_chunk fuel self text cs :
  chunk fuel self text = Some (Ok cs) -> cs = [].
Proof.
  unfold chunk. destruct (negb (truthy (strip text))); [by intros [= <-]|].
  apply loop_keeps_empty.
Qed.

(** With the default configuration an ordinary sentence raises. *)
Example chunk_default_raises fuel :
  chunk (S fuel) default (lit "Regional mining policy. It covers gold.")
  = Some (Raise TypeError).
Proof. vm_compute. reflexivity. Qed.

Lemma loop_fixed_point fuel self text st :
  (st.1 <? Z.of_nat (length text))%Z = true ->
  iteration self text st = Ok st ->
  loop fuel self text st = None.
Proof.
  intros Hlt Hit. induction fuel as [|fuel IH]; simpl; rewrite Hlt; [done|].
  by rewrite Hit.
Qed.

(** C1 at a failing input.  With [chunk_size = 2], [chunk_overlap = 2] and
    the text ["  a"], the first pass of the loop leaves [start] at 0 and
    appends nothing, so every pass repeats it: no amount of fuel lets
    [chunk] return. *)
Theorem fixed_chunk_no_progress :
  iteration Demo.tight (lit "  a") (0%Z, []) = Ok (0%Z, [])
  /\ forall fuel, chunk fuel Demo.tight (lit "  a") = None.
Proof.
  split; [vm_compute; reflexivity|].
  intros fuel. unfold chunk.
  replace (negb (truthy (strip (lit "  a")))) with false by (vm_compute; reflexivity).
  apply loop_fixed_point; vm_compute; reflexivity.
Qed.

End FixedSize.

(** ** Semantic chunking *)

Section Semantic.
Import Spec SemanticChunker.

Lemma run_length_take cls s :
  Forall (fun c => cls c = true) (take (run_length cls s) s).
Proof.
  induction s as [|c s IH]; simpl; [constructor|].
  destruct (cls c) eqn:Hc; simpl; [|constructor]. by constructor.
Qed.

Lemma boundary_Some prev s r :
  boundary prev s = Some r -> r = run_length is_space s /\ 0 < r.
Proof.
  unfold boundary. destruct prev as [p|]; [|done].
  destruct (is_terminal p); [|done].
  destruct (drop (run_length is_space s) s) as [|c d]; [done|].
  destruct (Nat.ltb_spec 0 (run_length is_space s)); simpl; [|done].
  destruct (is_upper_AZ c); [|done]. by intros [= <-].
Qed.

Lemma boundary_skips prev c s r :
  boundary prev (c :: s) = Some r ->
  is_space c = true /\ Forall (fun c => is_space c = true) (take (r - 1) s).
Proof.
  intros H. apply boundary_Some in H as [-> Hr].
  pose proof (run_length_take is_space (c :: s)) as Ht.
  simpl in *. destruct (is_space c) eqn:Hc; [|lia].
  simpl in Ht. apply Forall_cons in Ht as [_ Ht]. split; [done|].
  replace (S (run_length is_space s) - 1) with (run_length is_space s) by lia. done.
Qed.

Lemma re_split_go_non_space skip prev cur s :
  Forall (fun c => is_space c = true) (take skip s) ->
  non_space (concat (re_split_go skip prev cur s)) = non_space (rev cur ++ s).
Proof.
  revert skip prev cur. induction s as [|c s IH]; intros skip prev cur Hskip.
  - simpl. by rewrite !app_nil_r.
  - destruct skip as [|n].
    + cbn [re_split_go]. destruct (boundary prev (c :: s)) as [r|] eqn:Hb.
      * apply boundary_skips in Hb as [Hc Hr].
        rewrite concat_cons, !non_space_app, (IH _ _ _ Hr). simpl. by rewrite Hc.
      * rewrite IH by (rewrite take_0; constructor).
        simpl. by rewrite <- app_assoc.
    + cbn [re_split_go]. simpl in Hskip. apply Forall_cons in Hskip as [Hc Hs].
      rewrite (IH _ _ _ Hs), !non_space_app. simpl. by rewrite Hc.
Qed.

Lemma re_split_go_length skip prev cur s :
  length (concat (re_split_go skip prev cur s)) <= length cur + length s.
Proof.
  revert skip prev cur. induction s as [|c s IH]; intros skip prev cur.
  - simpl. rewrite app_nil_r, length_rev. lia.
  - destruct skip as [|n]; cbn [re_split_go].
    + destruct (boundary prev (c :: s)) as [r|].
      * rewrite concat_cons, length_app, length_rev.
        specialize (IH (r - 1) (Some c) []). simpl in *. lia.
      * specialize (IH 0 (Some c) (c :: cur)). simpl in *. lia.
    + specialize (IH n (Some c) cur). simpl in *. lia.
Qed.

Lemma sentences_non_space (pieces : list str) :
  non_space (concat (List.map strip (List.filter (fun s => truthy (strip s)) pieces)))
  = non_space (concat pieces).
Proof.
  induction pieces as [|p pieces IH]; [done|].
  simpl. destruct (truthy (strip p)) eqn:Hp; simpl.
  - by rewrite !non_space_app, non_space_strip, IH.
  - apply truthy_false in Hp. rewrite non_space_app, <- IH.
    by rewrite <- (non_space_strip p), Hp.
Qed.

Lemma sentences_length (pieces : list str) :
  length (concat (List.map strip (List.filter (fun s => truthy (strip s)) pieces)))
  <= length (concat pieces).
Proof.
  induction pieces as [|p pieces IH]; [done|].
  simpl. destruct (truthy (strip p)); simpl; rewrite !length_app.
  - pose proof (strip_length p). lia.
  - lia.
Qed.

Lemma sentences_trimmed (pieces : list str) :
  Forall (fun s => trimmed s /\ s <> [])
    (List.map strip (List.filter (fun s => truthy (strip s)) pieces)).
Proof.
  induction pieces as [|p pieces IH]; [constructor|].
  simpl. destruct (truthy (strip p)) eqn:Hp; [|done].
  constructor; [|done]. split; [apply strip_trimmed|by apply truthy_true].
Qed.

Lemma split_sentences_non_space text :
  non_space (concat (_split_sentences text)) = non_space text.
Proof.
  unfold _split_sentences, re_split.
  by rewrite sentences_non_space, re_split_go_non_space by (rewrite take_0; constructor).
Qed.

Lemma split_sentences_length text :
  length (concat (_split_sentences text)) <= length text.
Proof.
  unfold _split_sentences, re_split.
  pose proof (sentences_length (re_split_go 0 None [] text)).
  pose proof (re_split_go_length 0 None [] text). simpl in *. lia.
Qed.

Lemma non_space_join_space xs : non_space (join space xs) = non_space (concat xs).
Proof.
  induction xs as [|x [|y xs] IH]; [done| |].
  - simpl. by rewrite app_nil_r.
  - change (join space (x :: y :: xs)) with (x ++ space ++ join space (y :: xs)).
    rewrite concat_cons, !non_space_app, IH. done.
Qed.

Lemma step_non_space self a sentence :
  non_space (gathered (step self a sentence))
  = non_space (gathered a) ++ non_space sentence.
Proof.
  unfold step, gathered.
  destruct ((max_chunk_size self <? current_size a + Z.of_nat (length sentence))%Z
            && negb (bool_decide (current_chunk a = []))); simpl.
  - destruct (min_chunk_size self <=? _)%Z; simpl.
    + rewrite !concat_app, !non_space_app. simpl.
      rewrite !app_nil_r, non_space_strip, non_space_join_space.
      by rewrite <- app_assoc.
    + rewrite !concat_app, !non_space_app. simpl.
      by rewrite !app_nil_r, <- app_assoc.
  - rewrite !concat_app, !non_space_app. simpl.
    by rewrite !app_nil_r, <- app_assoc.
Qed.

Lemma fold_step_non_space self sentences a :
  non_space (gathered (fold_left (step self) sentences a))
  = non_space (gathered a) ++ non_space (concat sentences).
Proof.
  revert a. induction sentences as [|s sentences IH]; intros a; simpl.
  - by rewrite app_nil_r.
  - by rewrite IH, step_non_space, non_space_app, <- app_assoc.
Qed.

(** The semantic chunker keeps every character that is not whitespace,
    in order and once. *)
Lemma semantic_chunk_non_space self text :
  non_space (concat (chunk self text)) = non_space text.
Proof.
  unfold chunk. destruct (truthy (strip text)) eqn:Ht; simpl.
  - set (a := fold_left _ _ _).
    assert (Ha : non_space (gathered a) = non_space text).
    { unfold a. by rewrite fold_step_non_space, split_sentences_non_space. }
    rewrite <- Ha. unfold gathered.
    destruct (current_chunk a) as [|c cs] eqn:Hc.
    { simpl. by rewrite app_nil_r. }
    assert (Hcs : non_space (concat (c :: cs))
                  = non_space (strip (join space (c :: cs))))
      by (by rewrite non_space_strip, non_space_join_space).
    rewrite (non_space_app (concat (chunks a))), Hcs.
    destruct (truthy (strip (join space (c :: cs)))) eqn:Hj.
    + rewrite concat_app, non_space_app. simpl. by rewrite app_nil_r.
    + apply truthy_false in Hj. rewrite Hj. simpl. by rewrite app_nil_r.
  - apply truthy_false in Ht. by rewrite <- (non_space_strip text), Ht.
Qed.

Lemma trimmed_joined (a m b : str) :
  trimmed a -> a <> [] -> trimmed b -> b <> [] -> trimmed (a ++ m ++ b).
Proof.
  intros [Ha _] Hna [_ Hb] Hnb. split.
  - destruct a; [done|]. exact Ha.
  - rewrite !rev_app_distr. destruct (rev b) eqn:Hr; [|exact Hb].
    apply (f_equal (@rev char)) in Hr. rewrite rev_involutive in Hr. done.
Qed.

(** C8.  With [max = 1000] and [min = 500], a text of 40 characters that
    splits into three sentences yields exactly one chunk, the three
    sentences joined by single spaces in their order: the accumulation
    left at the end of the loop is emitted although it is shorter than
    [min]. *)
Theorem semantic_three_sentences_one_chunk text s1 s2 s3 :
  length text = 40 ->
  _split_sentences text = [s1; s2; s3] ->
  chunk Demo.semantic_1000_500 text = [s1 ++ space ++ s2 ++ space ++ s3]
  /\ (Z.of_nat (length (s1 ++ space ++ s2 ++ space ++ s3))
      < min_chunk_size Demo.semantic_1000_500)%Z.
Proof.
  intros Hlen Hs.
  pose proof (split_sentences_length text) as Hsum.
  pose proof (split_sentences_non_space text) as Hns.
  pose proof (sentences_trimmed (re_split text)) as Htr.
  fold (_split_sentences text) in Htr. rewrite Hs in Hsum, Hns, Htr.
  simpl in Hsum. rewrite !length_app in Hsum. simpl in Hsum.
  apply Forall_cons in Htr as [[Ht1 Hn1] Htr].
  apply Forall_cons in Htr as [_ Htr].
  apply Forall_cons in Htr as [[Ht3 Hn3] _].
  split; [|rewrite !length_app; simpl; lia].
  unfold chunk.
  destruct (truthy (strip text)) eqn:Ht; cbn [negb].
  - rewrite Hs. cbn [fold_left]. unfold step. simpl.
    destruct (Z.ltb_spec 1000 (0 + Z.of_nat (length s1))); [lia|]. simpl.
    destruct (Z.ltb_spec 1000 (0 + Z.of_nat (length s1) + Z.of_nat (length s2)));
      [lia|]. simpl.
    destruct (Z.ltb_spec 1000 (0 + Z.of_nat (length s1) + Z.of_nat (length s2)
                               + Z.of_nat (length s3))); [lia|]. simpl.
    assert (Hj : trimmed (s1 ++ space ++ s2 ++ space ++ s3)).
    { replace (s1 ++ space ++ s2 ++ space ++ s3)
        with (s1 ++ (space ++ s2 ++ space) ++ s3) by (by rewrite <- !app_assoc).
      by apply trimmed_joined. }
    pose proof (trimmed_strip _ Hj) as Hst. unfold space in Hst. simpl in Hst.
    rewrite Hst.
    destruct s1; [done|]. done.
  - apply truthy_false, strip_nil_all_space, non_space_all_space in Ht.
    rewrite Ht in Hns. simpl in Hns. rewrite !non_space_app in Hns.
    destruct Ht1 as [Hc _]. destruct s1 as [|c s1]; [done|].
    simpl in Hc, Hns. rewrite Hc in Hns. done.
Qed.

End Semantic.

(** ** Recursive chunking *)

Section Recursive.
Import Spec RecursiveChunker.

(** A class of characters that holds no whitespace. *)
Variable K : char -> bool.
Hypothesis K_space : forall c, is_space c = true -> K c = false.

Local Abbreviation only_K := (List.filter K).

Lemma only_K_app a b : only_K (a ++ b) = only_K a ++ only_K b.
Proof. apply List.filter_app. Qed.

Lemma only_K_none s : Forall (fun c => K c = false) s -> only_K s = [].
Proof. induction 1 as [|c s Hc _ IH]; simpl; [done|]. by rewrite Hc. Qed.

Lemma only_K_all_space ws :
  Forall (fun c => is_space c = true) ws -> only_K ws = [].
Proof.
  intros H. apply only_K_none. eapply Forall_impl; [exact H|].
  intros c Hc. by apply K_space.
Qed.

Lemma only_K_strip s : only_K (strip s) = only_K s.
Proof.
  destruct (strip_split s) as (ws1 & ws2 & Hs & H1 & H2).
  rewrite Hs at 2. rewrite !only_K_app.
  rewrite (only_K_all_space ws1 H1), (only_K_all_space ws2 H2).
  by rewrite app_nil_r.
Qed.

Lemma only_K_stripped_chunks (chunks : list str) :
  only_K (concat (List.map strip (List.filter (fun c => truthy (strip c)) chunks)))
  = only_K (concat chunks).
Proof.
  induction chunks as [|p chunks IH]; [done|].
  simpl. destruct (truthy (strip p)) eqn:Hp; simpl.
  - by rewrite !only_K_app, only_K_strip, IH.
  - apply truthy_false in Hp. rewrite only_K_app, <- IH.
    by rewrite <- (only_K_strip p), Hp.
Qed.

Lemma startswith_take p s : startswith p s = true -> take (length p) s = p.
Proof.
  revert s. induction p as [|a p IH]; intros s; [done|].
  destruct s as [|c s]; simpl; [done|].
  intros [Hac Hp]%andb_prop. apply N.eqb_eq in Hac as ->. by rewrite IH.
Qed.

Lemma split_go_only_K sep skip cur s :
  sep <> [] ->
  Forall (fun c => K c = false) sep ->
  Forall (fun c => K c = false) (take skip s) ->
  only_K (concat (split_go sep skip cur s)) = only_K (rev cur ++ s).
Proof.
  intros Hne Hsep. revert skip cur. induction s as [|c s IH]; intros skip cur Hskip.
  - simpl. by rewrite !app_nil_r.
  - destruct skip as [|n]; cbn [split_go].
    + destruct (startswith sep (c :: s)) eqn:Hst.
      * apply startswith_take in Hst. destruct sep as [|a sep]; [done|].
        simpl in Hst. injection Hst as -> Hst.
        apply Forall_cons in Hsep as Hsep'. destruct Hsep' as [Hc Hsep'].
        rewrite concat_cons, !only_K_app. rewrite IH.
        -- simpl. by rewrite Hc.
        -- simpl. rewrite Nat.sub_0_r, Hst. done.
      * rewrite IH by (rewrite take_0; constructor).
        simpl. by rewrite <- app_assoc.
    + simpl in Hskip. apply Forall_cons in Hskip as [Hc Hs].
      rewrite (IH _ _ Hs), !only_K_app. simpl. by rewrite Hc.
Qed.

Lemma split_only_K sep s :
  sep <> [] -> Forall (fun c => K c = false) sep ->
  only_K (concat (split sep s)) = only_K s.
Proof.
  intros Hne Hsep. unfold split.
  by rewrite split_go_only_K by (try done; rewrite take_0; constructor).
Qed.

Lemma characters_concat (s : str) : concat (List.map (fun c => [c]) s) = s.
Proof. induction s as [|c s IH]; simpl; [done|]. by rewrite IH. Qed.

Lemma join_only_K sep xs :
  Forall (fun c => K c = false) sep -> only_K (join sep xs) = only_K (concat xs).
Proof.
  intros Hsep. induction xs as [|x [|y xs] IH]; [done| |].
  - simpl. by rewrite app_nil_r.
  - change (join sep (x :: y :: xs)) with (x ++ sep ++ join sep (y :: xs)).
    rewrite concat_cons, !only_K_app, IH, (only_K_none sep Hsep). done.
Qed.

Section Merge.
Variables (self : t) (separator : str) (more : bool) (recurse : str -> list str).
Hypothesis separator_K : Forall (fun c => K c = false) separator.
Hypothesis recurse_K : forall text, only_K (concat (recurse text)) = only_K text.

Lemma save_only_K current :
  only_K (concat (save self separator more recurse current))
  = only_K (concat current).
Proof.
  unfold save. destruct current as [|x current]; [done|].
  destruct ((chunk_size self <? _)%Z && more).
  - by rewrite recurse_K, join_only_K.
  - rewrite <- (join_only_K separator (x :: current) separator_K).
    rewrite concat_cons. simpl concat. by rewrite app_nil_r.
Qed.

Lemma step_only_K a piece :
  only_K (merged (step self separator more recurse a piece))
  = only_K (merged a) ++ only_K piece.
Proof.
  unfold step, merged.
  destruct (current_size a + Z.of_nat (length piece) <=? chunk_size self)%Z; simpl.
  - rewrite concat_app, !only_K_app. simpl. by rewrite app_nil_r, <- app_assoc.
  - rewrite concat_app, !only_K_app, save_only_K. simpl.
    by rewrite app_nil_r.
Qed.

Lemma fold_step_only_K pieces a :
  only_K (merged (fold_left (step self separator more recurse) pieces a))
  = only_K (merged a) ++ only_K (concat pieces).
Proof.
  revert a. induction pieces as [|x pieces IH]; intros a; simpl.
  - by rewrite app_nil_r.
  - by rewrite IH, step_only_K, only_K_app, <- app_assoc.
Qed.

End Merge.

Lemma recursive_split_only_K self separators text :
  Forall (Forall (fun c => K c = false)) separators ->
  only_K (concat (_recursive_split self separators text)) = only_K text.
Proof.
  intros Hseps. revert text.
  induction Hseps as [|separator remaining Hsep _ IH]; intros text.
  - simpl. destruct (truthy (strip text)) eqn:Ht.
    + simpl. by rewrite app_nil_r.
    + apply truthy_false, strip_nil_all_space in Ht. simpl.
      by rewrite only_K_all_space.
  - cbn [_recursive_split]. rewrite only_K_stripped_chunks.
    set (pieces := if truthy separator then _ else _).
    set (more := negb _).
    set (a := fold_left _ _ _).
    rewrite concat_app, only_K_app, save_only_K by done.
    rewrite <- only_K_app.
    change (only_K (merged a) = only_K text).
    unfold a. rewrite fold_step_only_K by done. simpl.
    unfold pieces. destruct (truthy separator) eqn:Hts.
    + apply truthy_true in Hts. by apply split_only_K.
    + by rewrite characters_concat.
Qed.

Lemma recursive_chunk_only_K self text :
  Forall (Forall (fun c => K c = false)) (separators self) ->
  only_K (concat (chunk self text)) = only_K text.
Proof.
  intros Hseps. unfold chunk. destruct (truthy (strip text)) eqn:Ht; simpl.
  - by apply recursive_split_only_K.
  - apply truthy_false, strip_nil_all_space in Ht. by rewrite only_K_all_space.
Qed.

End Recursive.

Lemma kept_not_space separators c : is_space c = true -> Spec.kept separators c = false.
Proof. intros H. unfold Spec.kept. by rewrite H. Qed.

Lemma kept_not_separator separators :
  Forall (Forall (fun c => Spec.kept separators c = false)) separators.
Proof.
  apply Forall_forall. intros sep Hsep. apply Forall_forall. intros c Hc.
  unfold Spec.kept. rewrite (bool_decide_eq_true_2 (c ∈ concat separators)).
  - by rewrite andb_false_r.
  - apply list_elem_of_In, in_concat. exists sep. by rewrite <- !list_elem_of_In.
Qed.

(** ** Sanitized text *)

Section Sanitize.
Import Spec Validators.

Lemma Forall_sub_runs (P : char -> Prop) cls k repl skip s :
  Forall P repl -> Forall P s -> Forall P (sub_runs cls k repl skip s).
Proof.
  intros Hrepl Hs. revert skip. induction Hs as [|c s Hc Hs IH]; intros skip.
  - constructor.
  - destruct skip as [|n]; cbn [sub_runs]; [|apply IH].
    destruct ((0 <? _)%nat && _).
    + apply Forall_app. split; [done|apply IH].
    + constructor; [done|apply IH].
Qed.

(** After [[ \t]+] is replaced by one space, a character is a space or
    is not in the class. *)
Lemma collapse_no_tab skip s :
  Forall (fun c => c <> 9%N) (sub_runs is_space_or_tab 1 (lit " ") skip s).
Proof.
  revert skip. induction s as [|c s IH]; intros skip; [constructor|].
  destruct skip as [|n]; cbn [sub_runs]; [|apply IH].
  simpl run_length. destruct (is_space_or_tab c) eqn:Hc; simpl.
  - constructor; [done|apply IH].
  - constructor; [|apply IH]. intros ->. done.
Qed.

Lemma collapse_single_spaced s :
  single_spaced true (sub_runs is_space_or_tab 1 (lit " ")
                        (run_length is_space_or_tab s) s)
  /\ single_spaced false (sub_runs is_space_or_tab 1 (lit " ") 0 s).
Proof.
  induction s as [|c s [IHa IHb]]; [done|].
  assert (Hsp : is_space_or_tab c = false -> (c =? 32)%N = false).
  { unfold is_space_or_tab. by intros [H _]%orb_false_elim. }
  split.
  - simpl run_length. destruct (is_space_or_tab c) eqn:Hc.
    + exact IHa.
    + cbn [sub_runs]. simpl run_length. rewrite Hc. simpl.
      by rewrite (Hsp eq_refl).
  - cbn [sub_runs]. simpl run_length. destruct (is_space_or_tab c) eqn:Hc; simpl.
    + split; [done|]. revert IHa. generalize (run_length is_space_or_tab s).
      intros n IHa. destruct n; exact IHa.
    + by rewrite (Hsp eq_refl).
Qed.

Lemma single_spaced_weaken p s : single_spaced p s -> single_spaced false s.
Proof.
  destruct s as [|c s]; [done|]. simpl. destruct (c =? 32)%N; [|done]. tauto.
Qed.

Lemma single_spaced_app_l p a b : single_spaced p (a ++ b) -> single_spaced p a.
Proof.
  revert p. induction a as [|c a IH]; intros p; [done|]. simpl.
  destruct (c =? 32)%N; [|apply IH]. intros [-> H]. split; [done|by apply IH in H].
Qed.

Lemma single_spaced_app_r p a b : single_spaced p (a ++ b) -> single_spaced false b.
Proof.
  revert p. induction a as [|c a IH]; intros p; [apply single_spaced_weaken|].
  simpl. destruct (c =? 32)%N; [|apply IH]. intros [_ H]. by apply IH in H.
Qed.

Lemma single_spaced_strip p s : single_spaced p s -> single_spaced false (strip s).
Proof.
  destruct (strip_split s) as (ws1 & ws2 & Hs & _). rewrite Hs at 1.
  intros H. apply single_spaced_app_r, single_spaced_app_l in H. done.
Qed.

Lemma single_spaced_newline p a b :
  single_spaced p a -> single_spaced false b -> single_spaced p (a ++ newline :: b).
Proof.
  revert p. induction a as [|c a IH]; intros p Ha Hb; [done|].
  simpl in *. destruct (c =? 32)%N; [|by apply IH].
  destruct Ha as [-> Ha]. split; [done|by apply IH].
Qed.

(** Replacing runs of newlines by two newlines makes no two spaces
    adjacent. *)
Lemma squeeze_single_spaced k s skip p :
  skip <= run_length is_newline s ->
  single_spaced p s ->
  single_spaced (if (skip =? 0)%nat then p else false)
    (sub_runs is_newline k [newline; newline] skip s).
Proof.
  revert skip p. induction s as [|c s IH]; intros skip p Hskip Hs.
  - simpl. by destruct (skip =? 0)%nat.
  - assert (Hnl : is_newline c = true -> (c =? 32)%N = false).
    { unfold is_newline, newline. intros ->%N.eqb_eq. done. }
    destruct skip as [|n]; cbn [sub_runs].
    + simpl Nat.eqb. cbv iota.
      destruct ((0 <? _)%nat && _) eqn:Hm.
      * apply andb_prop in Hm as [Hr _]. apply Nat.ltb_lt in Hr.
        simpl in Hr, Hs |- *. destruct (is_newline c) eqn:Hc; [|lia].
        rewrite (Hnl eq_refl) in Hs.
        specialize (IH (run_length is_newline s) false (le_n _) Hs).
        revert IH. generalize (run_length is_newline s). intros n IH.
        destruct n; exact IH.
      * simpl in Hs |- *. destruct (c =? 32)%N.
        -- destruct Hs as [-> Hs]. split; [done|]. apply (IH 0 true); [lia|done].
        -- apply (IH 0 false); [lia|done].
    + simpl in Hskip, Hs. destruct (is_newline c) eqn:Hc; [|lia].
      rewrite (Hnl eq_refl) in Hs. simpl Nat.eqb. cbv iota.
      specialize (IH n false ltac:(lia) Hs). by destruct (n =? 0)%nat.
Qed.

Lemma lines_nonempty s : lines s <> [].
Proof. destruct s as [|c s]; simpl; [done|]. destruct (c =? 10)%N, (lines s); done. Qed.

Lemma split_go_lines cur s :
  split_go [newline] 0 cur s
  = match lines s with
    | l :: ls => (rev cur ++ l) :: ls
    | [] => []
    end.
Proof.
  revert cur. induction s as [|c s IH]; intros cur.
  - simpl. by rewrite app_nil_r.
  - cbn [split_go startswith lines]. unfold newline.
    rewrite (N.eqb_sym 10 c), andb_true_r. destruct (c =? 10)%N.
    + rewrite IH. simpl. rewrite app_nil_r.
      pose proof (lines_nonempty s). by destruct (lines s).
    + rewrite IH. pose proof (lines_nonempty s). destruct (lines s); [done|].
      simpl. by rewrite <- app_assoc.
Qed.

Lemma split_newline_lines s : split [newline] s = lines s.
Proof.
  unfold split. rewrite split_go_lines.
  pose proof (lines_nonempty s). by destruct (lines s).
Qed.

Lemma Forall_lines (P : char -> Prop) s : Forall P s -> Forall (Forall P) (lines s).
Proof.
  induction 1 as [|c s Hc Hs IH]; simpl; [by repeat constructor|].
  destruct (c =? 10)%N; [by constructor|].
  destruct (lines s) as [|l ls]; [by repeat constructor|].
  apply Forall_cons in IH as [Hl Hls]. constructor; [by constructor|done].
Qed.

Lemma lines_no_newline s : Forall (Forall (fun c => c <> newline)) (lines s).
Proof.
  induction s as [|c s IH]; simpl; [by repeat constructor|].
  destruct (N.eqb_spec c 10); [by constructor|].
  destruct (lines s) as [|l ls]; [by repeat constructor|].
  apply Forall_cons in IH as [Hl Hls]. constructor; [by constructor|done].
Qed.

Lemma lines_single_spaced p s :
  single_spaced p s ->
  match lines s with
  | l :: ls => single_spaced p l /\ Forall (single_spaced false) ls
  | [] => False
  end.
Proof.
  revert p. induction s as [|c s IH]; intros p Hs; simpl; [by split|].
  destruct (N.eqb_spec c 10) as [->|Hc].
  - simpl in Hs. specialize (IH false Hs). destruct (lines s) as [|l ls]; [done|].
    split; [done|]. destruct IH. by constructor.
  - simpl in Hs. destruct (c =? 32)%N eqn:H32.
    + destruct Hs as [-> Hs]. specialize (IH true Hs).
      destruct (lines s) as [|l ls]; [done|]. simpl. rewrite H32. tauto.
    + specialize (IH false Hs).
      destruct (lines s) as [|l ls]; [done|]. simpl. rewrite H32. tauto.
Qed.

Lemma lines_snoc_newline s : lines (s ++ [newline]) = lines s ++ [[]].
Proof.
  induction s as [|c s IH]; [done|]. simpl. rewrite IH.
  destruct (c =? 10)%N; [done|].
  pose proof (lines_nonempty s). by destruct (lines s).
Qed.

Lemma lines_snoc s c :
  c <> newline ->
  exists ls l, lines s = ls ++ [l] /\ lines (s ++ [c]) = ls ++ [l ++ [c]].
Proof.
  intros Hc. induction s as [|d s (ls & l & Hs & Hsc)].
  - exists [], []. simpl. by destruct (N.eqb_spec c 10).
  - simpl. rewrite Hs, Hsc. destruct (d =? 10)%N.
    + by exists ([] :: ls), l.
    + destruct ls as [|l0 ls]; simpl.
      * by exists [], (d :: l).
      * by exists ((d :: l0) :: ls), l.
Qed.

Lemma lines_one s : Forall (fun c => c <> newline) s -> lines s = [s].
Proof.
  induction 1 as [|c s Hc _ IH]; [done|]. simpl. rewrite IH.
  by destruct (N.eqb_spec c 10).
Qed.

Lemma lines_app_newline a b :
  Forall (fun c => c <> newline) a -> lines (a ++ newline :: b) = a :: lines b.
Proof.
  induction 1 as [|c a Hc _ IH]; [done|]. simpl. rewrite IH.
  by destruct (N.eqb_spec c 10).
Qed.

Lemma lines_join ls :
  ls <> [] -> Forall (Forall (fun c => c <> newline)) ls ->
  lines (join [newline] ls) = ls.
Proof.
  intros Hne Hls. induction Hls as [|l ls Hl Hls IH]; [done|].
  destruct ls as [|l' ls].
  - simpl. by apply lines_one.
  - change (join [newline] (l :: l' :: ls))
      with (l ++ newline :: join [newline] (l' :: ls)).
    rewrite lines_app_newline by done. by rewrite IH.
Qed.

Lemma join_single_spaced ls :
  Forall (single_spaced false) ls -> single_spaced false (join [newline] ls).
Proof.
  induction 1 as [|l ls Hl Hls IH]; [done|].
  destruct ls as [|l' ls]; [done|].
  change (join [newline] (l :: l' :: ls))
    with (l ++ newline :: join [newline] (l' :: ls)).
  by apply single_spaced_newline.
Qed.

Lemma Forall_join (P : char -> Prop) sep ls :
  Forall P sep -> Forall (Forall P) ls -> Forall P (join sep ls).
Proof.
  intros Hsep. induction 1 as [|l ls Hl Hls IH]; [constructor|].
  destruct ls as [|l' ls]; [done|].
  change (join sep (l :: l' :: ls)) with (l ++ sep ++ join sep (l' :: ls)).
  rewrite !Forall_app. done.
Qed.

Lemma lines_trimmed_lstrip s :
  Forall trimmed (lines s) -> Forall trimmed (lines (lstrip s)).
Proof.
  induction s as [|c s IH]; [done|]. simpl.
  destruct (is_space c) eqn:Hc; [|done].
  destruct (c =? 10)%N.
  - intros [_ H]%Forall_cons. by apply IH.
  - pose proof (lines_nonempty s). destruct (lines s) as [|l ls]; [done|].
    intros [[Hl _] _]%Forall_cons. simpl in Hl. congruence.
Qed.

Lemma lines_trimmed_rstrip s :
  Forall trimmed (lines s) -> Forall trimmed (lines (rstrip s)).
Proof.
  induction s as [|c s IH] using rev_ind; [done|].
  rewrite rstrip_snoc. destruct (is_space c) eqn:Hc; [|done].
  destruct (N.eq_dec c newline) as [->|Hn].
  - rewrite lines_snoc_newline. intros [H _]%Forall_app. by apply IH.
  - destruct (lines_snoc s c Hn) as (ls & l & Hs & Hsc). rewrite Hsc.
    intros [_ [[_ Hl] _]%Forall_cons]%Forall_app.
    rewrite rev_app_distr in Hl. simpl in Hl. congruence.
Qed.

Lemma lines_trimmed_strip s :
  Forall trimmed (lines s) -> Forall trimmed (lines (strip s)).
Proof. intros H. by apply lines_trimmed_rstrip, lines_trimmed_lstrip. Qed.

(** C7, as the code has it.  Whatever the text, the sanitized text holds
    no character of [[\x00-\x08\x0B-\x0C\x0E-\x1F\x7F]] and no tab, no
    space follows a space, every line is free of whitespace at both ends,
    and so is the text as a whole. *)
Theorem sanitize_text_normalised text :
  let out := sanitize_text text in
  Forall (fun c => is_stripped_control c = false) out
  /\ Forall (fun c => c <> 9%N) out
  /\ single_spaced false out
  /\ Forall trimmed (split [newline] out)
  /\ trimmed out.
Proof.
  unfold sanitize_text.
  set (t1 := List.filter _ text).
  set (t2 := sub_runs is_space_or_tab 1 (lit " ") 0 t1).
  set (t3 := sub_runs is_newline 3 [newline; newline] 0 t2).
  set (ls := List.map strip (split [newline] t3)).
  assert (H1 : Forall (fun c => is_stripped_control c = false) t1).
  { apply Forall_forall. intros c Hc. apply list_elem_of_In, filter_In in Hc as [_ Hc].
    by apply negb_true_iff. }
  assert (H2 : Forall (fun c => is_stripped_control c = false) t3).
  { apply Forall_sub_runs; [by repeat constructor|].
    apply Forall_sub_runs; [by repeat constructor|done]. }
  assert (T3 : Forall (fun c => c <> 9%N) t3).
  { apply Forall_sub_runs; [by repeat constructor|]. apply collapse_no_tab. }
  assert (S3 : single_spaced false t3).
  { apply (squeeze_single_spaced 3 t2 0 false); [lia|].
    apply collapse_single_spaced. }
  assert (Hls : ls = strip <$> lines t3).
  { unfold ls. by rewrite split_newline_lines. }
  assert (Hne : ls <> []).
  { rewrite Hls. pose proof (lines_nonempty t3). by destruct (lines t3). }
  assert (Hnl : Forall (Forall (fun c => c <> newline)) ls).
  { rewrite Hls. apply Forall_fmap. eapply Forall_impl; [apply lines_no_newline|].
    intros l. apply Forall_strip. }
  simpl. split_and!.
  - apply Forall_strip, Forall_join; [by repeat constructor|].
    rewrite Hls. apply Forall_fmap.
    apply (Forall_impl _ _ _ (Forall_lines _ _ H2)).
    intros l Hl. simpl. by apply Forall_strip.
  - apply Forall_strip, Forall_join; [by repeat constructor|].
    rewrite Hls. apply Forall_fmap.
    apply (Forall_impl _ _ _ (Forall_lines _ _ T3)).
    intros l Hl. simpl. by apply Forall_strip.
  - apply (single_spaced_strip false), join_single_spaced.
    rewrite Hls. apply Forall_fmap.
    pose proof (lines_single_spaced false t3 S3) as Hl.
    destruct (lines t3) as [|l l']; [done|]. destruct Hl as [Hl Hl'].
    constructor.
    + by apply (single_spaced_strip false).
    + eapply Forall_impl; [exact Hl'|]. intros l0 Hl0. simpl.
      by apply (single_spaced_strip false).
  - rewrite split_newline_lines. apply lines_trimmed_strip.
    rewrite lines_join by done. rewrite Hls. apply Forall_fmap, Forall_forall.
    intros l _. apply strip_trimmed.
  - apply strip_trimmed.
Qed.

(** C7, as the specification states it, fails twice: a carriage return
    is a control character that the sanitizer keeps, and a line of spaces
    between two blank lines leaves four newlines in a row. *)
Lemma sanitize_text_keeps_cr_and_newline_runs :
  sanitize_text [97; 13; 98]%N = [97; 13; 98]%N
  /\ ~ only_newline_tab_controls (sanitize_text [97; 13; 98]%N)
  /\ sanitize_text [97; 10; 10; 32; 10; 10; 98]%N = [97; 10; 10; 10; 10; 98]%N
  /\ ~ no_three_newlines (sanitize_text [97; 10; 10; 32; 10; 10; 98]%N).
Proof.
  assert (E1 : sanitize_text [97; 13; 98]%N = [97; 13; 98]%N)
    by (vm_compute; reflexivity).
  assert (E2 : sanitize_text [97; 10; 10; 32; 10; 10; 98]%N
               = [97; 10; 10; 10; 10; 98]%N) by (vm_compute; reflexivity).
  split_and!; [exact E1| |exact E2|].
  - rewrite E1. intros H.
    apply Forall_cons in H as [_ H]. apply Forall_cons in H as [H _].
    destruct (H eq_refl) as [H'|H']; discriminate H'.
  - rewrite E2. intros H. apply (H [97%N] [10; 98]%N). reflexivity.
Qed.

End Sanitize.

(** ** Batch embedding *)

Section EmbedBatch.
Context {float Service : Type} (zero : float).
Context (request_embedding : Service -> str -> Service * result (list float)).

Local Abbreviation embed_text := (OllamaEmbeddings.embed_text float Service request_embedding).
Local Abbreviation embed_each := (OllamaEmbeddings.embed_each float zero Service request_embedding).
Local Abbreviation embed_from := (OllamaEmbeddings.embed_from float zero Service request_embedding).
Local Abbreviation embed_batch := (OllamaEmbeddings.embed_batch float zero Service request_embedding).
Local Abbreviation replies := (Spec.replies float Service request_embedding).
Local Abbreviation vector_of := (Spec.vector_of float zero).

Lemma replies_length sv texts : length (replies sv texts) = length texts.
Proof.
  revert sv. induction texts as [|t ts IH]; intros sv; [done|].
  simpl. destruct (embed_text sv t) as [sv' r]. simpl. by rewrite IH.
Qed.

Lemma embed_each_app sv a b acc :
  embed_each sv (a ++ b) acc
  = let '(sv', acc') := embed_each sv a acc in embed_each sv' b acc'.
Proof.
  revert sv acc. induction a as [|t a IH]; intros sv acc; [done|].
  simpl. destruct (embed_text sv t) as [sv' [e|e]]; apply IH.
Qed.

Lemma embed_each_replies sv texts acc :
  (embed_each sv texts acc).2 = acc ++ List.map vector_of (replies sv texts).
Proof.
  revert sv acc. induction texts as [|t ts IH]; intros sv acc.
  - simpl. by rewrite app_nil_r.
  - simpl. destruct (embed_text sv t) as [sv' [e|e]];
      rewrite IH, <- app_assoc; done.
Qed.

Lemma embed_from_concat sv texts n iterator acc :
  embed_from sv texts n iterator acc
  = embed_each sv (concat (List.map (fun i => slice texts i (i + n)) iterator)) acc.
Proof.
  revert sv acc. induction iterator as [|i it IH]; intros sv acc; [done|].
  simpl. rewrite embed_each_app.
  destruct (embed_each sv (slice texts i (i + n)) acc) as [sv' acc']. apply IH.
Qed.

Lemma embed_batch_replies sv texts (batch_size : Z) :
  (0 < batch_size)%Z ->
  (embed_batch sv texts batch_size).2
  = Ok (List.map vector_of (replies sv texts)).
Proof.
  intros Hb. unfold OllamaEmbeddings.embed_batch, range.
  destruct (Z.eqb_spec batch_size 0); [lia|].
  destruct (Z.ltb_spec 0 batch_size); [|lia].
  rewrite embed_from_concat, range_up_windows by lia.
  rewrite groups_concat; [|lia|unfold len; simpl; rewrite length_drop; lia].
  change (Z.to_nat 0) with 0. rewrite drop_0.
  pose proof (embed_each_replies sv texts []) as Hacc.
  destruct (embed_each sv texts []) as [sv' acc]. simpl in *. by rewrite Hacc.
Qed.

(** C3.  With a positive batch size (the default is 32), [embed_batch]
    returns one vector per text, in the order of the texts: the position
    of a text whose embedding call raised holds the zero vector of
    dimension 768, every other position holds the embedding the service
    returned, and no failure aborts the batch. *)
Theorem embed_batch_aligned sv texts (batch_size : Z) :
  (0 < batch_size)%Z ->
  exists vectors,
    (embed_batch sv texts batch_size).2 = Ok vectors
    /\ length vectors = length texts
    /\ length (replies sv texts) = length texts
    /\ forall i r, replies sv texts !! i = Some r ->
         vectors !! i = Some (match r with
                              | Ok embedding => embedding
                              | Raise _ => repeat zero 768
                              end).
Proof.
  intros Hb. exists (List.map vector_of (replies sv texts)).
  split; [by apply embed_batch_replies|].
  split; [by rewrite length_map, replies_length|].
  split; [apply replies_length|].
  intros i r Hr. change (List.map vector_of (replies sv texts)) with (vector_of <$> replies sv texts).
  rewrite list_lookup_fmap, Hr. by destruct r.
Qed.

End EmbedBatch.

(** ** Upserts to the vector index *)

Section Upsert.
Import PineconeVectorStore.
Context {vector metadata Index : Type}.
Context (index_upsert :
  Index -> list (PineconeVectorStore.item vector metadata) -> str -> Index * result Z).

Local Abbreviation item := (PineconeVectorStore.item vector metadata).
Local Abbreviation request := (PineconeVectorStore.request vector metadata).
Local Abbreviation store := (PineconeVectorStore.t vector metadata Index).
Local Abbreviation zip3 := (PineconeVectorStore.zip3 vector metadata).
Local Abbreviation upsert := (PineconeVectorStore.upsert vector metadata Index index_upsert).
Local Abbreviation upsert_from :=
  (PineconeVectorStore.upsert_from vector metadata Index index_upsert).
Local Abbreviation upsert_batch :=
  (PineconeVectorStore.upsert_batch vector metadata Index index_upsert).
Local Abbreviation send_all := (Spec.send_all vector metadata Index index_upsert).
Local Abbreviation acknowledged := (Spec.acknowledged vector metadata).
Local Abbreviation Store := (PineconeVectorStore.Build_t vector metadata Index).
Local Abbreviation Request := (PineconeVectorStore.Build_request vector metadata).

(** C10.  On a client whose index is connected, [upsert] with lists that
    do not all have the same length raises [ValueError] and returns the
    client as it was: nothing is sent and the index keeps its state.  With
    lists of the same length it sends exactly one request, made of the
    zipped items. *)
Theorem upsert_length_guard (self : store) ix vectors ids metas ns :
  index self = Some ix ->
  (~ (length vectors = length ids /\ length vectors = length metas) ->
   upsert self vectors ids metas ns
   = (self, Raise (ValueError "vectors, ids, and metadata must have same length")))
  /\ (length vectors = length ids -> length vectors = length metas ->
      upsert self vectors ids metas ns
      = let '(ix', r) := index_upsert ix (zip3 ids vectors metas) ns in
        (Store (Some ix') (sent self ++ [Request (zip3 ids vectors metas) ns r]), r)).
Proof.
  intros Hix. unfold PineconeVectorStore.upsert, len. rewrite Hix. split.
  - intros Hne.
    destruct (Z.eqb_spec (Z.of_nat (length vectors)) (Z.of_nat (length ids)));
      destruct (Z.eqb_spec (Z.of_nat (length vectors)) (Z.of_nat (length metas)));
      simpl; try done.
    exfalso. apply Hne. lia.
  - intros H1 H2. rewrite H1, <- H2, H1, Z.eqb_refl. simpl.
    by destruct (index_upsert ix (zip3 ids vectors metas) ns).
Qed.

Lemma zip3_take n ids vectors metas :
  zip3 (take n ids) (take n vectors) (take n metas) = take n (zip3 ids vectors metas).
Proof.
  revert ids vectors metas. induction n as [|n IH]; intros ids vectors metas.
  - by destruct ids, vectors, metas.
  - destruct ids, vectors, metas; simpl; try done;
      try (by destruct (take n _)); try (by destruct (take n _), (take n _)).
    by rewrite IH.
Qed.

Lemma zip3_drop n ids vectors metas :
  length ids = length vectors -> length metas = length vectors ->
  zip3 (drop n ids) (drop n vectors) (drop n metas) = drop n (zip3 ids vectors metas).
Proof.
  revert ids vectors metas. induction n as [|n IH]; intros ids vectors metas H1 H2.
  - done.
  - destruct ids, vectors, metas; simpl in *; try done. apply IH; lia.
Qed.

Lemma zip3_length ids vectors metas :
  length ids = length vectors -> length metas = length vectors ->
  length (zip3 ids vectors metas) = length vectors.
Proof.
  revert vectors metas. induction ids as [|i ids IH]; intros vectors metas H1 H2.
  - by destruct vectors.
  - destruct vectors, metas; simpl in *; try done. f_equal. apply IH; lia.
Qed.

Lemma zip3_slice ids vectors metas (i n : Z) :
  (0 <= i)%Z -> (0 < n)%Z ->
  length ids = length vectors -> length metas = length vectors ->
  zip3 (slice ids i (i + n)) (slice vectors i (i + n)) (slice metas i (i + n))
  = slice (zip3 ids vectors metas) i (i + n).
Proof.
  intros. rewrite !slice_window by done. by rewrite zip3_take, zip3_drop.
Qed.

Lemma range_up_nonneg fuel (i stop step : Z) :
  (0 <= i)%Z -> (0 < step)%Z -> Forall (fun j => (0 <= j)%Z) (range_up fuel i stop step).
Proof.
  revert i. induction fuel as [|fuel IH]; intros i Hi Hs; [constructor|].
  simpl. destruct (i <? stop)%Z; constructor; [done|]. apply IH; lia.
Qed.

Lemma upsert_same_length (self : store) ix vectors ids metas ns :
  index self = Some ix ->
  length vectors = length ids -> length vectors = length metas ->
  upsert self vectors ids metas ns
  = let '(ix', r) := index_upsert ix (zip3 ids vectors metas) ns in
    (Store (Some ix') (sent self ++ [Request (zip3 ids vectors metas) ns r]), r).
Proof.
  intros Hix H1 H2. unfold PineconeVectorStore.upsert, len.
  rewrite Hix, H1, <- H2, H1, Z.eqb_refl. simpl.
  by destruct (index_upsert ix (zip3 ids vectors metas) ns).
Qed.

Lemma upsert_from_send (self : store) ix vectors ids metas (n : Z) ns iterator total :
  index self = Some ix ->
  (0 < n)%Z ->
  length ids = length vectors -> length metas = length vectors ->
  Forall (fun j => (0 <= j)%Z) iterator ->
  upsert_from self vectors ids metas n ns iterator total
  = let '(ix', log, r) :=
      send_all ix ns
        (List.map (fun i => slice (zip3 ids vectors metas) i (i + n)) iterator)
        (sent self) total in
    (Store (Some ix') log, r).
Proof.
  intros Hix Hn H1 H2 Hit. revert self ix total Hix.
  induction Hit as [|i iterator Hi Hit IH]; intros self ix total Hix.
  - simpl. destruct self as [ix0 log]. simpl in *. by subst.
  - simpl.
    assert (Hlen : length (slice vectors i (i + n)) = length (slice ids i (i + n))
                   /\ length (slice vectors i (i + n)) = length (slice metas i (i + n))).
    { rewrite !slice_window by done. rewrite !length_take, !length_drop. lia. }
    destruct Hlen as [Ha Hb].
    rewrite (upsert_same_length self ix) by done. rewrite zip3_slice by done.
    destruct (index_upsert ix (slice (zip3 ids vectors metas) i (i + n)) ns) as [ix' [c|e]].
    + rewrite (IH _ ix'); done.
    + done.
Qed.

Lemma acknowledged_app (a b : list request) :
  acknowledged (a ++ b) = (acknowledged a + acknowledged b)%Z.
Proof.
  induction a as [|r a IH]; simpl; [done|].
  unfold Spec.acknowledged in *. simpl. rewrite IH. destruct (response r); lia.
Qed.

Lemma send_all_log ix ns batches log total :
  exists new,
    (send_all ix ns batches log total).1.2 = log ++ new
    /\ List.map data new `prefix_of` batches
    /\ Forall (fun r => namespace r = ns) new
    /\ (forall t, (send_all ix ns batches log total).2 = Ok t ->
          List.map data new = batches /\ t = (total + acknowledged new)%Z)
    /\ ((forall ix b, exists ix' c, index_upsert ix b ns = (ix', Ok c)) ->
        exists t, (send_all ix ns batches log total).2 = Ok t).
Proof.
  revert ix log total. induction batches as [|b batches IH]; intros ix log total.
  - exists []. simpl. rewrite app_nil_r. split_and!.
    + done.
    + apply prefix_nil.
    + done.
    + intros t [= <-]. unfold Spec.acknowledged. simpl. split; [done|lia].
    + eauto.
  - simpl. destruct (index_upsert ix b ns) as [ix' [c|e]] eqn:Hr.
    + destruct (IH ix' (log ++ [Request b ns (Ok c)]) (total + c)%Z)
        as (new & Hlog & Hpre & Hns & Hok & Htot).
      exists (Request b ns (Ok c) :: new). split_and!.
      * rewrite Hlog, <- app_assoc. done.
      * simpl. by apply prefix_cons.
      * by constructor.
      * intros t Ht. apply Hok in Ht as [Hd ->]. split; [simpl; by rewrite Hd|].
        change (Request b ns (Ok c) :: new) with ([Request b ns (Ok c)] ++ new).
        rewrite acknowledged_app. unfold Spec.acknowledged at 2. simpl. lia.
      * done.
    + exists [Request b ns (Raise e)]. simpl. split_and!.
      * done.
      * apply prefix_cons, prefix_nil.
      * by repeat constructor.
      * done.
      * intros Hall. destruct (Hall ix b) as (ix'' & c & Hc). congruence.
Qed.

(** C5.  On a connected client, with as many ids and metadata records as
    vectors and a positive batch size, [upsert_batch] cuts the items, in
    order, into [ceil(n / batch_size)] contiguous non-empty batches of at
    most [batch_size] items and sends them one request each, one after
    the other, stopping at the first request the index refuses.  When it
    returns a total, every batch was sent and the total is the sum of the
    acknowledged counts; it returns one whenever the index answers every
    request. *)
Theorem upsert_batch_partitions (self : store) ix vectors ids metas (batch_size : Z) ns :
  index self = Some ix ->
  length ids = length vectors -> length metas = length vectors ->
  (0 < batch_size)%Z ->
  let items := zip3 ids vectors metas in
  let batches := groups (length items) (Z.to_nat batch_size) items in
  let out := upsert_batch self vectors ids metas batch_size ns in
  concat batches = items
  /\ len batches = Spec.ceil_div (len vectors) batch_size
  /\ Forall (fun b => 0 < length b /\ (len b <= batch_size)%Z) batches
  /\ exists new,
       sent out.1 = sent self ++ new
       /\ List.map data new `prefix_of` batches
       /\ Forall (fun r => namespace r = ns) new
       /\ (forall total, out.2 = Ok total ->
             List.map data new = batches /\ total = acknowledged new)
       /\ ((forall ix b, exists ix' c, index_upsert ix b ns = (ix', Ok c)) ->
           exists total, out.2 = Ok total).
Proof.
  intros Hix H1 H2 Hb items batches out.
  assert (Hlen : length items = length vectors) by by apply zip3_length.
  split; [apply groups_concat; lia|].
  split.
  { unfold len, Spec.ceil_div, batches. rewrite groups_length by lia.
    rewrite Hlen, Nat2Z.inj_div, Nat2Z.inj_sub by lia.
    rewrite Nat2Z.inj_add, Z2Nat.id by lia. done. }
  split.
  { apply Forall_and. split; [apply groups_nonempty; lia|].
    eapply Forall_impl; [apply groups_bounded|]. unfold len. simpl. lia. }
  assert (Hout : out = let '(ix', log, r) := send_all ix ns batches (sent self) 0%Z in
                       (Store (Some ix') log, r)).
  { unfold out, PineconeVectorStore.upsert_batch, range.
    destruct (Z.eqb_spec batch_size 0); [lia|].
    destruct (Z.ltb_spec 0 batch_size); [|lia].
    rewrite (upsert_from_send self ix) by (try done; apply range_up_nonneg; lia).
    fold items. replace (len vectors) with (len items) by (unfold len; lia).
    rewrite (range_up_windows items batch_size) by lia.
    change (Z.to_nat 0) with 0. rewrite drop_0.
    unfold batches. replace (Z.to_nat (len items - 0)) with (length items); [done|].
    unfold len. lia. }
  destruct (send_all_log ix ns batches (sent self) 0%Z)
    as (new & Hlog & Hpre & Hns & Hok & Htot).
  exists new. rewrite Hout.
  destruct (send_all ix ns batches (sent self) 0%Z) as [[ix' log] r]. simpl in *.
  split_and!; try done.
Qed.

End Upsert.

(** ** Filename-derived metadata *)

Import Validators.

(** C6, as the code has it.  For [ECOWAS_Mining_Vision_2025.txt] the rule
    gives [sector = "minerals"] and [date = "2025"], and it gives
    [document_type = None]: the name holds none of the words the three
    type patterns look for. *)
Theorem filename_metadata_mining_vision :
  extract_metadata_from_filename (lit "ECOWAS_Mining_Vision_2025.txt")
  = {| document_type := None;
       sector := Some (lit "minerals");
       date := Some (lit "2025") |}.
Proof. vm_compute. reflexivity. Qed.

(** C6, as the specification states it, fails: the document type is not
    ["policy"]. *)
Lemma filename_metadata_mining_vision_not_policy :
  ~ (let m := extract_metadata_from_filename (lit "ECOWAS_Mining_Vision_2025.txt") in
     document_type m = Some (lit "policy")
     /\ sector m = Some (lit "minerals")
     /\ date m = Some (lit "2025")).
Proof. vm_compute. intros [H _]. discriminate H. Qed.

(** ** Chunk records *)

Section ChunkRecords.
Import KnowledgeBase.


Lemma lit_key_ne (a b : string) :
  bool_decide (lit a = lit b) = false -> lit a ≠ lit b.
Proof. intros H Heq. by rewrite bool_decide_eq_true_2 in H. Qed.



End ChunkRecords.

(** ** The properties at concrete inputs *)

Import PineconeVectorStore KnowledgeBase.

(** Five texts, the third embedding call raises: five vectors, the third
    is the zero vector. *)
Example embed_batch_five_texts :
  (OllamaEmbeddings.embed_batch Z 0%Z nat Demo.flaky 0 Demo.five_texts 32).2
  = Ok [[3; 1]; [3; 1]; repeat 0 768; [4; 1]; [4; 1]]%Z.
Proof. vm_compute. reflexivity. Qed.

Lemma embed_batch_aligned_witness :
  exists vectors,
    (OllamaEmbeddings.embed_batch Z 0%Z nat Demo.flaky 0 Demo.five_texts 32).2 = Ok vectors
    /\ length vectors = length Demo.five_texts
    /\ length (Spec.replies Z nat Demo.flaky 0 Demo.five_texts) = length Demo.five_texts
    /\ forall i r, Spec.replies Z nat Demo.flaky 0 Demo.five_texts !! i = Some r ->
         vectors !! i = Some (match r with
                              | Ok embedding => embedding
                              | Raise _ => repeat 0%Z 768
                              end).
Proof. apply (embed_batch_aligned 0%Z Demo.flaky 0 Demo.five_texts 32). lia. Defined.

(** 250 vectors in batches of 100: three requests, of 100, 100 and 50
    items, and the total is the sum of the three acknowledged counts. *)
Example upsert_batch_250 :
  let out := upsert_batch nat nat nat Demo.counting_index Demo.connected
               (seq 0 250) (Demo.some_ids 250) (seq 0 250) 100 [] in
  List.map (fun r => (length (data r), response r)) (sent out.1)
  = [(100, Ok 100%Z); (100, Ok 100%Z); (50, Ok 50%Z)]
  /\ out.2 = Ok 250%Z.
Proof. vm_compute. split; reflexivity. Qed.

Lemma upsert_batch_partitions_witness :
  let items := zip3 nat nat (Demo.some_ids 250) (seq 0 250) (seq 0 250) in
  let batches := groups (length items) (Z.to_nat 100) items in
  let out := upsert_batch nat nat nat Demo.counting_index Demo.connected
               (seq 0 250) (Demo.some_ids 250) (seq 0 250) 100 [] in
  concat batches = items
  /\ len batches = Spec.ceil_div (len (seq 0 250)) 100
  /\ Forall (fun b => 0 < length b /\ (len b <= 100)%Z) batches
  /\ exists new,
       sent out.1 = sent Demo.connected ++ new
       /\ List.map data new `prefix_of` batches
       /\ Forall (fun r => namespace r = []) new
       /\ (forall total, out.2 = Ok total ->
             List.map data new = batches /\ total = Spec.acknowledged nat nat new)
       /\ ((forall ix b, exists ix' c, Demo.counting_index ix b [] = (ix', Ok c)) ->
           exists total, out.2 = Ok total).
Proof.
  apply (upsert_batch_partitions Demo.counting_index Demo.connected 0
           (seq 0 250) (Demo.some_ids 250) (seq 0 250) 100 []).
  - reflexivity.
  - reflexivity.
  - reflexivity.
  - lia.
Defined.

Lemma semantic_three_sentences_one_chunk_witness :
  SemanticChunker.chunk Demo.semantic_1000_500 Demo.three_sentences
  = [lit "Gold is mined." ++ SemanticChunker.space ++ lit "Prices rose!"
     ++ SemanticChunker.space ++ lit "Who profits?"]
  /\ (Z.of_nat (length (lit "Gold is mined." ++ SemanticChunker.space
                        ++ lit "Prices rose!" ++ SemanticChunker.space
                        ++ lit "Who profits?"))
      < SemanticChunker.min_chunk_size Demo.semantic_1000_500)%Z.
Proof.
  apply (semantic_three_sentences_one_chunk Demo.three_sentences
           (lit "Gold is mined.") (lit "Prices rose!") (lit "Who profits?")).
  - reflexivity.
  - vm_compute. reflexivity.
Defined.

Lemma upsert_length_guard_witness :
  upsert nat nat nat Demo.counting_index Demo.connected [1; 2] [lit "a"] [7; 8] []
  = (Demo.connected,
     Raise (ValueError "vectors, ids, and metadata must have same length")).
Proof.
  apply (proj1 (upsert_length_guard Demo.counting_index Demo.connected 0
                  [1; 2] [lit "a"] [7; 8] [] eq_refl)).
  simpl. intros [H _]. discriminate H.
Defined.


Example generate_chunk_id_values :
  _generate_chunk_id Demo.path 0 = Ok (lit "37d9e82993d9346cc31a1a1846c6ecaa")
  /\ _generate_chunk_id Demo.path 1 = Ok (lit "47b8a2b45438459bce64335b3d9eb57f").
Proof. split; vm_compute; reflexivity. Qed.



(** ** Chunk ids *)

Section ChunkIds.
Import Spec KnowledgeBase.

Lemma lit_inj_chars (a b : list Ascii.ascii) :
  List.map Ascii.N_of_ascii a = List.map Ascii.N_of_ascii b -> a = b.
Proof.
  revert b. induction a as [|x a IH]; intros [|y b] H; try done.
  simpl in H. injection H as Hxy Hab. f_equal; [|by apply IH].
  by rewrite <- (Ascii.ascii_N_embedding x), <- (Ascii.ascii_N_embedding y), Hxy.
Qed.

Lemma str_of_int_inj (a b : Z) : str_of_int a = str_of_int b -> a = b.
Proof.
  unfold str_of_int. intros H%lit_inj_chars.
  apply (f_equal String.string_of_list_ascii) in H.
  rewrite !String.string_of_list_ascii_of_string in H.
  apply DecimalZ.to_int_inj.
  apply (f_equal NilEmpty.int_of_string) in H.
  rewrite !NilEmpty.isi in H. by injection H.
Qed.

Lemma chunk_id_content_inj (file_path : str) (i j : Z) :
  chunk_id_content file_path i = chunk_id_content file_path j -> i = j.
Proof.
  unfold chunk_id_content. intros H%app_inv_head%app_inv_head.
  by apply str_of_int_inj.
Qed.

Lemma chunk_records_from_ids (file_path : str) base total i chunks ids metas :
  chunk_records_from file_path base total i chunks ids metas
  = bind (ids_from file_path i (length chunks)) (fun new =>
      Ok (ids ++ new,
          metas ++ imap (fun j c => chunk_meta file_path base total (i + j) c) chunks)).
Proof.
  revert i ids metas. induction chunks as [|c chunks IH]; intros i ids metas.
  - simpl. by rewrite !app_nil_r.
  - simpl. destruct (_generate_chunk_id file_path (Z.of_nat i)) as [cid|e]; [|done].
    simpl. rewrite IH. destruct (ids_from file_path (S i) (length chunks)); [|done].
    simpl. rewrite <- !app_assoc. simpl. rewrite Nat.add_0_r.
    do 4 f_equal. apply imap_ext. intros j x _. simpl. f_equal. lia.
Qed.

Local Open Scope Z_scope.

Lemma process_block_ok w M : word_ok (Hashlib.process_block w M).
Proof.
  unfold Hashlib.process_block.
  destruct (fold_left (Hashlib.round M) (seq 0 64) w) as [[[A B] C] D].
  destruct w as [[[a0 b0] c0] d0]. unfold word_ok, Hashlib.add32.
  split_and!; apply Z.mod_pos_bound; lia.
Qed.

Lemma md5_words_ok msg : word_ok (Hashlib.md5_words msg).
Proof.
  unfold Hashlib.md5_words.
  assert (H0 : word_ok Hashlib.initial) by (unfold word_ok, Hashlib.initial; lia).
  revert H0. generalize Hashlib.initial.
  induction (Hashlib.blocks (Hashlib.pad msg)) as [|M blocks IH]; intros w Hw; [done|].
  simpl. apply IH, process_block_ok.
Qed.

Lemma number_of_words_inj w1 w2 :
  word_ok w1 -> word_ok w2 -> number_of_words w1 = number_of_words w2 -> w1 = w2.
Proof.
  destruct w1 as [[[a1 b1] c1] d1], w2 as [[[a2 b2] c2] d2].
  unfold word_ok, number_of_words. intros H1 H2 H.
  assert (d1 = d2) by lia. assert (c1 = c2) by lia. assert (b1 = b2) by lia.
  assert (a1 = a2) by lia. by subst.
Qed.

Lemma number_of_words_bound w : word_ok w -> 0 <= number_of_words w < 2 ^ 128.
Proof.
  destruct w as [[[a b] c] d]. unfold word_ok, number_of_words. lia.
Qed.

Lemma id_code_bound file_path i : (id_code file_path i < Z.to_nat (2 ^ 128 + 1))%nat.
Proof.
  unfold id_code. destruct (Hashlib.encode _) as [bytes|].
  - pose proof (number_of_words_bound _ (md5_words_ok bytes)). lia.
  - lia.
Qed.

Lemma id_code_decides file_path i j :
  id_code file_path i = id_code file_path j ->
  _generate_chunk_id file_path (Z.of_nat i) = _generate_chunk_id file_path (Z.of_nat j).
Proof.
  unfold id_code, _generate_chunk_id.
  destruct (Hashlib.encode (chunk_id_content file_path (Z.of_nat i))) as [b1|];
    destruct (Hashlib.encode (chunk_id_content file_path (Z.of_nat j))) as [b2|];
    intros H.
  - pose proof (md5_words_ok b1) as H1. pose proof (md5_words_ok b2) as H2.
    pose proof (number_of_words_bound _ H1). pose proof (number_of_words_bound _ H2).
    assert (Hw : Hashlib.md5_words b1 = Hashlib.md5_words b2).
    { apply number_of_words_inj; [exact H1|exact H2|lia]. }
    unfold Hashlib.md5. rewrite Hw. reflexivity.
  - exfalso. pose proof (number_of_words_bound _ (md5_words_ok b1)). lia.
  - exfalso. pose proof (number_of_words_bound _ (md5_words_ok b2)). lia.
  - reflexivity.
Qed.

Lemma encode_app a b x y :
  Hashlib.encode a = Some x -> Hashlib.encode b = Some y ->
  Hashlib.encode (a ++ b) = Some (x ++ y).
Proof.
  revert x. induction a as [|c a IH]; intros x Ha Hb.
  - simpl in Ha. injection Ha as <-. done.
  - simpl in Ha |- *. destruct (Hashlib.utf8_char c) as [u|]; [|done].
    destruct (Hashlib.encode a) as [x'|]; [|done]. injection Ha as <-.
    rewrite (IH x' eq_refl Hb). by rewrite <- app_assoc.
Qed.

Lemma encode_uint d :
  is_Some (Hashlib.encode
             (List.map Ascii.N_of_ascii
                (String.list_ascii_of_string (NilEmpty.string_of_uint d)))).
Proof.
  induction d as [|d [x IH]|d [x IH]|d [x IH]|d [x IH]|d [x IH]
                  |d [x IH]|d [x IH]|d [x IH]|d [x IH]|d [x IH]];
    [by exists []|..]; cbn [NilEmpty.string_of_uint String.list_ascii_of_string
                           List.map Hashlib.encode];
    rewrite IH; eexists; reflexivity.
Qed.

Lemma encode_int n : is_Some (Hashlib.encode (str_of_int n)).
Proof.
  unfold str_of_int. destruct (Z.to_int n) as [d|d].
  - apply encode_uint.
  - destruct (encode_uint d) as [x Hx].
    cbn [NilEmpty.string_of_int String.list_ascii_of_string List.map Hashlib.encode].
    rewrite Hx. eexists. reflexivity.
Qed.

(** An id is generated whenever the path can be encoded. *)
Lemma generate_chunk_id_ok file_path i :
  is_Some (Hashlib.encode file_path) ->
  exists chunk_id, _generate_chunk_id file_path i = Ok chunk_id.
Proof.
  intros [x Hx]. destruct (encode_int i) as [y Hy].
  unfold _generate_chunk_id, chunk_id_content.
  rewrite (encode_app _ _ _ _ Hx (encode_app (lit "_") _ _ _ eq_refl Hy)).
  eauto.
Qed.

Lemma ids_from_ok file_path i n :
  is_Some (Hashlib.encode file_path) ->
  exists ids, ids_from file_path i n = Ok ids.
Proof.
  intros Hp. revert i. induction n as [|n IH]; intros i; [by exists []|].
  simpl. destruct (generate_chunk_id_ok file_path (Z.of_nat i) Hp) as [cid ->].
  destruct (IH (S i)) as [ids ->]. simpl. eauto.
Qed.

(** The records are built whenever the path can be encoded. *)
Lemma chunk_records_ok file_path base chunks :
  is_Some (Hashlib.encode file_path) ->
  exists ids metas, chunk_records file_path base chunks = Ok (ids, metas).
Proof.
  intros Hp. unfold chunk_records. rewrite chunk_records_from_ids.
  destruct (ids_from_ok file_path 0%nat (length chunks) Hp) as [ids ->].
  simpl. eauto.
Qed.

(** Taken over all integers, the indices of a document are more than
    there are MD5 digests, so some two of them get the same id (far beyond
    the number of chunks a text can have). *)
Lemma chunk_ids_collide :
  exists (i j : Z) (chunk_id : str),
    0 <= i < j
    /\ _generate_chunk_id Demo.path i = Ok chunk_id
    /\ _generate_chunk_id Demo.path j = Ok chunk_id.
Proof.
  destruct (nat_pigeonhole (id_code Demo.path)
              (Z.to_nat (2 ^ 128 + 2)) (Z.to_nat (2 ^ 128 + 1)))
    as (i & j & Hij & Hc).
  - lia.
  - intros i _. apply id_code_bound.
  - assert (Hp : is_Some (Hashlib.encode Demo.path))
      by (vm_compute; eexists; reflexivity).
    destruct (generate_chunk_id_ok Demo.path (Z.of_nat i) Hp) as [cid Hi].
    exists (Z.of_nat i), (Z.of_nat j), cid. split; [lia|]. split; [exact Hi|].
    rewrite <- (id_code_decides Demo.path i j Hc). exact Hi.
Qed.

End ChunkIds.


(** * Further properties of the chunkers *)

Section SemanticChunks.
Import Spec SemanticChunker.

Lemma Forall_snoc {A} (P : A -> Prop) l x :
  Forall P l -> P x -> Forall P (l ++ [x]).
Proof. intros Hl Hx. apply Forall_app. split; [done|by constructor]. Qed.

Lemma join_cons (sep x : str) xs :
  xs <> [] -> join sep (x :: xs) = x ++ sep ++ join sep xs.
Proof. by destruct xs. Qed.

Lemma join_space_trimmed xs :
  xs <> [] -> Forall (fun s => trimmed s /\ s <> []) xs ->
  trimmed (join space xs) /\ join space xs <> [].
Proof.
  intros Hne Hxs. induction Hxs as [|x xs [Hx Hnx] Hxs IH]; [done|].
  destruct xs as [|y xs]; [done|].
  destruct IH as [IH1 IH2]; [done|].
  rewrite join_cons by done. split.
  - by apply trimmed_joined.
  - by destruct x.
Qed.

Lemma split_sentences_trimmed text :
  Forall (fun s => trimmed s /\ s <> []) (_split_sentences text).
Proof. apply sentences_trimmed. Qed.

Lemma split_sentences_nonempty text :
  strip text <> [] -> _split_sentences text <> [].
Proof.
  intros Ht Hs. pose proof (split_sentences_non_space text) as Hns.
  rewrite Hs in Hns. simpl in Hns. symmetry in Hns.
  apply non_space_nil_all_space, strip_all_space in Hns. done.
Qed.

(** What the loop keeps: the emitted chunks and the accumulated sentences
    are trimmed and non-empty, and the emitted chunks reach [min]. *)
Local Abbreviation shaped self a :=
  (Forall (fun c => trimmed c /\ c <> []
                    /\ (min_chunk_size self <= Z.of_nat (length c))%Z) (chunks a)
   /\ Forall (fun s => trimmed s /\ s <> []) (current_chunk a)).

Lemma step_shaped self a sentence :
  shaped self a -> trimmed sentence /\ sentence <> [] ->
  shaped self (step self a sentence).
Proof.
  intros [Hc Hcur] Hs. unfold step.
  destruct ((max_chunk_size self <? _)%Z) eqn:Hmax; simpl;
    [|split; [done|by apply Forall_snoc]].
  destruct (decide (current_chunk a = [])) as [Hnil|Hne].
  - rewrite (bool_decide_eq_true_2 _ Hnil). simpl.
    split; [done|by apply Forall_snoc].
  - rewrite (bool_decide_eq_false_2 _ Hne). simpl.
    destruct (join_space_trimmed _ Hne Hcur) as [Htr Hnj].
    rewrite (trimmed_strip _ Htr).
    destruct (Z.leb_spec (min_chunk_size self)
                (Z.of_nat (length (join space (current_chunk a))))); simpl.
    + split; [by apply Forall_snoc|by apply (Forall_snoc _ [])].
    + split; [done|by apply Forall_snoc].
Qed.

Lemma fold_step_shaped self sentences a :
  shaped self a -> Forall (fun s => trimmed s /\ s <> []) sentences ->
  shaped self (fold_left (step self) sentences a).
Proof.
  intros Ha Hs. revert a Ha. induction Hs as [|s sentences Hs _ IH]; intros a Ha.
  - done.
  - simpl. by apply IH, step_shaped.
Qed.

(** Every chunk of the semantic chunker is non-empty and has no
    whitespace at its ends, so [ChunkData.validate_content] accepts it;
    and every chunk before the last one is at least [min_chunk_size]
    long. *)
Theorem semantic_chunks_shape self text :
  Forall (fun c => trimmed c /\ c <> [] /\ Validators.validate_content c = Ok c)
    (chunk self text)
  /\ exists front last_one,
       chunk self text = front ++ last_one
       /\ length last_one <= 1
       /\ Forall (fun c => (min_chunk_size self <= Z.of_nat (length c))%Z) front.
Proof.
  assert (Hv : forall c : str, trimmed c -> c <> [] ->
                 Validators.validate_content c = Ok c).
  { intros c Htr Hne. unfold Validators.validate_content.
    rewrite (trimmed_strip _ Htr). by destruct c. }
  unfold chunk. destruct (truthy (strip text)); simpl.
  2:{ split; [constructor|]. exists [], []. split_and!; [done|simpl; lia|constructor]. }
  set (a := fold_left _ _ _).
  assert (Ha : shaped self a).
  { apply fold_step_shaped; [by split; constructor|apply split_sentences_trimmed]. }
  destruct Ha as [Hc Hcur].
  assert (Hfront : Forall (fun c => trimmed c /\ c <> []
                                    /\ Validators.validate_content c = Ok c) (chunks a)).
  { eapply Forall_impl; [exact Hc|]. intros c (? & ? & _). auto. }
  assert (Hmin : Forall (fun c => (min_chunk_size self <= Z.of_nat (length c))%Z)
                   (chunks a)).
  { eapply Forall_impl; [exact Hc|]. by intros c (_ & _ & ?). }
  destruct (current_chunk a) as [|s cur] eqn:Hcc.
  - split; [done|]. exists (chunks a), [].
    split_and!; [by rewrite app_nil_r|simpl; lia|done].
  - destruct (join_space_trimmed (s :: cur) ltac:(done) Hcur) as [Htr Hnj].
    rewrite (trimmed_strip _ Htr).
    destruct (truthy (join space (s :: cur))) eqn:Hty.
    + split.
      * apply Forall_snoc; [done|]. split_and!; [done..|by apply Hv].
      * exists (chunks a), [join space (s :: cur)].
        split_and!; [done|simpl; lia|done].
    + by apply truthy_false in Hty.
Qed.

(** The semantic chunker returns no chunk exactly for a text that is
    empty or all whitespace. *)
Theorem semantic_chunk_empty_iff self text :
  chunk self text = [] <-> strip text = [].
Proof.
  split.
  - intros Hc. pose proof (semantic_chunk_non_space self text) as Hns.
    rewrite Hc in Hns. simpl in Hns. symmetry in Hns.
    by apply strip_all_space, non_space_nil_all_space.
  - intros Hs. unfold chunk. by rewrite Hs.
Qed.

Lemma fold_step_no_flush self sentences cur :
  (Z.of_nat (length (concat (cur ++ sentences))) <= max_chunk_size self)%Z ->
  fold_left (step self) sentences
    {| chunks := []; current_chunk := cur;
       current_size := Z.of_nat (length (concat cur)) |}
  = {| chunks := []; current_chunk := cur ++ sentences;
       current_size := Z.of_nat (length (concat (cur ++ sentences))) |}.
Proof.
  revert cur. induction sentences as [|s sentences IH]; intros cur Hle.
  - by rewrite app_nil_r.
  - simpl. unfold step at 2. simpl.
    rewrite !concat_app, !length_app in Hle. simpl in Hle. rewrite length_app in Hle.
    destruct (Z.ltb_spec (max_chunk_size self)
                (Z.of_nat (length (concat cur)) + Z.of_nat (length s))); [lia|].
    simpl.
    replace (Z.of_nat (length (concat cur)) + Z.of_nat (length s))%Z
      with (Z.of_nat (length (concat (cur ++ [s]))))
      by (rewrite concat_app, length_app; simpl; rewrite app_nil_r; lia).
    rewrite IH.
    + by rewrite <- !app_assoc.
    + rewrite <- app_assoc. simpl. rewrite !concat_app, !length_app. simpl.
      rewrite length_app. lia.
Qed.

Lemma fold_step_all_fit self sentences :
  (Z.of_nat (length (concat sentences)) <= max_chunk_size self)%Z ->
  fold_left (step self) sentences
    {| chunks := []; current_chunk := []; current_size := 0 |}
  = {| chunks := []; current_chunk := sentences;
       current_size := Z.of_nat (length (concat sentences)) |}.
Proof. apply (fold_step_no_flush self sentences []). Qed.

(** A text no longer than [max_chunk_size] that is not all whitespace
    gives exactly one chunk: its sentences joined by single spaces. *)
Theorem semantic_short_text_one_chunk self text :
  (Z.of_nat (length text) <= max_chunk_size self)%Z ->
  strip text <> [] ->
  chunk self text = [join space (_split_sentences text)].
Proof.
  intros Hlen Hne. unfold chunk.
  destruct (truthy (strip text)) eqn:Ht; [|by apply truthy_false in Ht]. simpl.
  pose proof (split_sentences_length text) as Hsum.
  rewrite fold_step_all_fit by lia. simpl.
  pose proof (split_sentences_nonempty text Hne) as Hs.
  destruct (join_space_trimmed _ Hs (split_sentences_trimmed text)) as [Htr Hnj].
  destruct (_split_sentences text) as [|s ss] eqn:Hss; [done|].
  rewrite (trimmed_strip _ Htr).
  by destruct (join space (s :: ss)).
Qed.

End SemanticChunks.

Section RecursiveChunks.
Import Spec RecursiveChunker.

Variable self : t.

Local Abbreviation bounded :=
  (fun c : str => (Z.of_nat (length c) <= chunk_size self)%Z).

Lemma join_empty_separator (xs : list str) : join [] xs = concat xs.
Proof.
  induction xs as [|x [|y xs] IH]; [done| |].
  - simpl. by rewrite app_nil_r.
  - rewrite join_cons by done. simpl in *. by rewrite IH.
Qed.

Lemma stripped_chunks_bounded (cs : list str) :
  Forall bounded cs ->
  Forall bounded (List.map strip (List.filter (fun c => truthy (strip c)) cs)).
Proof.
  induction 1 as [|c cs Hc _ IH]; [constructor|].
  simpl. destruct (truthy (strip c)); [|done].
  constructor; [|done]. pose proof (strip_length c). simpl in *. lia.
Qed.

Lemma fold_step_chunks (P : str -> Prop) separator more recurse pieces a :
  (forall current, Forall P (save self separator more recurse current)) ->
  Forall P (chunks a) ->
  Forall P (chunks (fold_left (step self separator more recurse) pieces a)).
Proof.
  intros Hsave. revert a. induction pieces as [|p pieces IH]; intros a Ha; [done|].
  simpl. apply IH. unfold step.
  destruct (_ <=? _)%Z; simpl; [done|]. apply Forall_app. by split.
Qed.

Lemma save_bounded_more separator recurse current :
  (forall text, Forall bounded (recurse text)) ->
  Forall bounded (save self separator true recurse current).
Proof.
  intros Hrec. unfold save. destruct current as [|x current]; [constructor|].
  rewrite andb_true_r.
  destruct (Z.ltb_spec (chunk_size self)
              (Z.of_nat (length (join separator (x :: current)))));
    [apply Hrec|]. by repeat constructor.
Qed.

(** The character level: every piece is one character, and the size the
    loop tracks is the length of what it will save. *)
Local Abbreviation tracked a :=
  (Forall bounded (chunks a)
   /\ current_size a = Z.of_nat (length (concat (current_chunk a)))
   /\ Z.le (current_size a) (chunk_size self)).

Lemma save_characters recurse current :
  (Z.of_nat (length (concat current)) <= chunk_size self)%Z ->
  Forall bounded (save self [] false recurse current).
Proof.
  intros Hle. unfold save. destruct current as [|x current]; [constructor|].
  rewrite andb_false_r, join_empty_separator. by repeat constructor.
Qed.

Lemma step_characters recurse a c :
  (1 <= chunk_size self)%Z ->
  tracked a -> tracked (step self [] false recurse a [c]).
Proof.
  intros H1 (Hc & Hsize & Hle). unfold step. simpl length.
  destruct (Z.leb_spec (current_size a + Z.of_nat 1) (chunk_size self)); simpl.
  - split_and!; [done| |lia].
    rewrite concat_app, length_app. simpl. lia.
  - split_and!; [|done|lia].
    apply Forall_app. split; [done|]. apply save_characters. lia.
Qed.

Lemma fold_step_characters recurse (text : str) a :
  (1 <= chunk_size self)%Z ->
  tracked a ->
  tracked (fold_left (step self [] false recurse) (List.map (fun c => [c]) text) a).
Proof.
  intros H1. revert a. induction text as [|c text IH]; intros a Ha; [done|].
  simpl. by apply IH, step_characters.
Qed.

Lemma recursive_split_bounded separators text :
  (1 <= chunk_size self)%Z ->
  last separators = Some [] ->
  Forall bounded (_recursive_split self separators text).
Proof.
  intros H1. revert text.
  induction separators as [|separator remaining IH]; intros text Hlast; [done|].
  cbn [_recursive_split]. apply stripped_chunks_bounded.
  destruct remaining as [|r remaining].
  - injection Hlast as ->. simpl.
    set (recurse := fun text : str => if truthy (strip text) then [text] else []).
    pose proof (fold_step_characters recurse text
                  {| chunks := []; current_chunk := []; current_size := 0 |} H1)
      as (Hc & Hsize & Hle).
    { split_and!; [constructor|done|simpl; lia]. }
    apply Forall_app. split; [exact Hc|]. apply save_characters. lia.
  - assert (Hrec : forall t, Forall bounded (_recursive_split self (r :: remaining) t)).
    { intros t. by apply IH. }
    change (negb (bool_decide (r :: remaining = []))) with true.
    apply Forall_app. split.
    + apply fold_step_chunks; [|constructor].
      intros current. by apply save_bounded_more.
    + by apply save_bounded_more.
Qed.

Lemma split_go_nonempty sep skip cur s : split_go sep skip cur s <> [].
Proof.
  revert skip cur. induction s as [|c s IH]; intros skip cur; [done|].
  destruct skip; cbn [split_go]; [|apply IH].
  destruct (startswith sep (c :: s)); [done|apply IH].
Qed.

Lemma join_split_go sep skip cur s :
  sep <> [] -> join sep (split_go sep skip cur s) = rev cur ++ drop skip s.
Proof.
  intros Hne. revert skip cur. induction s as [|c s IH]; intros skip cur.
  - simpl. by rewrite drop_nil, app_nil_r.
  - destruct skip as [|n]; cbn [split_go].
    + destruct (startswith sep (c :: s)) eqn:Hst.
      * rewrite join_cons by apply split_go_nonempty. rewrite IH. simpl.
        apply startswith_take in Hst.
        destruct sep as [|a sep]; [done|]. simpl in Hst. injection Hst as -> Hst.
        simpl. rewrite Nat.sub_0_r. f_equal. f_equal.
        rewrite <- Hst at 1. apply take_drop.
      * rewrite IH. simpl. by rewrite <- app_assoc.
    + apply IH.
Qed.

(** Joining the pieces of a split gives the text back. *)
Lemma join_split sep s : sep <> [] -> join sep (split sep s) = s.
Proof. intros Hne. unfold split. by rewrite join_split_go. Qed.

Lemma length_join sep (xs : list str) :
  xs <> [] ->
  length (join sep xs) + length sep = length (concat xs) + length xs * length sep.
Proof.
  induction xs as [|x [|y xs] IH]; [done| |]; intros _.
  - simpl. rewrite app_nil_r. lia.
  - rewrite join_cons by done. rewrite concat_cons, !length_app.
    specialize (IH ltac:(done)). simpl length in *. lia.
Qed.

Lemma fold_step_all_fit_recursive separator more recurse pieces current :
  (Z.of_nat (length (join separator (current ++ pieces))) <= chunk_size self)%Z ->
  fold_left (step self separator more recurse) pieces
    {| chunks := []; current_chunk := current;
       current_size := Z.of_nat (length (concat current)
                                 + length current * length separator) |}
  = {| chunks := []; current_chunk := current ++ pieces;
       current_size := Z.of_nat (length (concat (current ++ pieces))
                                 + length (current ++ pieces) * length separator) |}.
Proof.
  revert current. induction pieces as [|p pieces IH]; intros current Hle.
  - by rewrite app_nil_r.
  - cbn [fold_left]. unfold step at 2. cbn [current_size chunks current_chunk].
    pose proof (length_join separator (current ++ p :: pieces)
                  ltac:(by destruct current)) as Hj.
    rewrite concat_app, !length_app in Hj. simpl in Hj. rewrite length_app in Hj.
    destruct (Z.leb_spec
                (Z.of_nat (length (concat current) + length current * length separator)
                 + Z.of_nat (length p)) (chunk_size self)); [|nia].
    replace (Z.of_nat (length (concat current) + length current * length separator)
             + Z.of_nat (length p) + Z.of_nat (length separator))%Z
      with (Z.of_nat (length (concat (current ++ [p]))
                      + length (current ++ [p]) * length separator))
      by (rewrite concat_app, !length_app; simpl; rewrite app_nil_r; nia).
    rewrite IH by (by rewrite <- app_assoc). by rewrite <- !app_assoc.
Qed.

Lemma fold_step_all_fit_initial separator more recurse pieces :
  (Z.of_nat (length (join separator pieces)) <= chunk_size self)%Z ->
  fold_left (step self separator more recurse) pieces
    {| chunks := []; current_chunk := []; current_size := 0 |}
  = {| chunks := []; current_chunk := pieces;
       current_size := Z.of_nat (length (concat pieces)
                                 + length pieces * length separator) |}.
Proof. apply (fold_step_all_fit_recursive separator more recurse pieces []). Qed.

(** A text no longer than [chunk_size] that is not all whitespace gives
    exactly one chunk, the text without the whitespace at its ends. *)
Theorem recursive_short_text_one_chunk text :
  separators self <> [] ->
  (Z.of_nat (length text) <= chunk_size self)%Z ->
  strip text <> [] ->
  chunk self text = [strip text].
Proof.
  intros Hseps Hlen Hne. unfold chunk.
  destruct (truthy (strip text)) eqn:Ht; [|by apply truthy_false in Ht]. simpl.
  destruct (separators self) as [|separator remaining]; [done|].
  cbn [_recursive_split].
  set (pieces := if truthy separator then _ else _).
  assert (Hjoin : join separator pieces = text).
  { unfold pieces. destruct (truthy separator) eqn:Hsep.
    - apply join_split. by apply truthy_true.
    - apply truthy_false in Hsep as ->.
      by rewrite join_empty_separator, characters_concat. }
  assert (Hpieces : pieces <> []).
  { intros Hp. rewrite Hp in Hjoin. simpl in Hjoin. subst text. done. }
  rewrite fold_step_all_fit_initial by (rewrite Hjoin; lia). simpl.
  unfold save. destruct pieces as [|p pieces']; [done|].
  rewrite Hjoin.
  destruct (Z.ltb_spec (chunk_size self) (Z.of_nat (length text))); [lia|].
  simpl. by rewrite Ht.
Qed.

(** With the empty string as last separator (as in the default list) and
    [chunk_size >= 1], no chunk of the recursive chunker is longer than
    [chunk_size]. *)
Theorem recursive_chunks_bounded text :
  (1 <= chunk_size self)%Z ->
  last (separators self) = Some [] ->
  Forall (fun c => (Z.of_nat (length c) <= chunk_size self)%Z) (chunk self text).
Proof.
  intros H1 Hlast. unfold chunk. destruct (negb _); [constructor|].
  by apply recursive_split_bounded.
Qed.

(** With at least one separator (which [__init__] ensures), every chunk
    of the recursive chunker is non-empty and has no whitespace at its
    ends, so [ChunkData.validate_content] accepts it. *)
Theorem recursive_chunks_shape text :
  separators self <> [] ->
  Forall (fun c => trimmed c /\ c <> [] /\ Validators.validate_content c = Ok c)
    (chunk self text).
Proof.
  intros Hne. unfold chunk. destruct (negb _); [constructor|].
  destruct (separators self) as [|separator remaining]; [done|].
  cbn [_recursive_split].
  eapply Forall_impl; [apply sentences_trimmed|].
  intros c [Htr Hc]. split_and!; [done..|].
  unfold Validators.validate_content. rewrite (trimmed_strip _ Htr). by destruct c.
Qed.

End RecursiveChunks.

(** * Further properties of the validators *)

Section SanitizeContent.
Import Spec Validators.

Lemma sub_runs_non_space cls k repl skip s :
  (forall c, cls c = true -> is_space c = true) ->
  Forall (fun c => is_space c = true) repl ->
  skip <= run_length cls s ->
  non_space (sub_runs cls k repl skip s) = non_space s.
Proof.
  intros Hcls Hrepl. revert skip. induction s as [|c s IH]; intros skip Hskip; [done|].
  destruct skip as [|n]; cbn [sub_runs].
  - destruct ((0 <? _)%nat && _) eqn:Hm.
    + apply andb_prop in Hm as [Hr _]. apply Nat.ltb_lt in Hr.
      simpl in Hr |- *. destruct (cls c) eqn:Hc; [|lia].
      rewrite non_space_app, (non_space_all_space repl Hrepl), (Hcls c Hc). simpl.
      apply IH. lia.
    + simpl. rewrite IH by lia. done.
  - simpl in Hskip |- *. destruct (cls c) eqn:Hc; [|lia].
    rewrite (Hcls c Hc). simpl. apply IH. lia.
Qed.

Lemma non_space_stripped_lines (ls : list str) :
  non_space (concat (List.map strip ls)) = non_space (concat ls).
Proof.
  induction ls as [|l ls IH]; [done|].
  simpl. by rewrite !non_space_app, non_space_strip, IH.
Qed.

Lemma non_space_lines_joined s :
  non_space (join [newline] (List.map strip (split [newline] s))) = non_space s.
Proof.
  assert (Hnl : forall c, is_space c = true -> negb (is_space c) = false)
    by (by intros c ->).
  change (non_space (join [newline] (List.map strip (split [newline] s))))
    with (List.filter (fun c => negb (is_space c))
            (join [newline] (List.map strip (split [newline] s)))).
  rewrite (join_only_K (fun c => negb (is_space c))) by (by repeat constructor).
  fold (non_space (concat (List.map strip (split [newline] s)))).
  rewrite non_space_stripped_lines.
  apply (split_only_K (fun c => negb (is_space c)) [newline] s);
    [done|by repeat constructor].
Qed.

Lemma sanitize_text_normalised_trimmed text : trimmed (sanitize_text text).
Proof. unfold sanitize_text. apply strip_trimmed. Qed.

(** The three substitutions and the trimming of the lines move whitespace
    only. *)
Lemma sanitize_text_non_space text :
  non_space (sanitize_text text)
  = non_space (List.filter (fun c => negb (is_stripped_control c)) text).
Proof.
  unfold sanitize_text. rewrite non_space_strip, non_space_lines_joined.
  rewrite sub_runs_non_space; [|..|lia].
  - rewrite sub_runs_non_space; [done|..|lia].
    + intros c. unfold is_space_or_tab.
      intros [->%N.eqb_eq| ->%N.eqb_eq]%orb_prop; reflexivity.
    + by repeat constructor.
  - intros c ->%N.eqb_eq. reflexivity.
  - by repeat constructor.
Qed.

(** The sanitizer keeps, in their order, the characters of the text that
    are neither whitespace nor in the class of control characters it
    strips, and adds none. *)
Theorem sanitize_text_keeps_content text :
  non_space (sanitize_text text)
  = non_space (List.filter (fun c => negb (is_stripped_control c)) text).
Proof. apply sanitize_text_non_space. Qed.

(** The sanitizer returns the empty string exactly for a text made of
    whitespace and stripped control characters only. *)
Theorem sanitize_text_empty_iff text :
  sanitize_text text = []
  <-> Forall (fun c => is_space c = true \/ is_stripped_control c = true) text.
Proof.
  pose proof (sanitize_text_non_space text) as Hk. split.
  - intros He. rewrite He in Hk. simpl in Hk. symmetry in Hk.
    apply non_space_nil_all_space in Hk.
    apply Forall_forall. intros c Hc.
    destruct (is_stripped_control c) eqn:Hctl; [by right|left].
    rewrite Forall_forall in Hk. apply Hk.
    apply list_elem_of_In, filter_In. split; [by apply list_elem_of_In|by rewrite Hctl].
  - intros Hall.
    assert (Hns : non_space (sanitize_text text) = []).
    { rewrite Hk. apply non_space_all_space, Forall_forall. intros c Hc.
      apply list_elem_of_In, filter_In in Hc as [Hc Hctl].
      apply list_elem_of_In in Hc. rewrite Forall_forall in Hall.
      destruct (Hall c Hc) as [Hs|Hs]; [done|]. by rewrite Hs in Hctl. }
    apply non_space_nil_all_space in Hns.
    destruct (sanitize_text_normalised_trimmed text) as [Hstart _].
    destruct (sanitize_text text) as [|c out]; [done|].
    apply Forall_cons in Hns as [Hc _]. simpl in Hstart. congruence.
Qed.

End SanitizeContent.

Section FilenameDates.
Import Spec Validators.

Lemma match_pieces_shaped ps s k :
  match_pieces ps s = Some k ->
  exists post, s = take k s ++ post /\ length (take k s) = k /\ shaped_as ps (take k s).
Proof.
  revert s k. induction ps as [|[n|c] ps IH]; intros s k H; simpl in H.
  - injection H as <-. exists s. by rewrite take_0.
  - destruct ((length (take n s) =? n)%nat && forallb is_digit (take n s)) eqn:Hd;
      [|done].
    apply andb_prop in Hd as [Hlen Hdig]. apply Nat.eqb_eq in Hlen.
    destruct (match_pieces ps (drop n s)) as [k'|] eqn:Hm; [|done].
    simpl in H. injection H as <-.
    destruct (IH _ _ Hm) as (post & Hs & Hl & Hsh).
    assert (Ht : take (n + k') s = take n s ++ take k' (drop n s)).
    { rewrite <- (take_drop n s) at 1. rewrite take_app_ge by lia.
      by rewrite Hlen, Nat.add_comm, Nat.add_sub. }
    exists post. rewrite Ht. split_and!.
    + rewrite <- app_assoc, <- Hs. by rewrite take_drop.
    + rewrite length_app. lia.
    + simpl. exists (take n s), (take k' (drop n s)). split_and!; [done..| |done].
      apply Forall_forall. intros x Hx. rewrite forallb_forall in Hdig.
      by apply Hdig, list_elem_of_In.
  - destruct s as [|d s]; [done|]. destruct (N.eqb_spec c d) as [->|]; [|done].
    destruct (match_pieces ps s) as [k'|] eqn:Hm; [|done].
    simpl in H. injection H as <-.
    destruct (IH _ _ Hm) as (post & Hs & Hl & Hsh).
    exists post. simpl. split_and!.
    + by rewrite <- Hs.
    + by rewrite Hl.
    + eauto.
Qed.

Lemma shaped_match_pieces ps d post :
  shaped_as ps d -> match_pieces ps (d ++ post) = Some (length d).
Proof.
  revert d. induction ps as [|[n|c] ps IH]; intros d H; simpl in H |- *.
  - by subst d.
  - destruct H as (a & b & -> & Hlen & Hdig & Hb).
    rewrite <- app_assoc, take_app_length' by done. rewrite Hlen, Nat.eqb_refl.
    replace (forallb is_digit a) with true.
    2:{ symmetry. apply forallb_forall. intros x Hx. rewrite Forall_forall in Hdig.
        by apply Hdig, list_elem_of_In. }
    simpl. rewrite drop_app_length' by done. rewrite (IH _ Hb). simpl.
    by rewrite length_app, Hlen.
  - destruct H as (b & -> & Hb). simpl. rewrite N.eqb_refl, (IH _ Hb). done.
Qed.

Lemma search_group0_Some ps s d :
  search_group0 ps s = Some d ->
  exists pre post, s = pre ++ d ++ post /\ shaped_as ps d.
Proof.
  induction s as [|c s IH]; simpl.
  - destruct (match_pieces ps []) as [k|] eqn:Hm; [|done]. intros [= <-].
    destruct (match_pieces_shaped _ _ _ Hm) as (post & Hs & _ & Hsh).
    exists [], post. done.
  - destruct (match_pieces ps (c :: s)) as [k|] eqn:Hm.
    + intros [= <-]. destruct (match_pieces_shaped _ _ _ Hm) as (post & Hs & _ & Hsh).
      exists [], post. done.
    + intros H. destruct (IH H) as (pre & post & -> & Hsh).
      by exists (c :: pre), post.
Qed.

Lemma search_group0_unfold ps s :
  search_group0 ps s
  = match match_pieces ps s with
    | Some k => Some (take k s)
    | None => match s with
              | [] => None
              | _ :: s' => search_group0 ps s'
              end
    end.
Proof. by destruct s. Qed.

Lemma search_group0_occurs ps s :
  occurs (shaped_as ps) s -> is_Some (search_group0 ps s).
Proof.
  intros (pre & d & post & -> & Hd). induction pre as [|c pre IH].
  - rewrite search_group0_unfold. simpl.
    rewrite (shaped_match_pieces _ _ _ Hd). eauto.
  - rewrite search_group0_unfold. simpl.
    destruct (match_pieces ps (c :: pre ++ d ++ post)); eauto.
Qed.

Lemma is_year_shaped d : is_year d <-> shaped_as [Digits 4] d.
Proof.
  split.
  - intros [Hl Hd]. exists d, []. by rewrite app_nil_r.
  - intros (a & b & -> & Hl & Hd & ->). rewrite app_nil_r. by split.
Qed.

Lemma is_iso_date_shaped d :
  is_iso_date d <-> shaped_as [Digits 4; Char hyphen; Digits 2; Char hyphen; Digits 2] d.
Proof.
  split.
  - intros (y & m & dd & -> & Hy & Hm & Hdd & Hdig).
    apply Forall_app in Hdig as [Hdy Hdig]. apply Forall_app in Hdig as [Hdm Hddd].
    exists y, ([45%N] ++ m ++ [45%N] ++ dd). split_and!; [done..|].
    exists (m ++ [45%N] ++ dd). split; [done|].
    exists m, ([45%N] ++ dd). split_and!; [done..|].
    exists dd. split; [done|]. exists dd, []. by rewrite app_nil_r.
  - intros (y & b & -> & Hy & Hdy & b1 & -> & m & b2 & -> & Hm & Hdm
            & b3 & -> & dd & b4 & -> & Hdd & Hddd & ->).
    exists y, m, dd. rewrite app_nil_r. split_and!; [done..|].
    rewrite !Forall_app. done.
Qed.

Lemma occurs_iff (P Q : str -> Prop) s :
  (forall d, P d <-> Q d) -> occurs P s <-> occurs Q s.
Proof.
  intros H. split; intros (pre & d & post & Hs & Hd);
    exists pre, d, post; split; [done| |done|]; by apply H.
Qed.

(** The date the filename rule returns for an ASCII filename.  When the
    filename holds a date of the form YYYY-MM-DD, the rule returns one,
    taken from the filename; when it holds none but has four digits in a
    row, the rule returns such four digits of the filename; otherwise it
    returns [None]. *)
Theorem filename_date filename :
  Forall (fun c => (c < 128)%N) filename ->
  let d := date (extract_metadata_from_filename filename) in
  (occurs is_iso_date filename ->
   exists x pre post, d = Some x /\ is_iso_date x /\ filename = pre ++ x ++ post)
  /\ (~ occurs is_iso_date filename -> occurs is_year filename ->
      exists x pre post, d = Some x /\ is_year x /\ filename = pre ++ x ++ post)
  /\ (~ occurs is_year filename -> d = None).
Proof.
  intros _. simpl. split_and!.
  - intros Hocc. apply (occurs_iff _ _ _ is_iso_date_shaped) in Hocc.
    apply search_group0_occurs in Hocc as [x Hx]. rewrite Hx.
    destruct (search_group0_Some _ _ _ Hx) as (pre & post & Hf & Hsh).
    exists x, pre, post. split_and!; [done| |done]. by apply is_iso_date_shaped.
  - intros Hno Hocc.
    destruct (search_group0 [Digits 4; Char hyphen; Digits 2; Char hyphen; Digits 2]
                filename) as [x|] eqn:Hx.
    { exfalso. apply Hno. destruct (search_group0_Some _ _ _ Hx) as (pre & post & Hf & Hsh).
      exists pre, x, post. split; [done|]. by apply is_iso_date_shaped. }
    apply (occurs_iff _ _ _ is_year_shaped) in Hocc.
    apply search_group0_occurs in Hocc as [y Hy]. rewrite Hy.
    destruct (search_group0_Some _ _ _ Hy) as (pre & post & Hf & Hsh).
    exists y, pre, post. split_and!; [done| |done]. by apply is_year_shaped.
  - intros Hno.
    destruct (search_group0 [Digits 4; Char hyphen; Digits 2; Char hyphen; Digits 2]
                filename) as [x|] eqn:Hx.
    { exfalso. apply Hno. destruct (search_group0_Some _ _ _ Hx) as (pre & post & Hf & Hsh).
      apply is_iso_date_shaped in Hsh as (y & m & dd & -> & Hy & _ & _ & Hdig).
      exists pre, y, ([45%N] ++ m ++ [45%N] ++ dd ++ post).
      split; [by rewrite Hf, <- !app_assoc|].
      split; [done|]. by apply Forall_app in Hdig as [? _]. }
    destruct (search_group0 [Digits 4] filename) as [y|] eqn:Hy; [|done].
    exfalso. apply Hno. destruct (search_group0_Some _ _ _ Hy) as (pre & post & Hf & Hsh).
    exists pre, y, post. split; [done|]. by apply is_year_shaped.
Qed.

(** Every sector the filename rule returns is one that
    [DocumentMetadata.validate_sector] accepts and leaves unchanged. *)
Theorem filename_sector_validates filename s :
  sector (extract_metadata_from_filename filename) = Some s ->
  validate_sector (Some s) = Ok (Some s).
Proof.
  unfold extract_metadata_from_filename. simpl.
  destruct (ci_search [lit "mineral"; lit "mining"; lit "extractive"] filename);
    [intros [= <-]; vm_compute; reflexivity|].
  destruct (ci_search [lit "energy"; lit "power"; lit "electricity"; lit "renewable"]
              filename); [intros [= <-]; vm_compute; reflexivity|].
  destruct (ci_search [lit "agriculture"; lit "agri"; lit "farming"] filename);
    [intros [= <-]; vm_compute; reflexivity|done].
Qed.

End FilenameDates.

(** * Further properties of the embedding client *)

Section EmbedBatchMore.
Context {float Service : Type} (zero : float).
Context (request_embedding : Service -> str -> Service * result (list float)).

Local Abbreviation embed_each := (OllamaEmbeddings.embed_each float zero Service request_embedding).
Local Abbreviation embed_batch := (OllamaEmbeddings.embed_batch float zero Service request_embedding).
Local Abbreviation replies := (Spec.replies float Service request_embedding).

Lemma embed_batch_flat sv texts (batch_size : Z) :
  (0 < batch_size)%Z ->
  embed_batch sv texts batch_size
  = let '(sv', embeddings) := embed_each sv texts [] in (sv', Ok embeddings).
Proof.
  intros Hb. unfold OllamaEmbeddings.embed_batch, range.
  destruct (Z.eqb_spec batch_size 0); [lia|].
  destruct (Z.ltb_spec 0 batch_size); [|lia].
  rewrite (embed_from_concat zero request_embedding), range_up_windows by lia.
  rewrite groups_concat; [|lia|unfold len; simpl; rewrite length_drop; lia].
  change (Z.to_nat 0) with 0. by rewrite drop_0.
Qed.

(** Batching is invisible: with any two positive batch sizes
    [embed_batch] returns the same vectors and leaves the service in the
    same state. *)
Theorem embed_batch_any_batch_size sv texts (b1 b2 : Z) :
  (0 < b1)%Z -> (0 < b2)%Z ->
  embed_batch sv texts b1 = embed_batch sv texts b2.
Proof. intros H1 H2. by rewrite !embed_batch_flat. Qed.

(** A batch size that is not positive embeds nothing: 0 raises
    [ValueError] and a negative one returns the empty list, in both cases
    without a request to the service, whatever the texts. *)
Theorem embed_batch_non_positive sv texts (batch_size : Z) :
  (batch_size <= 0)%Z ->
  embed_batch sv texts batch_size
  = (sv, if (batch_size =? 0)%Z
         then Raise (ValueError "range() arg 3 must not be zero")
         else Ok []).
Proof.
  intros Hb. unfold OllamaEmbeddings.embed_batch, range.
  destruct (Z.eqb_spec batch_size 0); [done|].
  destruct (Z.ltb_spec 0 batch_size); [lia|].
  replace (Z.to_nat (0 - len texts)) with 0 by (unfold len; lia). done.
Qed.

(** When every embedding the service returns has 768 numbers, every
    vector of the batch has, placeholders included, and
    [ChunkData.validate_embedding] accepts each of them. *)
Theorem embed_batch_dimension sv texts (batch_size : Z) :
  (0 < batch_size)%Z ->
  Forall (fun r => match r with
                   | Ok embedding => length embedding = 768
                   | Raise _ => True
                   end) (replies sv texts) ->
  exists vectors,
    (embed_batch sv texts batch_size).2 = Ok vectors
    /\ Forall (fun v => length v = 768
                        /\ Validators.validate_embedding (Some v) = Ok (Some v)) vectors.
Proof.
  intros Hb Hr. eexists. split; [by apply embed_batch_replies|].
  apply Forall_forall. intros v Hv.
  apply list_elem_of_In, in_map_iff in Hv as (r & <- & Hin).
  rewrite Forall_forall in Hr. specialize (Hr r (proj2 (list_elem_of_In _ _) Hin)).
  assert (Hl : length (Spec.vector_of float zero r) = 768).
  { destruct r; [done|]. apply repeat_length. }
  split; [done|]. unfold Validators.validate_embedding. by rewrite Hl.
Qed.

End EmbedBatchMore.

(** * Further properties of the vector store client *)

Section UpsertBatchMore.
Import PineconeVectorStore.
Context {vector metadata Index : Type}.
Context (index_upsert :
  Index -> list (PineconeVectorStore.item vector metadata) -> str -> Index * result Z).

Local Abbreviation store := (PineconeVectorStore.t vector metadata Index).
Local Abbreviation upsert := (PineconeVectorStore.upsert vector metadata Index index_upsert).
Local Abbreviation upsert_from :=
  (PineconeVectorStore.upsert_from vector metadata Index index_upsert).
Local Abbreviation upsert_batch :=
  (PineconeVectorStore.upsert_batch vector metadata Index index_upsert).

(** A client that is not connected refuses a batch that is not empty,
    with [ValueError] and before anything is sent, and accepts an empty
    one: it returns the count 0. *)
Theorem upsert_batch_unconnected (self : store) vectors ids metas (batch_size : Z) ns :
  index self = None ->
  (0 < batch_size)%Z ->
  upsert_batch self vectors ids metas batch_size ns
  = (self,
     match vectors with
     | [] => Ok 0%Z
     | _ :: _ => Raise (ValueError "Index not initialized. Call create_index() first.")
     end).
Proof.
  intros Hix Hb. unfold PineconeVectorStore.upsert_batch, range.
  destruct (Z.eqb_spec batch_size 0); [lia|].
  destruct (Z.ltb_spec 0 batch_size); [|lia].
  destruct vectors as [|v vectors]; [done|].
  replace (Z.to_nat (len (v :: vectors) - 0)) with (S (length vectors))
    by (unfold len; simpl; lia).
  simpl. unfold len. simpl length.
  destruct (Z.ltb_spec 0 (Z.of_nat (S (length vectors)))); [|lia].
  simpl. unfold PineconeVectorStore.upsert. by rewrite Hix.
Qed.

Lemma slice_take {A} (l : list A) (n : nat) (i b : Z) :
  (0 <= i)%Z -> (0 < b)%Z -> (i + b <= Z.of_nat n)%Z ->
  slice (take n l) i (i + b) = slice l i (i + b).
Proof.
  intros Hi Hb Hn. rewrite !slice_window by done.
  replace n with (Z.to_nat i + (n - Z.to_nat i)) at 1 by lia.
  rewrite <- take_drop_commute, take_take. f_equal. lia.
Qed.

Lemma upsert_from_take (self : store) vectors ids metas (b : Z) ns iterator total :
  (0 < b)%Z ->
  Forall (fun j => (0 <= j)%Z /\ (j + b <= Z.of_nat (length vectors))%Z) iterator ->
  upsert_from self vectors ids metas b ns iterator total
  = upsert_from self vectors (take (length vectors) ids) (take (length vectors) metas)
      b ns iterator total.
Proof.
  intros Hb Hit. revert self total.
  induction Hit as [|i iterator [Hi Hle] _ IH]; intros self total; [done|].
  simpl. rewrite !slice_take by done.
  destruct (upsert self _ _ _ ns) as [self' [c|e]]; [apply IH|done].
Qed.

Lemma range_up_full_windows fuel (i n b : Z) :
  (0 < b)%Z -> (0 <= i)%Z -> (b | i)%Z -> (b | n)%Z ->
  Forall (fun j => (0 <= j)%Z /\ (j + b <= n)%Z) (range_up fuel i n b).
Proof.
  intros Hb. revert i. induction fuel as [|fuel IH]; intros i Hi Hdi Hdn; [constructor|].
  simpl. destruct (Z.ltb_spec i n); [|constructor].
  constructor.
  - split; [done|]. destruct Hdi as [p ->], Hdn as [q ->].
    assert (p < q)%Z by nia. assert (p + 1 <= q)%Z as Hpq by lia.
    apply (Z.mul_le_mono_nonneg_r _ _ b) in Hpq; lia.
  - apply IH; [lia| |done]. by apply Z.divide_add_r, Z.divide_refl.
Qed.

(** [upsert_batch] checks the lengths batch by batch only: when the batch
    size divides the number of vectors, ids and metadata records beyond
    that number are ignored and the call behaves as on the lists cut to
    it (where [upsert] on the whole lists raises [ValueError]). *)
Theorem upsert_batch_surplus_ignored (self : store) vectors ids metas (batch_size : Z) ns :
  (0 < batch_size)%Z ->
  (batch_size | Z.of_nat (length vectors))%Z ->
  upsert_batch self vectors ids metas batch_size ns
  = upsert_batch self vectors (take (length vectors) ids) (take (length vectors) metas)
      batch_size ns.
Proof.
  intros Hb Hdiv. unfold PineconeVectorStore.upsert_batch, range.
  destruct (Z.eqb_spec batch_size 0); [lia|].
  destruct (Z.ltb_spec 0 batch_size); [|lia].
  apply upsert_from_take; [done|].
  apply range_up_full_windows; [done|lia|apply Z.divide_0_r|done].
Qed.

End UpsertBatchMore.

Section Deletion.
Import PineconeVectorStore.
Context {vector metadata Index filter_value : Type}.
Context (index_delete : Index -> deletion filter_value -> Index * result unit).

Local Abbreviation store := (PineconeVectorStore.t vector metadata Index).
Local Abbreviation delete :=
  (PineconeVectorStore.delete vector metadata Index filter_value index_delete).

Local Ltac criteria :=
  intros; try split; intros;
  repeat match goal with
  | H : is_Some None |- _ => by destruct H
  | H : _ /\ _ |- _ => destruct H
  | H : _ \/ _ |- _ => destruct H
  end;
  simplify_eq/=; split_and?; auto; done.

(** [delete] sends at most one request to the index, and none exactly
    when the client is not connected (it raises [ValueError]) or when no
    criterion is given ([delete_all] false, no id, no or an empty filter),
    in which case it returns normally and the client is as it was.  With
    [delete_all] the request deletes everything, whatever ids and filter
    are passed too; ids come before the filter. *)
Theorem delete_sends_at_most_one (self : store) ids filter ns delete_all :
  let out := delete self ids filter ns delete_all in
  let no_criterion :=
    delete_all = false
    /\ (ids = None \/ ids = Some [])
    /\ (filter = None \/ filter = Some ∅) in
  length out.1.2 <= 1
  /\ sent out.1.1 = sent self
  /\ (index self = None ->
      out = (self, [], Raise (ValueError "Index not initialized. Call create_index() first.")))
  /\ (is_Some (index self) -> (out.1.2 = [] <-> no_criterion))
  /\ (is_Some (index self) -> no_criterion -> out = (self, [], Ok tt))
  /\ (is_Some (index self) -> delete_all = true -> out.1.2 = [DeleteAll ns])
  /\ (is_Some (index self) -> delete_all = false ->
      forall i l, ids = Some (i :: l) -> out.1.2 = [DeleteIds (i :: l) ns]).
Proof.
  unfold PineconeVectorStore.delete. cbv zeta.
  destruct (index self) as [ix|] eqn:Hix; simpl.
  { destruct delete_all; [|destruct ids as [[|i l]|]; [destruct filter as [f|]| |destruct filter as [f|]]];
      try (destruct (decide (f = ∅)) as [->|Hf];
           [rewrite bool_decide_eq_true_2 by done|rewrite bool_decide_eq_false_2 by done]);
      try (destruct (index_delete ix _) as [ix' r]); simpl;
      (split_and!; [lia|criteria..]). }
  split_and!; [lia|criteria..].
Qed.

End Deletion.

(** * The knowledge base *)

Section Ingestion.
Import Spec KnowledgeBase.
Context {float Service Index : Type} (zero : float).
Context (request_embedding : Service -> str -> Service * result (list float)).
Context (index_upsert :
  Index -> list (PineconeVectorStore.item (list float) (gmap str value)) -> str
  -> Index * result Z).

Local Abbreviation kb := (KnowledgeBase.t float Service Index).
Local Abbreviation ingest_document :=
  (KnowledgeBase.ingest_document float zero Service request_embedding Index index_upsert).
Local Abbreviation embed_batch :=
  (OllamaEmbeddings.embed_batch float zero Service request_embedding).
Local Abbreviation upsert_batch :=
  (PineconeVectorStore.upsert_batch (list float) (gmap str value) Index index_upsert).
Local Abbreviation replies := (Spec.replies float Service request_embedding).
Local Abbreviation vector_of := (Spec.vector_of float zero).
Local Abbreviation zip3 := (PineconeVectorStore.zip3 (list float) (gmap str value)).
Local Abbreviation send_all :=
  (Spec.send_all (list float) (gmap str value) Index index_upsert).
Local Abbreviation acknowledged := (Spec.acknowledged (list float) (gmap str value)).
Local Abbreviation sent := PineconeVectorStore.sent.
Local Abbreviation index := PineconeVectorStore.index.
Local Abbreviation data := PineconeVectorStore.data.
Local Abbreviation namespace := PineconeVectorStore.namespace.
Local Abbreviation Store := (PineconeVectorStore.Build_t (list float) (gmap str value) Index).

Lemma semantic_chunk_nil self text :
  SemanticChunker.chunk self text = [] -> strip text = [].
Proof.
  intros Hc. pose proof (semantic_chunk_non_space self text) as Hns.
  rewrite Hc in Hns. simpl in Hns. symmetry in Hns.
  by apply strip_all_space, non_space_nil_all_space.
Qed.

(** [ingest_document] gives up without calling the embedding service or
    the index in two cases: the document could not be processed
    (["Processing failed"]), and its content is empty or all whitespace
    (["No chunks created"]).  For any other content it never reports a
    failure: it succeeds or raises. *)
Theorem ingest_document_rejects (self : kb) (path name file_type : str) size now
    override ns :
  ingest_document self path name file_type size now None override ns
  = (self, Ok (Failure "Processing failed"))
  /\ forall content md,
       let out :=
         ingest_document self path name file_type size now (Some (content, md))
           override ns in
       (strip content = [] -> out = (self, Ok (Failure "No chunks created")))
       /\ (strip content <> [] -> forall error, out.2 <> Ok (Failure error)).
Proof.
  split; [done|]. intros content md. simpl. split.
  - intros Hs. unfold SemanticChunker.chunk. by rewrite Hs.
  - intros Hne error.
    destruct (SemanticChunker.chunk SemanticChunker.default content) as [|c cs] eqn:Hc.
    { by apply semantic_chunk_nil in Hc. }
    destruct (embed_batch _ _ _) as [sv [embeddings|e]]; [|done].
    destruct (chunk_records _ _ _) as [[ids metas]|e]; [|done].
    destruct (upsert_batch _ _ _ _ _ _) as [vs [n|e]]; done.
Qed.






End Ingestion.

Section SearchAndDelete.
Import Spec KnowledgeBase Records.
Context {float Service Index score : Type}.
Context (index_delete : Index -> PineconeVectorStore.deletion value -> Index * result unit).

Local Abbreviation kb := (KnowledgeBase.t float Service Index).
Local Abbreviation delete_document :=
  (KnowledgeBase.delete_document float Service Index index_delete).
Local Abbreviation format_result := (KnowledgeBase.format_result score).

Local Ltac key_ne := apply lit_key_ne; vm_compute; reflexivity.
Local Ltac lookup_lit :=
  repeat first [ rewrite lookup_insert_eq
               | rewrite lookup_insert_ne by key_ne
               | rewrite lookup_empty ].

Lemma filename_dict_lookup m k :
  k <> lit "document_type" -> k <> lit "sector" -> k <> lit "date" ->
  dict_of_filename_metadata m !! k = None.
Proof.
  intros H1 H2 H3. unfold dict_of_filename_metadata.
  by rewrite !lookup_insert_ne, lookup_empty by done.
Qed.

(** The records before [None] values are dropped: a binding of the merged
    metadata wins over the one [ingest_document] writes. *)
Lemma chunk_meta_lookup (path : str) base total i chunk k :
  chunk_meta path base total i chunk !! k
  = match base !! k with
    | Some VNone => None
    | Some v => Some v
    | None =>
        (<[lit "source" := VStr path]>
           (<[lit "chunk_index" := VInt (Z.of_nat i)]>
              (<[lit "total_chunks" := VInt (Z.of_nat total)]>
                 (<[lit "content" := VStr (slice chunk 0 500)]> ∅))) : gmap str value) !! k
    end.
Proof.
  unfold chunk_meta. set (fresh := insert _ _ _).
  destruct (base !! k) as [v|] eqn:Hb.
  - assert (Hu : (base ∪ fresh) !! k = Some v) by by apply lookup_union_Some_l.
    destruct v.
    + apply map_lookup_filter_None. right. intros x Hx. simpl. congruence.
    + by apply map_lookup_filter_Some.
    + by apply map_lookup_filter_Some.
  - destruct (fresh !! k) as [v|] eqn:Hf.
    + apply map_lookup_filter_Some. split; [by rewrite lookup_union_r|]. simpl.
      unfold fresh in Hf.
      repeat (apply lookup_insert_Some in Hf as [[_ <-]|[_ Hf]]; [done|]). done.
    + apply map_lookup_filter_None. left. by apply lookup_union_None.
Qed.

Lemma merge_metadata_lookup (path file_type : str) size now md name override k :
  merge_metadata path file_type size now md name override !! k
  = match override ≫= (fun o => o !! k) with
    | Some v => Some v
    | None =>
        match dict_of_filename_metadata (extract_metadata_from_filename name) !! k with
        | Some v => Some v
        | None =>
            match md !! k with
            | Some v => Some v
            | None =>
                (<[lit "source" := VStr path]>
                   (<[lit "file_type" := VStr file_type]>
                      (<[lit "file_size" := VInt size]>
                         (<[lit "processed_at" := VStr now]> ∅))) : gmap str value) !! k
            end
        end
    end.
Proof.
  unfold merge_metadata.
  assert (Hbase : forall (a b c : gmap str value),
            (a ∪ (b ∪ c)) !! k
            = match a !! k with
              | Some v => Some v
              | None => match b !! k with Some v => Some v | None => c !! k end
              end).
  { intros a b c. rewrite !lookup_union.
    destruct (a !! k), (b !! k), (c !! k); done. }
  destruct override as [o|]; simpl; [|apply Hbase].
  destruct (decide (o = ∅)) as [->|Ho].
  - rewrite bool_decide_eq_true_2, lookup_empty by done. apply Hbase.
  - rewrite bool_decide_eq_false_2 by done. rewrite lookup_union.
    rewrite Hbase. destruct (o !! k) as [v|]; simpl; [|by rewrite (left_id None _)].
    by destruct (match dict_of_filename_metadata _ !! k with Some _ => _ | None => _ end).
Qed.

(** [delete_document] on a connected knowledge base sends one request: a
    delete by the filter [{source: path}].  The records [ingest_document]
    built for that path contain the filter exactly when the merged
    metadata left [source] at the path: a processor or a caller that
    rebinds [source] puts the chunks of the document out of the reach of
    [delete_document]. *)
Theorem delete_document_reaches_source (self : kb) ix (path : str) ns :
  PineconeVectorStore.index (vector_store _ _ _ self) = Some ix ->
  exists filter,
    (delete_document self path ns).1.2 = [PineconeVectorStore.DeleteFilter filter ns]
    /\ forall file_type size now md name override total i chunk,
         filter ⊆ chunk_meta path
                    (merge_metadata path file_type size now md name override)
                    total i chunk
         <-> declared_source path md override = VStr path.
Proof.
  intros Hix. exists {[ lit "source" := VStr path ]}. split.
  { unfold KnowledgeBase.delete_document, PineconeVectorStore.delete. rewrite Hix.
    rewrite bool_decide_eq_false_2 by apply insert_non_empty.
    by destruct (index_delete ix _). }
  intros file_type size now md name override total i chunk.
  rewrite map_singleton_subseteq_l, chunk_meta_lookup, merge_metadata_lookup.
  unfold declared_source.
  rewrite filename_dict_lookup by key_ne.
  destruct (override ≫= _) as [v|].
  { destruct v; split; (done || congruence). }
  destruct (md !! lit "source") as [v|]; simpl.
  { destruct v; split; (done || congruence). }
  by rewrite lookup_insert_eq.
Qed.

(** What [search] shows for a chunk of an ingested document.  When the
    record of a match is the one [ingest_document] built for chunk [i] of
    a document (an ASCII file name, no override, processor metadata that
    leaves the keys of the record alone), the result holds the first 500 characters of the
    chunk, the path, the file type and the two indices; the document type
    and the sector are those of the filename rule, and one the rule did
    not find shows as the empty string. *)
Theorem search_shows_ingested_chunk (m : PineconeVectorStore.query_match score value)
    (path file_type : str) size now md name total i chunk :
  Forall (fun c => (c < 128)%N) name ->
  keeps_own_keys md ->
  PineconeVectorStore.match_metadata m
  = chunk_meta path (merge_metadata path file_type size now md name None) total i chunk ->
  let fm := extract_metadata_from_filename name in
  format_result m
  = {| result_id := PineconeVectorStore.match_id m;
       result_score := PineconeVectorStore.match_score m;
       result_content := VStr (slice chunk 0 500);
       result_metadata :=
         <[lit "source" := VStr path]>
           (<[lit "file_type" := VStr file_type]>
              (<[lit "document_type" := shown (Validators.document_type fm)]>
                 (<[lit "sector" := shown (Validators.sector fm)]>
                    (<[lit "chunk_index" := VInt (Z.of_nat i)]>
                       (<[lit "total_chunks" := VInt (Z.of_nat total)]> ∅))))) |}.
Proof.
  intros _ Hmd Hm fm. unfold KnowledgeBase.format_result, get. rewrite Hm.
  unfold keeps_own_keys, own_keys in Hmd.
  repeat (apply Forall_cons in Hmd as [? Hmd]).
  rewrite !chunk_meta_lookup, !merge_metadata_lookup.
  subst fm. generalize (extract_metadata_from_filename name). intros fm. simpl.
  rewrite !filename_dict_lookup by key_ne.
  unfold dict_of_filename_metadata.
  repeat match goal with H : md !! _ = None |- _ => rewrite H; clear H end.
  lookup_lit. simpl.
  by destruct (Validators.document_type fm), (Validators.sector fm).
Qed.

End SearchAndDelete.

(** * The processors and the batch script *)

Section Processors.
Import Validators DocumentProcessorFactory.

Lemma lower_char_dot c : lower_char c = 46%N <-> c = 46%N.
Proof.
  unfold lower_char, ascii_lower.
  destruct (N.eqb_spec c 8490); [split; intros; subst; done|].
  destruct (is_upper_AZ c) eqn:Hu; [|done].
  unfold is_upper_AZ in Hu. apply andb_true_iff in Hu as [H1 H2].
  apply N.leb_le in H1, H2. lia.
Qed.

Lemma lstrip_dots_lower s :
  KnowledgeBase.lstrip_dots (lower s) = lower (KnowledgeBase.lstrip_dots s).
Proof.
  induction s as [|c s IH]; [done|]. simpl.
  destruct (N.eqb_spec (lower_char c) 46) as [Hl|Hl];
    destruct (N.eqb_spec c 46) as [Hc|Hc]; try done.
  - exfalso. apply Hc. by apply (proj1 (lower_char_dot c)).
  - exfalso. apply Hl. by apply (proj2 (lower_char_dot c)).
Qed.

(** The factory and the metadata schema disagree on one extension.  A
    processor is found for a suffix exactly when
    [DocumentMetadata.validate_file_type] accepts the suffix without its
    dots, or the suffix is [markdown] in some case: a [.markdown] file is
    processed as text, and its file type is refused by the schema. *)
Theorem get_processor_file_types suffix :
  is_Some (get_processor suffix)
  <-> (exists file_type,
         validate_file_type (KnowledgeBase.lstrip_dots suffix) = Ok file_type)
      \/ lower (KnowledgeBase.lstrip_dots suffix) = lit "markdown".
Proof.
  unfold get_processor, processors, can_process, validate_file_type, file_types.
  rewrite lstrip_dots_lower. generalize (lower (KnowledgeBase.lstrip_dots suffix)).
  intros x. unfold supported_formats, member. simpl.
  destruct (decide (x = lit "pdf")) as [->|H1].
  { split; [intros _; left|intros _]; vm_compute; eauto. }
  destruct (decide (x = lit "docx")) as [->|H2].
  { split; [intros _; left|intros _]; vm_compute; eauto. }
  destruct (decide (x = lit "txt")) as [->|H3].
  { split; [intros _; left|intros _]; vm_compute; eauto. }
  destruct (decide (x = lit "md")) as [->|H4].
  { split; [intros _; left|intros _]; vm_compute; eauto. }
  destruct (decide (x = lit "markdown")) as [->|H5].
  { split; [intros _; by right|intros _]; vm_compute; eauto. }
  rewrite !bool_decide_eq_false_2 by done. simpl.
  split; [by intros [? ?]|]. by intros [[? ?]|?].
Qed.

End Processors.

Section Batch.
Import BatchIngest.
Context {World document : Type}.
Context (ingest_document : World -> document -> World * result KnowledgeBase.ingestion).
Context (name : document -> str) (str_of_exception : exn -> string).

Local Abbreviation ingest_one :=
  (BatchIngest.ingest_one World document ingest_document name str_of_exception).
Local Abbreviation ingest_all :=
  (BatchIngest.ingest_all World document ingest_document name str_of_exception).

Lemma ingest_one_counts st doc_path :
  let s := st.2 in
  let s' := (ingest_one st doc_path).2 in
  (success s' + failed s' = success s + failed s + 1)%Z
  /\ (success s <= success s')%Z
  /\ ((failed s' = failed s /\ failed_files s' = failed_files s)
      \/ (failed s' = failed s + 1
          /\ exists error, failed_files s' = failed_files s ++ [(name doc_path, error)]))%Z.
Proof.
  destruct st as [w s]. simpl.
  destruct (ingest_document w doc_path) as [w' [[error|file chunks upserted]|e]]; simpl;
    split_and!; try lia; eauto.
Qed.

Lemma fold_ingest_one_counts documents st :
  let s := st.2 in
  let s' := (fold_left ingest_one documents st).2 in
  (success s' + failed s' = success s + failed s + len documents)%Z
  /\ (success s <= success s')%Z
  /\ exists new,
       failed_files s' = failed_files s ++ new
       /\ (failed s' = failed s + len new)%Z
       /\ List.map fst new `sublist_of` List.map name documents.
Proof.
  revert st. induction documents as [|d documents IH]; intros st; simpl.
  - split_and!; [unfold len; simpl; lia|lia|].
    exists []. rewrite app_nil_r. split_and!; [done|unfold len; simpl; lia|done].
  - destruct (IH (ingest_one st d)) as (Hsum & Hle & new & Hfiles & Hfailed & Hsub).
    destruct (ingest_one_counts st d) as (Hsum1 & Hle1 & Hcase).
    split_and!; [unfold len in *; simpl length; lia|lia|].
    destruct Hcase as [[Hf Hff]|[Hf [error Hff]]].
    + exists new. rewrite Hfiles, Hff. split_and!; [done|lia|by apply sublist_cons].
    + exists ((name d, error) :: new). rewrite Hfiles, Hff, <- app_assoc.
      split_and!; [done|unfold len in *; simpl length; lia|by apply sublist_skip].
Qed.

Local Abbreviation outcomes := (BatchRun.outcomes World document ingest_document).
Local Abbreviation failure := (BatchRun.failure document name str_of_exception).
Local Abbreviation chunks_of := (BatchRun.chunks_of document).

(** The summary after a run from any summary: what the run adds to it. *)
Lemma fold_ingest_one_run documents w s0 :
  let s := (fold_left ingest_one documents (w, s0)).2 in
  let run := outcomes w documents in
  List.map fst run = documents
  /\ failed_files s = failed_files s0 ++ omap failure run
  /\ (failed s = failed s0 + len (omap failure run))%Z
  /\ (success s + failed s = success s0 + failed s0 + len documents)%Z
  /\ (total_chunks s = total_chunks s0 + foldr Z.add 0 (List.map chunks_of run))%Z.
Proof.
  revert w s0. induction documents as [|d documents IH]; intros w s0.
  - simpl. rewrite app_nil_r. unfold len. simpl. split_and!; (done || lia).
  - cbn [fold_left BatchRun.outcomes].
    remember (ingest_one (w, s0) d) as st eqn:Hst.
    unfold BatchIngest.ingest_one in Hst.
    destruct (ingest_document w d) as [w' r] eqn:Hr.
    destruct r as [[error|file chunks upserted]|e]; subst st;
      match goal with
      | |- context [fold_left _ documents (w', ?s1)] =>
          destruct (IH w' s1) as (Hrun & Hfiles & Hfailed & Hsum & Htotal)
      end;
      simpl in Hfiles, Hfailed, Hsum, Htotal;
      (split_and!;
       [simpl; by rewrite Hrun
       |rewrite Hfiles; unfold omap; simpl; by rewrite <- ?app_assoc
       |rewrite Hfailed; unfold len, omap; simpl; lia
       |rewrite Hsum; unfold len; simpl; lia
       |rewrite Htotal; simpl; cbn [BatchRun.chunks_of snd]; lia]).
Qed.

(** The loop of the batch script accounts for every document once.  The
    run calls [ingest_document] on each document in turn; [failed_files]
    holds, in that order, exactly the documents whose call reported a
    failure or raised, each with its error, [failed] counts them,
    [success] counts the others and [total_chunks] adds up the chunks of
    the successes.  No exception of an ingestion leaves the loop. *)
Theorem ingest_all_accounts_for_every_document w documents :
  let s := (ingest_all w documents).2 in
  let run := outcomes w documents in
  (success s + failed s = len documents)%Z
  /\ (0 <= success s)%Z
  /\ failed s = len (failed_files s)
  /\ List.map fst (failed_files s) `sublist_of` List.map name documents
  /\ List.map fst run = documents
  /\ failed_files s = omap failure run
  /\ success s = len (List.filter (fun o => bool_decide (failure o = None)) run)
  /\ total_chunks s = foldr Z.add 0%Z (List.map chunks_of run).
Proof.
  unfold BatchIngest.ingest_all.
  destruct (fold_ingest_one_counts documents
              (w, {| success := 0; failed := 0; total_chunks := 0; failed_files := [] |}))
    as (Hsum & Hle & new & Hfiles & Hfailed & Hsub).
  destruct (fold_ingest_one_run documents w
              {| success := 0; failed := 0; total_chunks := 0; failed_files := [] |})
    as (Hrun & Hfiles' & Hfailed' & _ & Htotal).
  simpl in *. rewrite Hfiles.
  split_and!; [lia|lia|lia|done|done|by rewrite <- Hfiles|..|lia].
  assert (Hcount : forall l : list (document * result KnowledgeBase.ingestion),
            length (List.filter (fun o => bool_decide (failure o = None)) l)
            + length (omap failure l) = length l).
  { unfold omap. induction l as [|o l IHl]; [done|]. simpl.
    destruct (failure o) as [f|]; simpl; lia. }
  specialize (Hcount (outcomes w documents)).
  assert (length (outcomes w documents) = length documents)
    by (by rewrite <- Hrun at 2; rewrite length_map).
  unfold len in *. lia.
Qed.

End Batch.

(** * From the raw text of a document to its chunks *)

Section TextPipeline.
Import Spec Validators.

Lemma non_space_kept_nil (raw : str) :
  non_space (List.filter (fun c => negb (is_stripped_control c)) raw) = []
  <-> Forall (fun c => is_space c = true \/ is_stripped_control c = true) raw.
Proof.
  induction raw as [|c raw IH]; simpl; [by split; [constructor|]|].
  destruct (is_stripped_control c) eqn:Hctl; simpl.
  - rewrite IH. split; [by constructor; [right|]|]. by intros [_ ?]%Forall_cons.
  - destruct (is_space c) eqn:Hs; simpl.
    + rewrite IH. split; [by constructor; [left|]|]. by intros [_ ?]%Forall_cons.
    + split; [done|]. intros [[?|?] _]%Forall_cons; congruence.
Qed.

(** The processors sanitize the text they read and [ingest_document]
    hands the result to the semantic chunker.  The two together lose
    whitespace and the control characters the sanitizer strips, nothing
    else, and keep the order; and they give no chunk exactly for a raw
    text made of such characters only. *)
Theorem sanitized_text_chunks self raw :
  let chunks := SemanticChunker.chunk self (sanitize_text raw) in
  non_space (concat chunks)
  = non_space (List.filter (fun c => negb (is_stripped_control c)) raw)
  /\ (chunks = []
      <-> Forall (fun c => is_space c = true \/ is_stripped_control c = true) raw).
Proof.
  intros chunks.
  assert (Hkeep : non_space (concat chunks)
                  = non_space (List.filter (fun c => negb (is_stripped_control c)) raw)).
  { unfold chunks. by rewrite semantic_chunk_non_space, sanitize_text_non_space. }
  split; [done|]. rewrite <- non_space_kept_nil, <- Hkeep. split.
  - by intros ->.
  - intros Hns. unfold chunks in *. rewrite semantic_chunk_non_space in Hns.
    unfold SemanticChunker.chunk.
    by rewrite (strip_all_space _ (non_space_nil_all_space _ Hns)).
Qed.

End TextPipeline.

(** * The fixed-size chunker on ordinary configurations *)

Section FixedSizeRaises.
Import Spec FixedSizeChunker.

Lemma startswith_head a p (s : str) :
  startswith (a :: p) s = true -> s !! 0 = Some a.
Proof.
  destruct s as [|c s]; simpl; [done|].
  intros [->%N.eqb_eq _]%andb_true_iff. done.
Qed.

Lemma startswith_length p (s : str) : startswith p s = true -> length p <= length s.
Proof.
  revert s. induction p as [|a p IH]; intros [|c s]; simpl; try done; [lia|].
  intros [_ H]%andb_true_iff. apply IH in H. lia.
Qed.

(** An offset [finditer] reports is the end of an occurrence of the
    pattern. *)
Lemma finditer_go_occurrence a p skip pos s e :
  e ∈ finditer_go (a :: p) skip pos s ->
  exists k, e = pos + k + length (a :: p)
            /\ s !! k = Some a
            /\ k + length (a :: p) <= length s.
Proof.
  revert skip pos. induction s as [|c s IH]; intros skip pos; [by intros ?%elem_of_nil|].
  cbn [finditer_go]. destruct skip as [|n].
  - destruct (startswith (a :: p) (c :: s)) eqn:Hst.
    + intros [->|Hin]%elem_of_cons.
      * exists 0. split_and!; [lia|by apply startswith_head in Hst|].
        apply startswith_length in Hst. lia.
      * destruct (IH _ _ Hin) as (k & -> & Hk & Hlen).
        exists (S k). split_and!; [lia|done|simpl in *; lia].
    + intros Hin. destruct (IH _ _ Hin) as (k & -> & Hk & Hlen).
      exists (S k). split_and!; [lia|done|simpl in *; lia].
  - intros Hin. destruct (IH _ _ Hin) as (k & -> & Hk & Hlen).
    exists (S k). split_and!; [lia|done|simpl in *; lia].
Qed.

Lemma last_sentence_end_occurrence patterns search_text m :
  last_sentence_end patterns search_text = Some m ->
  exists pattern, pattern ∈ patterns /\ m ∈ finditer_ends pattern search_text.
Proof.
  induction patterns as [|pattern rest IH]; simpl; [done|].
  destruct (last (finditer_ends pattern search_text)) as [e|] eqn:Hl.
  - intros [= <-]. exists pattern. split; [by left|by apply last_Some_elem_of].
  - intros H. destruct (IH H) as (q & Hq & Hm). exists q. split; [by right|done].
Qed.

(** A sentence ending found in the search text ends two characters after
    a full stop, an exclamation mark or a question mark. *)
Lemma sentence_end_punctuation search_text m :
  last_sentence_end sentence_endings search_text = Some m ->
  2 <= m <= length search_text
  /\ exists c, search_text !! (m - 2) = Some c /\ is_space c = false.
Proof.
  intros H. apply last_sentence_end_occurrence in H as (pattern & Hp & Hm).
  unfold sentence_endings in Hp.
  repeat (apply elem_of_cons in Hp as [->|Hp];
          [apply finditer_go_occurrence in Hm as (k & -> & Hk & Hlen); simpl in *;
           split; [lia|]; replace (k + 2 - 2) with k by lia;
           eexists; split; [exact Hk|reflexivity]|]).
  by apply elem_of_nil in Hp.
Qed.

Lemma slice_lookup (text : str) (s e : Z) (i : nat) c :
  (0 <= s <= Z.of_nat i)%Z -> (Z.of_nat i < e)%Z ->
  text !! i = Some c -> c ∈ slice text s e.
Proof.
  intros Hs He Hc. replace e with (s + (e - s))%Z by lia.
  rewrite slice_window by lia.
  apply (list_elem_of_lookup_2 _ (i - Z.to_nat s)).
  apply lookup_take_Some. split; [|lia].
  rewrite lookup_drop. by replace (Z.to_nat s + (i - Z.to_nat s)) with i by lia.
Qed.

Lemma strip_non_space (l : str) c :
  c ∈ l -> is_space c = false -> strip l <> [].
Proof.
  intros Hin Hc Hs. apply strip_nil_all_space in Hs.
  rewrite Forall_forall in Hs. specialize (Hs c Hin). congruence.
Qed.

Lemma first_non_space (text : str) :
  strip text <> [] ->
  exists w c, text !! w = Some c /\ is_space c = false
              /\ Forall (fun c => is_space c = true) (take w text).
Proof.
  intros Hne. destruct (strip_split text) as (ws1 & ws2 & Hs & H1 & _).
  destruct (strip_trimmed text) as [Hclean _].
  destruct (strip text) as [|c r]; [done|]. simpl in Hclean.
  exists (length ws1), c. rewrite Hs. split_and!.
  - by apply list_lookup_middle.
  - done.
  - by rewrite take_app_length.
Qed.

(** The end of the window of a pass, and what the pass does with it. *)
Lemma iteration_cases self text (start : Z) :
  exists end_ : Z,
    (end_ = start + chunk_size self
     \/ exists m,
          last_sentence_end sentence_endings
            (slice text (start + chunk_size self - int_of_fifth (chunk_size self))
               (start + chunk_size self + 50)) = Some m
          /\ end_ = start + chunk_size self - int_of_fifth (chunk_size self)
                    + Z.of_nat m)%Z
    /\ iteration self text (start, [])
       = if truthy (strip (slice text start end_)) then Raise TypeError
         else Ok ((end_ - chunk_overlap self)%Z, []).
Proof.
  unfold iteration.
  destruct (start + chunk_size self <? Z.of_nat (length text))%Z.
  - destruct (last_sentence_end _ _) as [m|] eqn:Hm.
    + eexists. split; [right; eauto|]. by destruct (truthy _).
    + eexists. split; [by left|]. by destruct (truthy _).
  - eexists. split; [by left|]. by destruct (truthy _).
Qed.

(** A pass from a position at or before the first character that is not
    whitespace raises, or moves on without reaching beyond it. *)
Lemma iteration_raises_or_advances self text (start : Z) (w : nat) c :
  (0 <= chunk_overlap self < chunk_size self)%Z ->
  text !! w = Some c -> is_space c = false ->
  Forall (fun c => is_space c = true) (take w text) ->
  (0 <= start <= Z.of_nat w)%Z ->
  iteration self text (start, []) = Raise TypeError
  \/ exists start' : Z,
       iteration self text (start, []) = Ok (start', [])
       /\ (start < start' <= Z.of_nat w)%Z.
Proof.
  intros Hcfg Hw Hc Hbefore Hstart.
  destruct (iteration_cases self text start) as (end_ & Hend & ->).
  assert (Hfifth : (0 <= int_of_fifth (chunk_size self) < chunk_size self)%Z).
  { unfold int_of_fifth. split; [apply Z.quot_pos; lia|apply Z.quot_lt; lia]. }
  destruct Hend as [->|(m & Hm & ->)].
  - destruct (Z.lt_ge_cases (Z.of_nat w) (start + chunk_size self)) as [Hin|Hout].
    + left.
      assert (Hne : strip (slice text start (start + chunk_size self)) <> []).
      { apply (strip_non_space _ c); [|done]. by apply (slice_lookup _ _ _ w). }
      by destruct (strip _).
    + right. eexists.
      assert (Hsp : strip (slice text start (start + chunk_size self)) = []).
      { apply strip_all_space. rewrite slice_window by lia.
        rewrite take_drop_commute. apply Forall_drop.
        replace (take _ text)
          with (take (Z.to_nat start + Z.to_nat (chunk_size self)) (take w text))
          by (rewrite take_take; f_equal; lia).
        by apply Forall_take. }
      rewrite Hsp. simpl. split; [done|lia].
  - left. apply sentence_end_punctuation in Hm as [Hm (p & Hp & Hpunct)].
    replace (start + chunk_size self + 50)%Z
      with (start + chunk_size self - int_of_fifth (chunk_size self)
            + (int_of_fifth (chunk_size self) + 50))%Z in Hp by lia.
    rewrite slice_window in Hp by lia.
    apply lookup_take_Some in Hp as [Hp _]. rewrite lookup_drop in Hp.
    assert (Hne : strip (slice text start
                           (start + chunk_size self - int_of_fifth (chunk_size self)
                            + Z.of_nat m)) <> []).
    { apply (strip_non_space _ p); [|done].
      apply (slice_lookup _ _ _
               (Z.to_nat (start + chunk_size self - int_of_fifth (chunk_size self))
                + (m - 2))); [lia|lia|exact Hp]. }
    by destruct (strip _).
Qed.

Lemma loop_raises fuel self text (start : Z) (w : nat) c :
  (0 <= chunk_overlap self < chunk_size self)%Z ->
  text !! w = Some c -> is_space c = false ->
  Forall (fun c => is_space c = true) (take w text) ->
  (0 <= start <= Z.of_nat w)%Z ->
  (Z.of_nat w - start < Z.of_nat fuel)%Z ->
  loop fuel self text (start, []) = Some (Raise TypeError).
Proof.
  intros Hcfg Hw Hc Hbefore. revert start.
  assert (Hlen : w < length text) by (by apply lookup_lt_Some in Hw).
  induction fuel as [|fuel IH]; intros start Hstart Hfuel; [lia|].
  cbn [loop fst]. destruct (Z.ltb_spec start (Z.of_nat (length text))); [|lia].
  destruct (iteration_raises_or_advances self text start w c Hcfg Hw Hc Hbefore Hstart)
    as [->|(start' & -> & Hadv)]; [done|].
  apply IH; lia.
Qed.

(** With [0 <= chunk_overlap < chunk_size < 2^53], as in the default
    configuration, the fixed-size chunker is of no use: on every text that
    is not all whitespace [chunk] raises [TypeError], in at most as many
    passes as the text has characters. *)
Theorem fixed_chunk_raises fuel self text :
  (0 <= chunk_overlap self < chunk_size self)%Z ->
  (chunk_size self < 2 ^ 53)%Z ->
  strip text <> [] ->
  length text <= fuel ->
  chunk fuel self text = Some (Raise TypeError).
Proof.
  intros Hcfg _ Hne Hfuel. unfold chunk.
  destruct (truthy (strip text)) eqn:Ht; [|by apply truthy_false in Ht]. simpl.
  destruct (first_non_space text Hne) as (w & c & Hw & Hc & Hbefore).
  assert (Hlen : w < length text) by (by apply lookup_lt_Some in Hw).
  apply (loop_raises fuel self text 0 w c); try done; lia.
Qed.

End FixedSizeRaises.

(** * Instances of the further properties *)

Lemma semantic_short_text_one_chunk_witness :
  SemanticChunker.chunk Demo.semantic_1000_500 Demo.three_sentences
  = [join SemanticChunker.space (SemanticChunker._split_sentences Demo.three_sentences)].
Proof.
  apply (semantic_short_text_one_chunk Demo.semantic_1000_500 Demo.three_sentences).
  - vm_compute. discriminate.
  - vm_compute. discriminate.
Defined.

Lemma recursive_short_text_one_chunk_witness :
  RecursiveChunker.chunk Demo.recursive_3 (lit "ab ") = [strip (lit "ab ")].
Proof.
  apply (recursive_short_text_one_chunk Demo.recursive_3 (lit "ab ")).
  - vm_compute. discriminate.
  - vm_compute. discriminate.
  - vm_compute. discriminate.
Defined.

Lemma recursive_chunks_bounded_witness :
  Forall (fun c => (Z.of_nat (length c) <= RecursiveChunker.chunk_size Demo.recursive_3)%Z)
    (RecursiveChunker.chunk Demo.recursive_3 (lit "Gold is mined.")).
Proof.
  apply (recursive_chunks_bounded Demo.recursive_3 (lit "Gold is mined.")).
  - vm_compute. discriminate.
  - vm_compute. reflexivity.
Defined.

Lemma recursive_chunks_shape_witness :
  Forall (fun c => Spec.trimmed c /\ c <> [] /\ Validators.validate_content c = Ok c)
    (RecursiveChunker.chunk Demo.recursive_3 (lit "Gold is mined.")).
Proof.
  apply (recursive_chunks_shape Demo.recursive_3 (lit "Gold is mined.")).
  vm_compute. discriminate.
Defined.

Lemma chunk_never_returns_a_chunk_witness :
  FixedSizeChunker.chunk 2 Demo.skipping (lit " a") = Some (Ok [])
  /\ ([] : list str) = [].
Proof.
  split; [vm_compute; reflexivity|].
  apply (chunk_never_returns_a_chunk 2 Demo.skipping (lit " a") []).
  vm_compute. reflexivity.
Defined.

Lemma fixed_chunk_raises_witness :
  FixedSizeChunker.chunk 39 FixedSizeChunker.default
    (lit "Regional mining policy. It covers gold.")
  = Some (Raise TypeError).
Proof.
  apply (fixed_chunk_raises 39 FixedSizeChunker.default
           (lit "Regional mining policy. It covers gold.")).
  - simpl. lia.
  - vm_compute. reflexivity.
  - vm_compute. discriminate.
  - vm_compute. lia.
Defined.

Lemma filename_date_witness :
  let filename := lit "ECOWAS_Mining_Vision_2025.txt" in
  let d := Validators.date (Validators.extract_metadata_from_filename filename) in
  (Spec.occurs Spec.is_iso_date filename ->
   exists x pre post, d = Some x /\ Spec.is_iso_date x /\ filename = pre ++ x ++ post)
  /\ (~ Spec.occurs Spec.is_iso_date filename -> Spec.occurs Spec.is_year filename ->
      exists x pre post, d = Some x /\ Spec.is_year x /\ filename = pre ++ x ++ post)
  /\ (~ Spec.occurs Spec.is_year filename -> d = None).
Proof.
  apply (filename_date (lit "ECOWAS_Mining_Vision_2025.txt")).
  vm_compute. repeat (constructor; [reflexivity|]). constructor.
Defined.

Lemma filename_sector_validates_witness :
  Validators.validate_sector (Some (lit "minerals")) = Ok (Some (lit "minerals")).
Proof.
  apply (filename_sector_validates (lit "ECOWAS_Mining_Vision_2025.txt") (lit "minerals")).
  vm_compute. reflexivity.
Defined.

Lemma embed_batch_any_batch_size_witness :
  OllamaEmbeddings.embed_batch Z 0%Z nat Demo.flaky 0 Demo.five_texts 2
  = OllamaEmbeddings.embed_batch Z 0%Z nat Demo.flaky 0 Demo.five_texts 32.
Proof. apply (embed_batch_any_batch_size 0%Z Demo.flaky 0 Demo.five_texts 2 32); lia. Defined.

Lemma embed_batch_non_positive_witness :
  OllamaEmbeddings.embed_batch Z 0%Z nat Demo.flaky 0 Demo.five_texts (-1)
  = (0, if (-1 =? 0)%Z
        then Raise (ValueError "range() arg 3 must not be zero")
        else Ok []).
Proof. apply (embed_batch_non_positive 0%Z Demo.flaky 0 Demo.five_texts (-1)). lia. Defined.

Lemma embed_batch_dimension_witness :
  exists vectors,
    (OllamaEmbeddings.embed_batch Z 0%Z nat Demo.nomic 0 Demo.five_texts 32).2 = Ok vectors
    /\ Forall (fun v => length v = 768
                        /\ Validators.validate_embedding (Some v) = Ok (Some v)) vectors.
Proof.
  apply (embed_batch_dimension 0%Z Demo.nomic 0 Demo.five_texts 32).
  - lia.
  - vm_compute. repeat (constructor; [reflexivity || exact I|]). constructor.
Defined.

Lemma upsert_batch_unconnected_witness :
  PineconeVectorStore.upsert_batch nat nat nat Demo.counting_index Demo.unconnected
    [1; 2] [lit "a"; lit "b"] [7; 8] 100 []
  = (Demo.unconnected,
     Raise (ValueError "Index not initialized. Call create_index() first.")).
Proof.
  apply (upsert_batch_unconnected Demo.counting_index Demo.unconnected
           [1; 2] [lit "a"; lit "b"] [7; 8] 100 []).
  - reflexivity.
  - lia.
Defined.

Lemma upsert_batch_surplus_ignored_witness :
  PineconeVectorStore.upsert_batch nat nat nat Demo.counting_index Demo.connected
    [1; 2] [lit "a"; lit "b"; lit "c"] [7; 8; 9; 10] 2 []
  = PineconeVectorStore.upsert_batch nat nat nat Demo.counting_index Demo.connected
      [1; 2] (take 2 [lit "a"; lit "b"; lit "c"]) (take 2 [7; 8; 9; 10]) 2 [].
Proof.
  apply (upsert_batch_surplus_ignored Demo.counting_index Demo.connected
           [1; 2] [lit "a"; lit "b"; lit "c"] [7; 8; 9; 10] 2 []).
  - lia.
  - exists 1%Z. reflexivity.
Defined.


Lemma delete_document_reaches_source_witness :
  exists filter,
    (KnowledgeBase.delete_document Z nat nat Demo.record_delete
       Demo.knowledge_base Demo.path []).1.2
    = [PineconeVectorStore.DeleteFilter filter []]
    /\ forall file_type size now md name override total i chunk,
         filter ⊆ KnowledgeBase.chunk_meta Demo.path
                    (KnowledgeBase.merge_metadata Demo.path file_type size now md name
                       override)
                    total i chunk
         <-> Records.declared_source Demo.path md override = KnowledgeBase.VStr Demo.path.
Proof.
  apply (delete_document_reaches_source Demo.record_delete Demo.knowledge_base 0
           Demo.path []).
  reflexivity.
Defined.

Lemma search_shows_ingested_chunk_witness :
  let fm :=
    Validators.extract_metadata_from_filename (lit "ECOWAS_Mining_Vision_2025.txt") in
  KnowledgeBase.format_result Z Demo.first_match
  = {| KnowledgeBase.result_id := PineconeVectorStore.match_id Demo.first_match;
       KnowledgeBase.result_score := PineconeVectorStore.match_score Demo.first_match;
       KnowledgeBase.result_content :=
         KnowledgeBase.VStr (slice (lit "First sentence.") 0 500);
       KnowledgeBase.result_metadata :=
         <[lit "source" := KnowledgeBase.VStr Demo.path]>
           (<[lit "file_type" := KnowledgeBase.VStr (lit "txt")]>
              (<[lit "document_type" := Records.shown (Validators.document_type fm)]>
                 (<[lit "sector" := Records.shown (Validators.sector fm)]>
                    (<[lit "chunk_index" := KnowledgeBase.VInt (Z.of_nat 0)]>
                       (<[lit "total_chunks" := KnowledgeBase.VInt (Z.of_nat 2)]>
                          ∅))))) |}.
Proof.
  apply (search_shows_ingested_chunk Demo.first_match Demo.path (lit "txt") 2048
           (lit "2025-03-01T10:00:00") ∅ (lit "ECOWAS_Mining_Vision_2025.txt") 2 0
           (lit "First sentence.")).
  - vm_compute. repeat (constructor; [reflexivity|]). constructor.
  - unfold Records.keeps_own_keys, Records.own_keys.
    repeat (constructor; [apply lookup_empty|]). constructor.
  - reflexivity.
Defined.

(** * What the chunkers keep of the text *)

Section RecursivePieces.
Import Spec Pieces RecursiveChunker.
Variable self : RecursiveChunker.t.

Lemma join_app sep (xs ys : list str) :
  xs <> [] -> ys <> [] -> join sep (xs ++ ys) = join sep xs ++ sep ++ join sep ys.
Proof.
  intros Hx Hy. induction xs as [|x [|x' xs] IH]; [done| |].
  - simpl app. by rewrite join_cons.
  - change ((x :: x' :: xs) ++ ys) with (x :: (x' :: xs) ++ ys).
    rewrite !join_cons by done. rewrite IH by done. by rewrite <- !app_assoc.
Qed.

Lemma strip_strip (s : str) : strip (strip s) = strip s.
Proof. apply trimmed_strip, strip_trimmed. Qed.

Lemma content_app a b : content (a ++ b) = content a ++ content b.
Proof. unfold content. by rewrite List.filter_app, List.map_app. Qed.

Lemma content_content l : content (content l) = content l.
Proof.
  unfold content, has_content. induction l as [|p l IH]; [done|].
  simpl. destruct (truthy (strip p)) eqn:Hp; [|done].
  simpl. rewrite strip_strip, Hp. simpl. by rewrite strip_strip, IH.
Qed.

Lemma content_has_content l : Forall (fun c => has_content c = true) (content l).
Proof.
  unfold content, has_content. induction l as [|p l IH]; [constructor|].
  simpl. destruct (truthy (strip p)) eqn:Hp; [|done].
  simpl. constructor; [by rewrite strip_strip|done].
Qed.

Lemma content_all l :
  Forall (fun c => has_content c = true) l -> content l = List.map strip l.
Proof.
  unfold content, has_content. induction 1 as [|p l Hp _ IH]; [done|].
  simpl. rewrite Hp. simpl. by rewrite IH.
Qed.

Lemma cut_at_whole separators text : cut_at separators text [text].
Proof. exists text, []. unfold woven. simpl. by rewrite app_nil_r. Qed.

Lemma falls_into_whole separators text : falls_into separators text [text].
Proof. exists [text]. split; [apply cut_at_whole|done]. Qed.

Lemma falls_into_more separator separators text out :
  falls_into separators text out -> falls_into (separator :: separators) text out.
Proof.
  intros (pieces & (first & rest & Ht & Hrest & Hp) & Hc).
  exists pieces. split; [|done]. exists first, rest. split_and!; [done| |done].
  eapply Forall_impl; [exact Hrest|]. intros p Hin. by right.
Qed.

(** Two texts that fall into pieces, with a separator between them. *)
Lemma falls_into_app separator separators text1 out1 text2 out2 :
  separator ∈ separators ->
  falls_into separators text1 out1 -> falls_into separators text2 out2 ->
  falls_into separators (text1 ++ separator ++ text2) (out1 ++ out2).
Proof.
  intros Hsep (pieces1 & (first1 & rest1 & -> & Hr1 & ->) & Hc1)
              (pieces2 & (first2 & rest2 & -> & Hr2 & ->) & Hc2).
  exists ((first1 :: List.map snd rest1) ++ (first2 :: List.map snd rest2)). split.
  - exists first1, (rest1 ++ (separator, first2) :: rest2). split_and!.
    + unfold woven. rewrite List.map_app, concat_app. simpl.
      by rewrite <- !app_assoc.
    + apply Forall_app. split; [done|]. by constructor.
    + by rewrite List.map_app.
  - by rewrite !content_app, Hc1, Hc2.
Qed.

Section Level.
Variables (separator : str) (remaining : list str).
Hypothesis recurse_falls :
  forall text, falls_into remaining text (_recursive_split self remaining text).

Local Abbreviation more := (negb (bool_decide (remaining = []))).
Local Abbreviation recurse := (_recursive_split self remaining).
Local Abbreviation seps := (separator :: remaining).

Lemma save_falls_into current :
  current <> [] ->
  falls_into seps (join separator current) (save self separator more recurse current).
Proof.
  intros Hne. unfold save. destruct current as [|x xs]; [done|].
  destruct (_ && _).
  - apply falls_into_more, recurse_falls.
  - apply falls_into_whole.
Qed.

(** The chunks saved so far and the current chunk, after the splits
    [processed]. *)
Local Abbreviation level_invariant processed a :=
  (exists saved,
     processed = saved ++ current_chunk a
     /\ (processed <> [] -> current_chunk a <> [])
     /\ (saved = [] -> chunks a = [])
     /\ (saved <> [] -> falls_into seps (join separator saved) (chunks a))).

Lemma saved_falls_into processed a :
  level_invariant processed a ->
  processed <> [] ->
  falls_into seps (join separator processed)
    (chunks a ++ save self separator more recurse (current_chunk a)).
Proof.
  intros (saved & -> & Hcur & Hnil & Hsaved) Hne. specialize (Hcur Hne).
  destruct saved as [|s saved].
  - rewrite Hnil by done. simpl. by apply save_falls_into.
  - rewrite join_app by done. apply falls_into_app; [by left|by apply Hsaved|].
    by apply save_falls_into.
Qed.

Lemma step_invariant processed a split :
  level_invariant processed a ->
  level_invariant (processed ++ [split]) (step self separator more recurse a split).
Proof.
  intros Hinv. unfold step. destruct (_ <=? _)%Z; simpl.
  - destruct Hinv as (saved & -> & Hcur & Hnil & Hsaved).
    exists saved. simpl. split_and!; [by rewrite app_assoc| |done|done].
    intros _. by destruct (current_chunk a).
  - exists processed. simpl. split_and!; [done|done| |].
    + intros ->. destruct Hinv as (saved & Hp & _ & Hnil & _).
      symmetry in Hp. apply app_eq_nil in Hp as [-> ->]. by rewrite Hnil.
    + intros Hne. by apply saved_falls_into.
Qed.

Lemma fold_step_invariant splits processed a :
  level_invariant processed a ->
  level_invariant (processed ++ splits)
    (fold_left (step self separator more recurse) splits a).
Proof.
  revert processed a. induction splits as [|x splits IH]; intros processed a Hinv.
  - by rewrite app_nil_r.
  - simpl. replace (processed ++ x :: splits) with ((processed ++ [x]) ++ splits)
      by (by rewrite <- app_assoc).
    apply IH. by apply step_invariant.
Qed.

Lemma level_falls_into text :
  falls_into seps text (_recursive_split self seps text).
Proof.
  cbn [_recursive_split].
  set (splits := if truthy separator then _ else _).
  assert (Hjoin : join separator splits = text).
  { unfold splits. destruct (truthy separator) eqn:Hsep.
    - apply join_split. by apply truthy_true.
    - apply truthy_false in Hsep as ->.
      by rewrite join_empty_separator, characters_concat. }
  pose proof (fold_step_invariant splits []
                {| chunks := []; current_chunk := []; current_size := 0 |}) as Hinv.
  simpl in Hinv.
  set (a := fold_left _ splits _) in *.
  assert (Hfalls : falls_into seps text
                     (chunks a ++ save self separator more recurse (current_chunk a))).
  { destruct splits as [|x xs] eqn:Hs.
    - subst a. simpl in *. subst text. apply (falls_into_whole seps []) .
    - rewrite <- Hjoin. apply saved_falls_into; [|done].
      apply Hinv. exists []. by split_and!. }
  destruct Hfalls as (pieces & Hcut & Hc).
  exists pieces. split; [done|].
  change (List.map strip (List.filter _ ?l)) with (content l).
  by rewrite content_content.
Qed.

End Level.

Lemma recursive_split_falls_into separators text :
  falls_into separators text (_recursive_split self separators text).
Proof.
  revert text. induction separators as [|separator remaining IH]; intros text.
  - simpl. destruct (truthy (strip text)) eqn:Ht; [apply falls_into_whole|].
    exists [text]. split; [apply cut_at_whole|].
    unfold content, has_content. simpl. by rewrite Ht.
  - by apply level_falls_into.
Qed.

Lemma recursive_split_has_content separators text :
  Forall (fun c => has_content c = true) (_recursive_split self separators text).
Proof.
  destruct separators as [|separator remaining].
  - simpl. destruct (truthy (strip text)) eqn:Ht; by repeat constructor.
  - cbn [_recursive_split]. apply content_has_content.
Qed.

(** The recursive chunker cuts the text at occurrences of its separators
    and returns the pieces. *)
Lemma recursive_chunk_pieces text :
  exists pieces,
    cut_at (separators self) text pieces
    /\ List.map strip (chunk self text) = content pieces.
Proof.
  unfold chunk. destruct (truthy (strip text)) eqn:Ht; simpl.
  - destruct (recursive_split_falls_into (separators self) text) as (pieces & Hcut & Hc).
    exists pieces. split; [done|].
    by rewrite <- Hc, (content_all _ (recursive_split_has_content _ _)).
  - exists [text]. split; [apply cut_at_whole|].
    unfold content, has_content. simpl. by rewrite Ht.
Qed.

End RecursivePieces.

Section Coverage.
Import Spec Pieces.

Lemma covers_of_non_space text chunks :
  non_space (concat chunks) = non_space text -> covers text chunks.
Proof.
  intros H c Hc Hs.
  assert (Hin : In c (non_space text)).
  { apply filter_In. split; [by apply list_elem_of_In|by rewrite Hs]. }
  rewrite <- H in Hin. apply filter_In in Hin as [Hin _]. by apply list_elem_of_In.
Qed.

Lemma non_space_content pieces :
  non_space (concat (content pieces)) = non_space (concat pieces).
Proof.
  unfold content. rewrite non_space_stripped_lines.
  induction pieces as [|p pieces IH]; [done|].
  simpl. unfold has_content at 1. destruct (truthy (strip p)) eqn:Hp; simpl.
  - by rewrite !non_space_app, IH.
  - apply truthy_false, strip_nil_all_space, non_space_all_space in Hp.
    by rewrite non_space_app, Hp, IH.
Qed.

(** C2, as the code has it.  The chunks of the semantic chunker hold the
    characters of the text that are not whitespace, all of them, in their
    order and once; so they cover the text.  The recursive chunker cuts
    the text at occurrences of its separators: one occurrence is taken out
    at each cut, and the chunks are the pieces between the cuts that have
    content, in their order, without the whitespace at their ends.  So
    the characters it drops are whitespace and those of the separator
    occurrences at its cuts; in particular it keeps, in order and once,
    every character that is neither whitespace nor a character of a
    separator. *)
Theorem chunkers_keep_content (sem : SemanticChunker.t) (rec : RecursiveChunker.t)
    (text : str) :
  non_space (concat (SemanticChunker.chunk sem text)) = non_space text
  /\ covers text (SemanticChunker.chunk sem text)
  /\ List.filter (kept (RecursiveChunker.separators rec))
       (concat (RecursiveChunker.chunk rec text))
     = List.filter (kept (RecursiveChunker.separators rec)) text
  /\ exists pieces,
       cut_at (RecursiveChunker.separators rec) text pieces
       /\ List.map strip (RecursiveChunker.chunk rec text) = content pieces
       /\ non_space (concat (RecursiveChunker.chunk rec text))
          = non_space (concat pieces).
Proof.
  split_and!.
  - apply semantic_chunk_non_space.
  - apply covers_of_non_space, semantic_chunk_non_space.
  - apply recursive_chunk_only_K.
    + apply kept_not_space.
    + apply kept_not_separator.
  - destruct (recursive_chunk_pieces rec text) as (pieces & Hcut & Hc).
    exists pieces. split_and!; [done..|].
    rewrite <- (non_space_stripped_lines (RecursiveChunker.chunk rec text)).
    by rewrite Hc, non_space_content.
Qed.

(** C2, as the specification states it, fails for the recursive chunker:
    with the default separators and [chunk_size = 3], the text
    ["aaa. bbb"] is cut at [". "] into ["aaa"] and ["bbb"], and the full
    stop is in neither. *)
Lemma recursive_chunk_drops_full_stop :
  RecursiveChunker.chunk Demo.recursive_3 (lit "aaa. bbb") = [lit "aaa"; lit "bbb"]
  /\ ~ covers (lit "aaa. bbb")
         (RecursiveChunker.chunk Demo.recursive_3 (lit "aaa. bbb")).
Proof.
  split; [vm_compute; reflexivity|].
  intros H. specialize (H 46%N).
  assert (Hin : 46%N ∈ concat (RecursiveChunker.chunk Demo.recursive_3 (lit "aaa. bbb"))).
  { apply H; [|reflexivity]. apply list_elem_of_In. vm_compute. tauto. }
  apply list_elem_of_In in Hin. vm_compute in Hin.
  repeat destruct Hin as [Hin|Hin]; try discriminate Hin. exact Hin.
Qed.

(** A text whose full stops are not at a cut keeps them all: with room
    for the whole text the recursive chunker returns it as one chunk. *)
Example recursive_chunk_keeps_inner_full_stops :
  RecursiveChunker.chunk (RecursiveChunker.init 1000 0 None) (lit "U.S.A. v1.2 is out.")
  = [lit "U.S.A. v1.2 is out."].
Proof. vm_compute. reflexivity. Qed.

End Coverage.

(** * The ids of the chunks of a document *)

Section ChunkIdCollisions.
Import Spec KnowledgeBase.
Local Open Scope Z_scope.

Lemma encode_app_inv a b x :
  Hashlib.encode (a ++ b) = Some x ->
  exists y z, Hashlib.encode a = Some y /\ Hashlib.encode b = Some z /\ x = y ++ z.
Proof.
  revert x. induction a as [|c a IH]; intros x H.
  - exists [], x. by split_and!.
  - simpl in H |- *. destruct (Hashlib.utf8_char c) as [u|]; [|done].
    destruct (Hashlib.encode (a ++ b)) as [x'|] eqn:Hx; [|done].
    destruct (IH x' eq_refl) as (y & z & -> & Hz & ->). injection H as <-.
    exists (u ++ y), z. split_and!; [done|done|by rewrite app_assoc].
Qed.

(** The decimal digits and the sign are single bytes. *)
Lemma encode_uint_bytes d :
  Hashlib.encode
    (List.map Ascii.N_of_ascii (String.list_ascii_of_string (NilEmpty.string_of_uint d)))
  = Some (List.map Z.of_N
            (List.map Ascii.N_of_ascii
               (String.list_ascii_of_string (NilEmpty.string_of_uint d)))).
Proof.
  induction d as [|d IH|d IH|d IH|d IH|d IH|d IH|d IH|d IH|d IH|d IH];
    [done|..]; cbn [NilEmpty.string_of_uint String.list_ascii_of_string
                    List.map Hashlib.encode];
    rewrite IH; reflexivity.
Qed.

Lemma encode_int_bytes n :
  Hashlib.encode (str_of_int n) = Some (List.map Z.of_N (str_of_int n)).
Proof.
  unfold str_of_int. destruct (Z.to_int n) as [d|d].
  - apply encode_uint_bytes.
  - cbn [NilEmpty.string_of_int String.list_ascii_of_string List.map Hashlib.encode].
    rewrite encode_uint_bytes. reflexivity.
Qed.

Lemma map_of_N_inj (a b : list N) : List.map Z.of_N a = List.map Z.of_N b -> a = b.
Proof.
  revert b. induction a as [|x a IH]; intros [|y b] H; try done.
  simpl in H. injection H as Hxy Hab. f_equal; [lia|by apply IH].
Qed.

(** The bytes hashed for two different indices of a document differ. *)
Lemma hashed_bytes_differ (file_path : str) (i j : Z) a b :
  i <> j ->
  Hashlib.encode (chunk_id_content file_path i) = Some a ->
  Hashlib.encode (chunk_id_content file_path j) = Some b ->
  a <> b.
Proof.
  unfold chunk_id_content. intros Hij Ha Hb Hab. subst b.
  apply encode_app_inv in Ha as (p1 & r1 & Hp1 & Hr1 & ->).
  apply encode_app_inv in Hb as (p2 & r2 & Hp2 & Hr2 & Heq).
  rewrite Hp1 in Hp2. injection Hp2 as <-. apply app_inv_head in Heq. subst r2.
  apply encode_app_inv in Hr1 as (u1 & e1 & Hu1 & He1 & ->).
  apply encode_app_inv in Hr2 as (u2 & e2 & Hu2 & He2 & Heq).
  rewrite Hu1 in Hu2. injection Hu2 as <-. apply app_inv_head in Heq. subst e2.
  rewrite encode_int_bytes in He1, He2.
  apply Hij, str_of_int_inj, map_of_N_inj. congruence.
Qed.

Lemma le_bytes_range n x : Forall (fun b => 0 <= b < 256) (Hashlib.le_bytes n x).
Proof.
  revert x. induction n as [|n IH]; intros x; simpl; [constructor|].
  constructor; [apply Z.mod_pos_bound; lia|apply IH].
Qed.

Lemma md5_range msg : Forall (fun b => 0 <= b < 256) (Hashlib.md5 msg).
Proof.
  unfold Hashlib.md5. destruct (Hashlib.md5_words msg) as [[[a b] c] d].
  rewrite !Forall_app. split_and!; apply le_bytes_range.
Qed.

Lemma hex_digit_inj x y :
  0 <= x < 16 -> 0 <= y < 16 -> Hashlib.hex_digit x = Hashlib.hex_digit y -> x = y.
Proof.
  unfold Hashlib.hex_digit. intros Hx Hy H.
  destruct (Z.ltb_spec x 10), (Z.ltb_spec y 10); lia.
Qed.

(** The hexadecimal text of a digest tells the digest. *)
Lemma hexdigest_inj d1 d2 :
  Forall (fun b => 0 <= b < 256) d1 -> Forall (fun b => 0 <= b < 256) d2 ->
  Hashlib.hexdigest d1 = Hashlib.hexdigest d2 -> d1 = d2.
Proof.
  intros H1. revert d2. induction H1 as [|x d1 Hx _ IH]; intros d2 H2 H.
  - destruct H2; [done|discriminate H].
  - destruct H2 as [|y d2 Hy H2]; [discriminate H|].
    unfold Hashlib.hexdigest in H. simpl in H. injection H as Hhi Hlo Hrest.
    assert (x / 16 = y / 16).
    { apply hex_digit_inj; [| |done].
      - split; [apply Z.div_pos; lia|apply Z.div_lt_upper_bound; lia].
      - split; [apply Z.div_pos; lia|apply Z.div_lt_upper_bound; lia]. }
    assert (x mod 16 = y mod 16).
    { apply hex_digit_inj; [apply Z.mod_pos_bound; lia..|done]. }
    f_equal.
    + rewrite (Z.div_mod x 16), (Z.div_mod y 16) by lia. congruence.
    + by apply IH.
Qed.

(** The ids of a run depend on the document path and the number of
    chunks only: two runs on the same path that produce as many chunks
    give the same ids, in the same order (or fail alike), whatever the
    metadata, the time and the text of the chunks.  And the id generation
    adds no collision of its own: when two different indices of a
    document get the same id, the byte strings hashed for them are
    different and MD5 gives both the same digest. *)
Theorem chunk_ids_deterministic (file_path : str) base1 base2 chunks1 chunks2 :
  length chunks1 = length chunks2 ->
  match chunk_records file_path base1 chunks1,
        chunk_records file_path base2 chunks2 with
  | Ok (ids1, _), Ok (ids2, _) => ids1 = ids2
  | Raise e1, Raise e2 => e1 = e2
  | _, _ => False
  end
  /\ forall (i j : Z) chunk_id,
       i <> j ->
       _generate_chunk_id file_path i = Ok chunk_id ->
       _generate_chunk_id file_path j = Ok chunk_id ->
       exists a b,
         Hashlib.encode (chunk_id_content file_path i) = Some a
         /\ Hashlib.encode (chunk_id_content file_path j) = Some b
         /\ a <> b
         /\ Hashlib.md5 a = Hashlib.md5 b.
Proof.
  intros Hlen. split.
  - unfold chunk_records. rewrite !chunk_records_from_ids, Hlen.
    by destruct (ids_from file_path 0 (length chunks2)).
  - intros i j chunk_id Hij. unfold _generate_chunk_id.
    destruct (Hashlib.encode (chunk_id_content file_path i)) as [a|] eqn:Ha; [|done].
    destruct (Hashlib.encode (chunk_id_content file_path j)) as [b|] eqn:Hb; [|done].
    intros [= Hi] [= Hj]. exists a, b. split_and!; [done|done| |].
    + by apply (hashed_bytes_differ file_path i j).
    + apply hexdigest_inj; [apply md5_range..|congruence].
Qed.

Lemma chunk_ids_deterministic_witness :
  match chunk_records Demo.path (Demo.base_metadata None) Demo.two_chunks,
        chunk_records Demo.path (Demo.base_metadata (Some Demo.override_total))
          [lit "Edited first."; lit "Edited second."] with
  | Ok (ids1, _), Ok (ids2, _) => ids1 = ids2
  | Raise e1, Raise e2 => e1 = e2
  | _, _ => False
  end
  /\ forall (i j : Z) chunk_id,
       i <> j ->
       _generate_chunk_id Demo.path i = Ok chunk_id ->
       _generate_chunk_id Demo.path j = Ok chunk_id ->
       exists a b,
         Hashlib.encode (chunk_id_content Demo.path i) = Some a
         /\ Hashlib.encode (chunk_id_content Demo.path j) = Some b
         /\ a <> b
         /\ Hashlib.md5 a = Hashlib.md5 b.
Proof.
  apply (chunk_ids_deterministic Demo.path (Demo.base_metadata None)
           (Demo.base_metadata (Some Demo.override_total)) Demo.two_chunks
           [lit "Edited first."; lit "Edited second."]).
  reflexivity.
Defined.

End ChunkIdCollisions.
